(** * Poisson-disc sampling (PoissonDisc.cpp): a shallow embedding

    The development follows [PoissonDisc::GeneratePoints] and its helpers
    function by function, then states and proves properties of the
    generated point lists.

    Conventions of the embedding.
    - [int] and [u32] values are integers of [Z].  Where the source mixes
      [int] and [u32] operands (the comparisons of [InsideRectangle], the
      offset of [InsideSection]) C++ computes modulo 2^32; that wrap-around
      is written out with [u32] and [s32].  Sums and differences of [int]
      coordinates of points and tiles are taken in [Z]: an overflow of
      [int] is undefined in C++ and does not occur for coordinates of the
      size of a map.  The squares that [getDistanceFrom] adds and the
      counter [numberOfPoints] can leave the range of [int]; there the
      overflow is the outcome [Undefined].
    - [float] and [double] are the binary32 and binary64 formats of
      IEEE 754, every operation rounded to nearest, ties to even, in the
      format of its operands (as compilers for x86-64 evaluate them).  A
      floating-point value is the rational number it denotes; [round] is
      the rounding, and the distance, the cell size, the tiles, the grid
      dimensions, the candidates and the first point are computed with it
      step by step as the source computes them.
    - A floating-point operation that overflows or divides by zero
      delivers an infinity or a NaN.  The source converts every such value
      to [int] later on, which is undefined, so the model ends the run with
      [Undefined] at the operation itself.
    - A conversion of a floating-point value to [int] truncates toward zero
      and is undefined outside the range of [int]; it is the fallible
      operation [int_of_Z] / [int_of_Q].
    - An out-of-range index into a [std::vector] is undefined behaviour:
      the outcome [Undefined].
    - The loops of the source are structurally recursive functions; the
      [while] loop takes fuel, and [OutOfFuel] is the outcome of a run that
      needs more passes than it was given.
    - The random source is an explicit argument (a stream of draws), so a
      run is a function of the stream. *)

From Stdlib Require Import String ZArith QArith Qround Qabs Qpower List Bool Lia Lqa Lra.
From Stdlib Require Import Reals.
Import ListNotations.

Open Scope Z_scope.

(** ** Machine integers *)

Definition MAX_INT : Z := 2147483647.
Definition MIN_INT : Z := -2147483648.

(** Conversion to [u32]: reduction modulo 2^32. *)
Definition u32 (z : Z) : Z := z mod 4294967296.

(** Conversion of a [u32] value back to [int] (two's complement). *)
Definition s32 (z : Z) : Z := (z + 2147483648) mod 4294967296 - 2147483648.

(** ** Outcomes of a run *)

Inductive result (A : Type) : Type :=
| Returned (a : A)
| Undefined
| OutOfFuel.

Arguments Returned {A} a.
Arguments Undefined {A}.
Arguments OutOfFuel {A}.

Definition bind {A B : Type} (r : result A) (k : A -> result B) : result B :=
  match r with
  | Returned a => k a
  | Undefined => Undefined
  | OutOfFuel => OutOfFuel
  end.

Notation "x <- r ;; k" := (bind r (fun x => k))
  (at level 61, r at next level, right associativity).

(** [(int) v] for an integral value [v]. *)
Definition int_of_Z (t : Z) : result Z :=
  if (MIN_INT <=? t) && (t <=? MAX_INT) then Returned t else Undefined.

(** [(int) q]: truncation toward zero. *)
Definition int_of_Q (q : Q) : result Z :=
  int_of_Z (Z.quot (Qnum q) (Zpos (Qden q))).

(** ** Floating point *)

(** A finite floating-point value. *)
Definition float : Type := Q.

(** [2^e] for an integer exponent. *)
Definition pow2 (e : Z) : Q := (2 ^ e)%Q.

(** The exponent [e] with [2^e <= q < 2^(e+1)], for a positive [q]. *)
Definition ilog2 (q : Q) : Z :=
  let e := Z.log2 (Qnum q) - Z.log2 (Zpos (Qden q)) in
  if Qle_bool (pow2 e) q then e else e - 1.

(** The integer nearest to [q], the even one of two that are equally
    near. *)
Definition nearest_even (q : Q) : Z :=
  let f := Qfloor q in
  match Qcompare (q - inject_Z f) (1 # 2) with
  | Lt => f
  | Gt => f + 1
  | Eq => if Z.even f then f else f + 1
  end.

(** A binary format: the number of bits of the significand, the exponent
    of the smallest positive value, and the exponent of the least power of
    two that is too large for the format. *)
Record Format : Type := mkFormat { precision : Z; emin : Z; emax : Z }.

Definition binary32 : Format := mkFormat 24 (-149) 128.
Definition binary64 : Format := mkFormat 53 (-1074) 1024.

(** The exponent of the unit in the last place of the values as large as
    [q]. *)
Definition ulp_exponent (f : Format) (q : Q) : Z :=
  Z.max (ilog2 (Qabs q) - (precision f - 1)) (emin f).

(** Rounding to nearest, ties to even, in an unbounded exponent range. *)
Definition round (f : Format) (q : Q) : Q :=
  if Qeq_bool q 0 then 0%Q
  else let e := ulp_exponent f q in
       Qred (inject_Z (nearest_even (q / pow2 e)) * pow2 e).

(** The value that an operation delivers whose exact result is [q]: the
    rounding of [q], unless that overflows. *)
Definition rounded (f : Format) (q : Q) : result Q :=
  let r := round f q in
  if Qle_bool (pow2 (emax f)) (Qabs r) then Undefined else Returned r.

(** The square root of [q], correctly rounded as IEEE 754 requires of
    [sqrt] and [sqrtf]: [s] is the integer part of the root in units of
    the last place, and the square of [s + 1/2] decides the rounding. *)
Definition round_sqrt (f : Format) (q : Q) : Q :=
  if Qle_bool q 0 then 0%Q
  else let e := Z.max (ilog2 q / 2 - (precision f - 1)) (emin f) in
       let y := (q / pow2 (2 * e))%Q in
       let s := Z.sqrt (Qfloor y) in
       let h := (inject_Z s + (1 # 2))%Q in
       let n := match Qcompare y (h * h) with
                | Lt => s
                | Gt => s + 1
                | Eq => if Z.even s then s else s + 1
                end in
       Qred (inject_Z n * pow2 e).

(** The operations of [float]. *)
Definition float_of_int (z : Z) : result float := rounded binary32 (inject_Z z).

(** [(float) w] for a [u32] value [w]. *)
Definition float_of_u32 (w : Z) : result float :=
  rounded binary32 (inject_Z (u32 w)).

Definition float_add (a b : float) : result float := rounded binary32 (a + b).

Definition float_mul (a b : float) : result float := rounded binary32 (a * b).

Definition float_div (a b : float) : result float :=
  if Qeq_bool b 0 then Undefined else rounded binary32 (a / b).

(** [sqrtf]; the root of a negative value is a NaN. *)
Definition sqrtf (a : float) : result float :=
  if Qle_bool 0 a then Returned (round_sqrt binary32 a) else Undefined.

(** The literals [0.4f] and [0.6f]. *)
Definition float_0_4 : float := round binary32 (2 # 5).
Definition float_0_6 : float := round binary32 (3 # 5).

(** [sqrt(2)], a [double]. *)
Definition sqrt_2 : Q := round_sqrt binary64 2.

(** ** Geometry primitives (irr::core) *)

Record vector2di : Type := mkVector { X : Z; Y : Z }.
Record dimension2du : Type := mkDimension { Width : Z; Height : Z }.

Definition vector2di_eqb (a b : vector2di) : bool :=
  (X a =? X b) && (Y a =? Y b).

(** The value [vector2di(-1, -1)] that marks an unset grid tile. *)
Definition sentinel : vector2di := mkVector (-1) (-1).

(** The squared distance, over the integers. *)
Definition dist2 (a b : vector2di) : Z :=
  (X a - X b) * (X a - X b) + (Y a - Y b) * (Y a - Y b).

(** [core::squareroot(const s32 f)] of the Irrlicht library:
    [static_cast<s32>(squareroot(static_cast<f32>(f)))], where
    [squareroot(const f32 f)] is [sqrtf(f)]. *)
Definition squareroot (f : Z) : result Z :=
  x <- float_of_int f ;;
  r <- sqrtf x ;;
  int_of_Q r.

(** [vector2d<s32>::getDistanceFrom] of the Irrlicht library:
    [vector2d<T>(X - other.X, Y - other.Y).getLength()], where
    [getLength()] is [core::squareroot(X*X + Y*Y)].  The differences, the
    squares and their sum are [s32] values. *)
Definition getDistanceFrom (a b : vector2di) : result Z :=
  dx <- int_of_Z (X a - X b) ;;
  dy <- int_of_Z (Y a - Y b) ;;
  xx <- int_of_Z (dx * dx) ;;
  yy <- int_of_Z (dy * dy) ;;
  sum <- int_of_Z (xx + yy) ;;
  squareroot sum.

(** The Euclidean distance as a real number. *)
Definition distance (a b : vector2di) : R := sqrt (IZR (dist2 a b)).

(** ** Cell size *)

(** [(int)(x / cellSize)] for an [int] coordinate [x]: the coordinate is
    converted to [float], the quotient is rounded to [float] and
    truncated. *)
Definition int_div_cell (x : Z) (cellSize : float) : result Z :=
  fx <- float_of_int x ;;
  quotient <- float_div fx cellSize ;;
  int_of_Q quotient.

(** [(int) ceil(w / cellSize)] for a [u32] dimension [w]. *)
Definition int_ceil_div_cell (w : Z) (cellSize : float) : result Z :=
  fw <- float_of_u32 w ;;
  quotient <- float_div fw cellSize ;;
  int_of_Z (Qceiling quotient).

(** ** The random source *)

(** One call of [GenerateRandomPointAroundPoint] draws a radial fraction
    [Range(0.f, 1.f)] and an angle; the model does not evaluate the
    trigonometric functions, a draw carries the cosine and the sine of
    the angle, which [cos] and [sin] deliver as [float] values. *)
Record CandidateDraw : Type :=
  mkDraw { radial : Q; cosAngle : Q; sinAngle : Q }.

Record RandomSource : Type :=
  mkRandom { firstU : Q; firstV : Q; draw : nat -> CandidateDraw }.

(** Modelled from the spec: CustomRandom::Range, whose source is not among
    the files at hand; "a uniform random-range function Range(min, max)",
    here the point of [min, max] selected by the fraction [u] drawn, as a
    [float]. *)
Definition Range (min max : float) (u : Q) : result float :=
  rounded binary32 (min + u * (max - min)).

(** The contract of the random source: fractions lie in [0, 1]. *)
Definition unit_fraction (u : Q) : Prop := (0 <= u)%Q /\ (u <= 1)%Q.

Definition valid_first (rs : RandomSource) : Prop :=
  unit_fraction (firstU rs) /\ unit_fraction (firstV rs).

(** ** PoissonDisc *)

Module PoissonDisc.

Inductive Shape : Type := eRectangle | eEllipse.

Record MapSection : Type :=
  mkSection { shape : Shape; centerTile : vector2di; dimensions : dimension2du }.

Definition ListOfPoints : Type := list vector2di.
Definition GridOfPoints : Type := list ListOfPoints.
Definition QueueOfPoints : Type := list vector2di.

Record PointGrid2D : Type :=
  mkGrid { grid : GridOfPoints; gridDimensions : dimension2du }.

Definition POINTS_PER_LOOP : nat := 30.

(** [pointGrid.grid[tile.X][tile.Y]], read. *)
Definition gridAt (pointGrid : PointGrid2D) (tile : vector2di) : result vector2di :=
  if (X tile <? 0) || (Y tile <? 0) then Undefined
  else match nth_error (grid pointGrid) (Z.to_nat (X tile)) with
       | None => Undefined
       | Some row =>
           match nth_error row (Z.to_nat (Y tile)) with
           | None => Undefined
           | Some p => Returned p
           end
       end.

Fixpoint replace_nth {A : Type} (n : nat) (x : A) (l : list A) : list A :=
  match l, n with
  | [], _ => []
  | _ :: t, O => x :: t
  | h :: t, S n' => h :: replace_nth n' x t
  end.

(** [pointGrid.grid[tile.X][tile.Y] = point], write. *)
Definition gridStore (pointGrid : PointGrid2D) (tile point : vector2di)
  : result PointGrid2D :=
  if (X tile <? 0) || (Y tile <? 0) then Undefined
  else match nth_error (grid pointGrid) (Z.to_nat (X tile)) with
       | None => Undefined
       | Some row =>
           if (Z.to_nat (Y tile) <? List.length row)%nat
           then Returned
                  (mkGrid (replace_nth (Z.to_nat (X tile))
                             (replace_nth (Z.to_nat (Y tile)) point row)
                             (grid pointGrid))
                          (gridDimensions pointGrid))
           else Undefined
       end.

Definition PointToGridTile (point : vector2di) (cellSize : float)
  : result vector2di :=
  tileX <- int_div_cell (X point) cellSize ;;
  tileY <- int_div_cell (Y point) cellSize ;;
  Returned (mkVector tileX tileY).

(** [minimumDistance * (1 + Range(0.f, 1.f))] and the two coordinates
    [point.X + distanceFromCenter * cos(angle)] are computed in [float]:
    the [int] operands are converted, every sum and product is rounded,
    and the results are converted to [int].  The draw gives the fraction
    that [Range] returns for the distance, and the cosine and the sine of
    the angle. *)
Definition GenerateRandomPointAroundPoint
  (point : vector2di) (minimumDistance : Z) (d : CandidateDraw)
  : result vector2di :=
  fraction <- Range 0%Q 1%Q (radial d) ;;
  scale <- float_add 1%Q fraction ;;
  fm <- float_of_int minimumDistance ;;
  distanceFromCenter <- float_mul fm scale ;;
  cosine <- rounded binary32 (cosAngle d) ;;
  sine <- rounded binary32 (sinAngle d) ;;
  fx <- float_of_int (X point) ;;
  offsetX <- float_mul distanceFromCenter cosine ;;
  sumX <- float_add fx offsetX ;;
  newPointX <- int_of_Q sumX ;;
  fy <- float_of_int (Y point) ;;
  offsetY <- float_mul distanceFromCenter sine ;;
  sumY <- float_add fy offsetY ;;
  newPointY <- int_of_Q sumY ;;
  Returned (mkVector newPointX newPointY).

(** The comparison [point.X < offset.X + dimensions.Width] has an unsigned
    right operand, so both sides are compared as [u32]. *)
Definition InsideRectangle
  (point offset : vector2di) (dimensions : dimension2du) : bool :=
  (X offset <=? X point) && (u32 (X point) <? u32 (X offset + Width dimensions)) &&
  (Y offset <=? Y point) && (u32 (Y point) <? u32 (Y offset + Height dimensions)).

(** The body of the tile loop of [GetPointsAroundTile], over the tile
    numbers still to visit. *)
Fixpoint tilesLoop (tileNumbers : list Z) (centerTile : vector2di)
  (pointGrid : PointGrid2D) (neighboringPoints : ListOfPoints)
  : result ListOfPoints :=
  match tileNumbers with
  | [] => Returned neighboringPoints
  | tileNumber :: rest =>
      let rowLength := 5 in
      let halfRowLength := Z.quot rowLength 2 in
      if (tileNumber =? 4) || (tileNumber =? 20)
      then tilesLoop rest centerTile pointGrid neighboringPoints
      else
        let tile := mkVector (X centerTile - halfRowLength + Z.rem tileNumber rowLength)
                             (Y centerTile - halfRowLength + Z.quot tileNumber rowLength) in
        if negb (InsideRectangle tile (mkVector 0 0) (gridDimensions pointGrid))
        then tilesLoop rest centerTile pointGrid neighboringPoints
        else
          p <- gridAt pointGrid tile ;;
          tilesLoop rest centerTile pointGrid (neighboringPoints ++ [p])
  end.

(** [for (int tileNumber = 1; tileNumber < tilesToCheck; tileNumber++)]. *)
Definition tileNumbers : list Z := map Z.of_nat (seq 1 23).

Definition GetPointsAroundTile (centerTile : vector2di) (pointGrid : PointGrid2D)
  : result ListOfPoints :=
  tilesLoop tileNumbers centerTile pointGrid [].

Fixpoint neighborLoop (points : ListOfPoints) (centerPoint : vector2di)
  (minimumDistance : Z) : result bool :=
  match points with
  | [] => Returned false
  | otherPoint :: rest =>
      if negb (vector2di_eqb otherPoint sentinel)
      then d <- getDistanceFrom otherPoint centerPoint ;;
           if d <? minimumDistance
           then Returned true
           else neighborLoop rest centerPoint minimumDistance
      else neighborLoop rest centerPoint minimumDistance
  end.

Definition InNeighborhood (centerPoint : vector2di) (minimumDistance : Z)
  (pointGrid : PointGrid2D) (cellSize : float) : result bool :=
  centerTile <- PointToGridTile centerPoint cellSize ;;
  pointsAroundCenterTile <- GetPointsAroundTile centerTile pointGrid ;;
  neighborLoop pointsAroundCenterTile centerPoint minimumDistance.

(** [InsideSection] prints a message for the unsupported shape; the
    messages printed are returned next to the answer. *)
Definition ellipse_message : string :=
  String.append "eEllipse map section shape type not yet supported."
                (String (Ascii.ascii_of_nat 10) EmptyString).

Definition InsideSection (point : vector2di) (section : MapSection)
  : bool * list string :=
  let sectionOffset :=
    mkVector (s32 (X (centerTile section) - Width (dimensions section) / 2))
             (s32 (Y (centerTile section) - Height (dimensions section) / 2)) in
  match shape section with
  | eRectangle => (InsideRectangle point sectionOffset (dimensions section), [])
  | eEllipse => (false, [ellipse_message])
  end.

(** The erase loop of [ExcludeSection]: the points kept, and the console
    output. *)
Fixpoint ExcludeSection (points : ListOfPoints) (section : MapSection)
  : ListOfPoints * list string :=
  match points with
  | [] => ([], [])
  | p :: rest =>
      let (inside, printed) := InsideSection p section in
      let (kept, printedRest) := ExcludeSection rest section in
      if inside then (kept, printed ++ printedRest)
      else (p :: kept, printed ++ printedRest)
  end.

Fixpoint excludeLoop (sections : list MapSection) (outputList : ListOfPoints)
  (console : list string) : ListOfPoints * list string :=
  match sections with
  | [] => (outputList, console)
  | section :: rest =>
      let (kept, printed) := ExcludeSection outputList section in
      excludeLoop rest kept (console ++ printed)
  end.

(** The local variables of [GeneratePoints] that the loops change, with
    two history variables: the number of candidate draws consumed and the
    points the outer loop has taken from the front of the queue. *)
Record LoopState : Type :=
  mkState { processQueue : QueueOfPoints;
            outputList : ListOfPoints;
            pointGrid : PointGrid2D;
            numberOfPoints : Z;
            draws : nat;
            processed : list vector2di }.

Section Generation.

Variable minimumDistance : Z.
Variable mapDimensions : dimension2du.
Variable maxNumberOfPoints : Z.
Variable random : RandomSource.

(** [float pointGridCellSize = minimumDistance / sqrt(2)]: the quotient
    is a [double], rounded once more when it is stored. *)
Definition pointGridCellSize : float :=
  round binary32 (round binary64 (inject_Z minimumDistance / sqrt_2)).

(** One pass of the body of the [for] loop.  The second component tells
    whether the pass ended in [break]. *)
Definition tryPoint (currentPoint : vector2di) (st : LoopState)
  : result (LoopState * bool) :=
  newPoint <- GenerateRandomPointAroundPoint currentPoint minimumDistance
                (draw random (draws st)) ;;
  let st := mkState (processQueue st) (outputList st) (pointGrid st)
                    (numberOfPoints st) (S (draws st)) (processed st) in
  if InsideRectangle newPoint (mkVector 0 0) mapDimensions
  then
    near <- InNeighborhood newPoint minimumDistance (pointGrid st) pointGridCellSize ;;
    if negb near
    then
      gridTile <- PointToGridTile newPoint pointGridCellSize ;;
      stored <- gridStore (pointGrid st) gridTile newPoint ;;
      counted <- int_of_Z (numberOfPoints st + 1) ;;
      Returned (mkState (processQueue st ++ [newPoint])
                        (outputList st ++ [newPoint])
                        stored
                        counted
                        (draws st) (processed st),
                maxNumberOfPoints <? MAX_INT)
    else Returned (st, false)
  else Returned (st, false).

(** [for (int i = 0; i < POINTS_PER_LOOP; i++)], with [n] passes left. *)
Fixpoint forLoop (n : nat) (currentPoint : vector2di) (st : LoopState)
  : result LoopState :=
  match n with
  | O => Returned st
  | S n' =>
      r <- tryPoint currentPoint st ;;
      if snd r then Returned (fst r) else forLoop n' currentPoint (fst r)
  end.

(** The condition [!maxNumberOfPoints < MAX_INT]: the negation applies to
    [maxNumberOfPoints] alone and yields 0 or 1, which is then compared. *)
Definition popCondition : bool :=
  Z.b2z (maxNumberOfPoints =? 0) <? MAX_INT.

Definition whileCondition (st : LoopState) : bool :=
  negb (match processQueue st with [] => true | _ => false end)
  && (numberOfPoints st <? maxNumberOfPoints).

(** One pass of the body of the [while] loop. *)
Definition whileBody (st : LoopState) : result LoopState :=
  match processQueue st with
  | [] => Undefined
  | currentPoint :: _ =>
      st1 <- forLoop POINTS_PER_LOOP currentPoint
               (mkState (processQueue st) (outputList st) (pointGrid st)
                        (numberOfPoints st) (draws st)
                        (processed st ++ [currentPoint])) ;;
      if popCondition
      then Returned (mkState (tl (processQueue st1)) (outputList st1)
                             (pointGrid st1) (numberOfPoints st1)
                             (draws st1) (processed st1))
      else Returned st1
  end.

Fixpoint whileLoop (fuel : nat) (st : LoopState) : result LoopState :=
  if whileCondition st
  then match fuel with
       | O => OutOfFuel
       | S fuel' => st' <- whileBody st ;; whileLoop fuel' st'
       end
  else Returned st.

(** The grid of [pointGridHeight] rows of [pointGridWidth] unset tiles. *)
Definition initGrid (pointGridWidth pointGridHeight : Z) : PointGrid2D :=
  mkGrid (repeat (repeat sentinel (Z.to_nat pointGridWidth))
                 (Z.to_nat pointGridHeight))
         (mkDimension (u32 pointGridWidth) (u32 pointGridHeight)).

(** [CustomRandom::Range(size * 0.4f, size * 0.6f)] converted to [int],
    for a [u32] dimension [size] of the map. *)
Definition firstPointRange (size : Z) (u : Q) : result Z :=
  fsize <- float_of_u32 size ;;
  low <- float_mul fsize float_0_4 ;;
  high <- float_mul fsize float_0_6 ;;
  r <- Range low high u ;;
  int_of_Q r.

(** The branch that generates the first point. *)
Definition firstPointState (pointGrid : PointGrid2D) : result LoopState :=
  firstPointWidthRange <- firstPointRange (Width mapDimensions) (firstU random) ;;
  firstPointHeightRange <- firstPointRange (Height mapDimensions) (firstV random) ;;
  let firstPoint := mkVector firstPointWidthRange firstPointHeightRange in
  gridTile <- PointToGridTile firstPoint pointGridCellSize ;;
  stored <- gridStore pointGrid gridTile firstPoint ;;
  Returned (mkState [firstPoint] [firstPoint] stored 0 0 []).

(** The branch that enters the existing points. *)
Fixpoint existingLoop (points : list vector2di) (st : LoopState)
  : result LoopState :=
  match points with
  | [] => Returned st
  | point :: rest =>
      gridTile <- PointToGridTile point pointGridCellSize ;;
      stored <- gridStore (pointGrid st) gridTile point ;;
      existingLoop rest
        (mkState (processQueue st ++ [point]) (outputList st) stored
                 (numberOfPoints st) (draws st) (processed st))
  end.

(** Everything up to the [while] loop. *)
Definition initialState (existingPoints : list vector2di) : result LoopState :=
  pointGridWidth <- int_ceil_div_cell (Width mapDimensions) pointGridCellSize ;;
  pointGridHeight <- int_ceil_div_cell (Height mapDimensions) pointGridCellSize ;;
  let pointGrid := initGrid pointGridWidth pointGridHeight in
  match existingPoints with
  | [] => firstPointState pointGrid
  | _ => existingLoop existingPoints (mkState [] [] pointGrid 0 0 [])
  end.

(** The state when the [while] loop exits. *)
Definition generationLoop (existingPoints : list vector2di) (fuel : nat)
  : result LoopState :=
  st0 <- initialState existingPoints ;;
  whileLoop fuel st0.

(** [GeneratePoints] with its console output. *)
Definition GeneratePointsIO (excludedSections : list MapSection)
  (existingPoints : list vector2di) (fuel : nat)
  : result (ListOfPoints * list string) :=
  st <- generationLoop existingPoints fuel ;;
  Returned (excludeLoop excludedSections (outputList st) []).

Definition GeneratePoints (excludedSections : list MapSection)
  (existingPoints : list vector2di) (fuel : nat) : result ListOfPoints :=
  r <- GeneratePointsIO excludedSections existingPoints fuel ;;
  Returned (fst r).

End Generation.

End PoissonDisc.

Import PoissonDisc.

(** * Vocabulary of the statements *)

(** ** Well-formed inputs *)

(** The values a [dimension2du] can hold. *)
Definition wf_dimension (d : dimension2du) : Prop :=
  0 <= Width d < 4294967296 /\ 0 <= Height d < 4294967296.

(** A point of the map: [0 <= x < Width] and [0 <= y < Height]. *)
Definition InMap (d : dimension2du) (p : vector2di) : Prop :=
  0 <= X p < Width d /\ 0 <= Y p < Height d.


(** The contract of the random source for a candidate: a radial fraction
    in [0, 1], and a cosine and a sine in [-1, 1]. *)
Definition valid_draw (d : CandidateDraw) : Prop :=
  unit_fraction (radial d) /\
  ((-1 <= cosAngle d)%Q /\ (cosAngle d <= 1)%Q) /\
  ((-1 <= sinAngle d)%Q /\ (sinAngle d <= 1)%Q).


(** ** Tiles *)

(** The tiles that [GetPointsAroundTile] scans around a centre tile, as
    offsets: the 5 by 5 block without its four corners. *)
Definition scanned (dx dy : Z) : Prop :=
  -2 <= dx <= 2 /\ -2 <= dy <= 2 /\ ~ (Z.abs dx = 2 /\ Z.abs dy = 2).

(** The tile that the tile loop visits for a tile number. *)
Definition scanTile (centerTile : vector2di) (tileNumber : Z) : vector2di :=
  mkVector (X centerTile - 2 + Z.rem tileNumber 5)
           (Y centerTile - 2 + Z.quot tileNumber 5).

(** A tile that indexes the storage of the grid. *)
Definition in_storage (g : PointGrid2D) (t : vector2di) : Prop :=
  0 <= X t /\ 0 <= Y t /\
  exists row, nth_error (grid g) (Z.to_nat (X t)) = Some row /\
              (Z.to_nat (Y t) < List.length row)%nat.

(** Whether the tile of the point [p] is [t]. *)
Definition onTile (m : Z) (t p : vector2di) : bool :=
  match PointToGridTile p (pointGridCellSize m) with
  | Returned t' => vector2di_eqb t' t
  | _ => false
  end.

(** The last point of a list whose tile is [t]. *)
Fixpoint lastOnTile (m : Z) (t : vector2di) (points : list vector2di)
  : option vector2di :=
  match points with
  | [] => None
  | p :: rest =>
      match lastOnTile m t rest with
      | Some q => Some q
      | None => if onTile m t p then Some p else None
      end
  end.

(** ** States of the loop *)

(** The states [GeneratePoints] passes through: after the allocation of
    the grid, after each store of an existing point or of the first point,
    after each pass of the [for] loop and after each pop.  The relation
    does not track which point or draw comes next, so it holds of every
    state of every run and of more. *)
Inductive reaches (m : Z) (mapDimensions : dimension2du) (max : Z)
  (rs : RandomSource) (seeds : list vector2di) : LoopState -> Prop :=
| reaches_allocated (gw gh : Z) :
    int_ceil_div_cell (Width mapDimensions) (pointGridCellSize m) = Returned gw ->
    int_ceil_div_cell (Height mapDimensions) (pointGridCellSize m) = Returned gh ->
    reaches m mapDimensions max rs seeds (mkState [] [] (initGrid gw gh) 0 0 [])
| reaches_first (gw gh : Z) (st : LoopState) :
    seeds = [] ->
    int_ceil_div_cell (Width mapDimensions) (pointGridCellSize m) = Returned gw ->
    int_ceil_div_cell (Height mapDimensions) (pointGridCellSize m) = Returned gh ->
    firstPointState m mapDimensions rs (initGrid gw gh) = Returned st ->
    reaches m mapDimensions max rs seeds st
| reaches_existing (st st' : LoopState) (p : vector2di) :
    reaches m mapDimensions max rs seeds st -> In p seeds ->
    existingLoop m [p] st = Returned st' ->
    reaches m mapDimensions max rs seeds st'
| reaches_front (st : LoopState) (cur : vector2di) :
    reaches m mapDimensions max rs seeds st ->
    reaches m mapDimensions max rs seeds
      (mkState (processQueue st) (outputList st) (pointGrid st)
               (numberOfPoints st) (draws st) (processed st ++ [cur]))
| reaches_try (st st' : LoopState) (cur : vector2di) (b : bool) :
    reaches m mapDimensions max rs seeds st ->
    tryPoint m mapDimensions max rs cur st = Returned (st', b) ->
    reaches m mapDimensions max rs seeds st'
| reaches_pop (st : LoopState) :
    reaches m mapDimensions max rs seeds st ->
    reaches m mapDimensions max rs seeds
      (mkState (tl (processQueue st)) (outputList st) (pointGrid st)
               (numberOfPoints st) (draws st) (processed st)).

Arguments reaches_allocated {m mapDimensions max rs seeds}.
Arguments reaches_first {m mapDimensions max rs seeds}.
Arguments reaches_existing {m mapDimensions max rs seeds}.
Arguments reaches_front {m mapDimensions max rs seeds}.
Arguments reaches_try {m mapDimensions max rs seeds}.
Arguments reaches_pop {m mapDimensions max rs seeds}.

(** Every tile holds the sentinel or a stored point, and the points of
    the output list lie in the map. *)
Definition sentinel_inv (mapDimensions : dimension2du) (seeds : list vector2di)
  (st : LoopState) : Prop :=
  Forall (InMap mapDimensions) (outputList st) /\
  forall t q, gridAt (pointGrid st) t = Returned q ->
              q = sentinel \/ In q (seeds ++ outputList st).

(** ** Exclusion *)

(** Whether [ExcludeSection] keeps a point. *)
Definition kept (section : MapSection) (p : vector2di) : bool :=
  negb (fst (InsideSection p section)).

(** The points left when every section has been excluded. *)
Definition excludeAll (sections : list MapSection) (points : ListOfPoints)
  : ListOfPoints :=
  fold_left (fun l section => filter (kept section) l) sections points.

(** The offset that [InsideSection] computes. *)
Definition sectionOffset (section : MapSection) : vector2di :=
  mkVector (s32 (X (centerTile section) - Width (dimensions section) / 2))
           (s32 (Y (centerTile section) - Height (dimensions section) / 2)).


(** Containment over the integers, without machine arithmetic. *)
Definition contains (section : MapSection) (p : vector2di) : Prop :=
  let ox := X (centerTile section) - Width (dimensions section) / 2 in
  let oy := Y (centerTile section) - Height (dimensions section) / 2 in
  ox <= X p < ox + Width (dimensions section) /\
  oy <= Y p < oy + Height (dimensions section).

(** A section whose centre and dimensions are values of their types and
    whose offset is a value of [int]. *)
Definition representable (section : MapSection) : Prop :=
  wf_dimension (dimensions section) /\
  X (centerTile section) <= MAX_INT /\ Y (centerTile section) <= MAX_INT /\
  MIN_INT <= X (centerTile section) - Width (dimensions section) / 2 /\
  MIN_INT <= Y (centerTile section) - Height (dimensions section) / 2.

(** ** Example inputs *)

(** A 100 by 100 map, and a random source whose first point is the centre
    of the map and whose candidates all lie 12.5 to the east of the point
    they are generated around ([Range(0.f, 1.f)] returns 0.25 for the
    distance and 0 for the angle), so truncate to 12 to the east.  The
    values of the examples are exact in binary floating point. *)
Definition map100 : dimension2du := mkDimension 100 100.

Definition drawEast : CandidateDraw := mkDraw (1 # 4) 1 0.

Definition sourceEast : RandomSource := mkRandom (1 # 2) (1 # 2) (fun _ => drawEast).

(** The excluded rectangle of the specification's scenario: 20 by 20
    around the centre of the map. *)
Definition rectangle20 : MapSection :=
  mkSection eRectangle (mkVector 50 50) (mkDimension 20 20).

(** The state of the example run when the loop exits. *)
Definition stateEast : LoopState :=
  match generationLoop 10 map100 MAX_INT sourceEast [] 300 with
  | Returned st => st
  | _ => mkState [] [] (mkGrid [] (mkDimension 0 0)) 0 0 []
  end.

(** The scenario of the specification: two existing points and a cap of
    five points. *)
Definition seedsTwo : list vector2di := [mkVector 10 10; mkVector 90 90].

(** Thirty candidates 18.75 to the east ([Range(0.f, 1.f)] returns 0.875
    for the distance), then candidates 10 to the east (it returns 0); the
    angle is 0 throughout. *)
Definition sourceFarNear : RandomSource :=
  mkRandom (1 # 2) (1 # 2)
           (fun n => if (n <? 30)%nat then mkDraw (7 # 8) 1 0 else mkDraw 0 1 0).

(** Two existing points on one tile. *)
Definition seedsClose : list vector2di := [mkVector 12 12; mkVector 10 10].

(** A map that is wider than high. *)
Definition mapWide : dimension2du := mkDimension 100 10.



(** A map of 27800 by 27800 for a minimum distance of 10089: the cell
    size is 7134.00048828125 and the grid has 4 by 4 tiles.  The existing
    point is the origin.  The draws of the random source are values of
    [float]: for the first candidate [Range(0.f, 1.f)] returns 0x1.ap-15
    for the distance and 0.125 for the angle, for the second 0 and 0.625,
    for the third 0x1.08cp-13 and 0x1.fff44cp-4.  The cosine and the sine
    are those that [cosf] and [sinf] return for the angle
    [(float)(2 * M_PI * v)]: 0x1.6a09e6p-1 twice; -0x1.6a09e8p-1 and
    -0x1.6a09e4p-1; 0x1.6a1066p-1 and 0x1.6a0366p-1. *)
Definition mapLarge : dimension2du := mkDimension 27800 27800.

Definition seedsOrigin : list vector2di := [mkVector 0 0].

Definition drawNorthEast : CandidateDraw :=
  mkDraw (13 # 262144) (11863283 # 16777216) (11863283 # 16777216).

Definition drawSouthWest : CandidateDraw :=
  mkDraw 0 (-11863284 # 16777216) (-11863282 # 16777216).

Definition drawBeside : CandidateDraw :=
  mkDraw (1059 # 8388608) (11864115 # 16777216) (11862451 # 16777216).

Definition sourceDiagonal : RandomSource :=
  mkRandom (1 # 2) (1 # 2)
           (fun n => match n with
                     | O => drawNorthEast
                     | S O => drawSouthWest
                     | _ => drawBeside
                     end).

(** ** Vocabulary of the further properties *)

(** The comparison [p < e] of [InsideRectangle], where [p] is a coordinate
    of the point and [e] the far edge [offset + dimension], computed as
    [u32]: without wrap-around of [e] the two sides are compared as
    unsigned values, so a negative side is the larger one. *)
Definition below_far_edge (p e : Z) : Prop :=
  (0 <= p /\ e < 0) \/ (p < e /\ (p < 0 -> e < 0)).

(** Whether every section keeps the point. *)
Definition keptByAll (sections : list MapSection) (p : vector2di) : bool :=
  forallb (fun section => kept section p) sections.

(** The tile at an offset of a centre tile. *)
Definition tileAt (centerTile : vector2di) (dx dy : Z) : vector2di :=
  mkVector (X centerTile + dx) (Y centerTile + dy).

(** A tile at a scanned offset of the centre tile, within the dimensions
    of the grid, holds [q]. *)
Definition scan_finds (centerTile : vector2di) (pointGrid : PointGrid2D)
  (q : vector2di) : Prop :=
  exists dx dy,
    scanned dx dy /\
    InsideRectangle (tileAt centerTile dx dy) (mkVector 0 0)
                    (gridDimensions pointGrid) = true /\
    gridAt pointGrid (tileAt centerTile dx dy) = Returned q.

(** A value of the format [f]: an integer of at most [precision f] bits
    times a power of two that is at least the smallest one of [f]. *)
Definition in_format (f : Format) (b : Q) : Prop :=
  exists B eb, emin f <= eb /\ Z.abs B <= 2 ^ precision f /\
               (b == inject_Z B * pow2 eb)%Q.

(** The coordinates of the point [p], and those within twice the minimum
    distance of them, are integers of at most 24 bits, which a [float]
    holds exactly. *)
Definition exact_in_float (m : Z) (p : vector2di) : Prop :=
  Z.abs (X p) + 2 * m <= 16777216 /\ Z.abs (Y p) + 2 * m <= 16777216.

(** The point [c] is within twice the minimum distance of the point [p]
    in each coordinate. *)
Definition around (m : Z) (p c : vector2di) : Prop :=
  X p - 2 * m <= X c <= X p + 2 * m /\ Y p - 2 * m <= Y c <= Y p + 2 * m.

(** ** Further example inputs *)

(** A rectangle behind the origin, from (-12, -12) to (-8, -8), and an
    ellipse around the centre of the map. *)
Definition rectangleOutside : MapSection :=
  mkSection eRectangle (mkVector (-10) (-10)) (mkDimension 4 4).

Definition ellipse20 : MapSection :=
  mkSection eEllipse (mkVector 50 50) (mkDimension 20 20).

(** The state of the capped example run when the loop exits. *)
Definition stateCapped : LoopState :=
  match generationLoop 10 map100 5 sourceEast seedsTwo 300 with
  | Returned st => st
  | _ => mkState [] [] (mkGrid [] (mkDimension 0 0)) 0 0 []
  end.

(** The state of the example run at the entry of the loop, and after the
    first candidate. *)
Definition stateFirst : LoopState :=
  match initialState 10 map100 sourceEast [] with
  | Returned st => st
  | _ => mkState [] [] (mkGrid [] (mkDimension 0 0)) 0 0 []
  end.

Definition stateSecond : LoopState :=
  match tryPoint 10 map100 MAX_INT sourceEast (mkVector 50 50) stateFirst with
  | Returned (st, _) => st
  | _ => stateFirst
  end.

(** * Proofs *)

(** ** Outcomes *)

Lemma bind_Returned {A B : Type} (r : result A) (k : A -> result B) (b : B) :
  bind r k = Returned b -> exists a, r = Returned a /\ k a = Returned b.
Proof.
  destruct r as [a| |]; simpl; intros H; try discriminate.
  exists a. split; [reflexivity | exact H].
Qed.

Lemma bind_not_fuel {A B : Type} (r : result A) (k : A -> result B) :
  r <> OutOfFuel -> (forall a, r = Returned a -> k a <> OutOfFuel) ->
  bind r k <> OutOfFuel.
Proof.
  destruct r as [a| |]; simpl; intros Hr Hk.
  - apply Hk. reflexivity.
  - discriminate.
  - congruence.
Qed.

Ltac inv_bind H :=
  let a := fresh "v" in
  let Ha := fresh "E" in
  apply bind_Returned in H; destruct H as (a & Ha & H).

Lemma int_of_Z_Returned (t v : Z) :
  int_of_Z t = Returned v -> v = t /\ MIN_INT <= v <= MAX_INT.
Proof.
  unfold int_of_Z.
  destruct ((MIN_INT <=? t) && (t <=? MAX_INT)) eqn:E; intros H; inversion H; subst.
  apply andb_prop in E. destruct E as [E1 E2].
  apply Z.leb_le in E1. apply Z.leb_le in E2. lia.
Qed.

Lemma int_of_Z_not_fuel (t : Z) : int_of_Z t <> OutOfFuel.
Proof. unfold int_of_Z. destruct (_ && _); discriminate. Qed.

Lemma u32_small (z : Z) : 0 <= z < 4294967296 -> u32 z = z.
Proof. intros H. unfold u32. apply Z.mod_small. exact H. Qed.

Lemma u32_le (z : Z) : 0 <= z -> u32 z <= z.
Proof. intros H. unfold u32. apply Z.mod_le; lia. Qed.

Lemma s32_small (z : Z) : MIN_INT <= z <= MAX_INT -> s32 z = z.
Proof.
  unfold MIN_INT, MAX_INT, s32. intros H.
  rewrite Z.mod_small; lia.
Qed.

(** ** Points and distances *)

Lemma vector2di_eqb_eq (a b : vector2di) : vector2di_eqb a b = true <-> a = b.
Proof.
  unfold vector2di_eqb. destruct a as [ax ay], b as [bx b_y]; simpl.
  rewrite andb_true_iff, !Z.eqb_eq. split.
  - intros [-> ->]. reflexivity.
  - intros H. inversion H. auto.
Qed.

Lemma dist2_nonneg (a b : vector2di) : 0 <= dist2 a b.
Proof.
  unfold dist2.
  pose proof (Z.square_nonneg (X a - X b)).
  pose proof (Z.square_nonneg (Y a - Y b)).
  lia.
Qed.

Lemma dist2_sym (a b : vector2di) : dist2 a b = dist2 b a.
Proof. unfold dist2. ring. Qed.

(** The real distance of two points whose squared distance is below
    [m * m] is below [m]. *)
Lemma distance_lt (a b : vector2di) (m : Z) :
  0 <= m -> dist2 a b < m * m -> (distance a b < IZR m)%R.
Proof.
  intros Hm Hlt. unfold distance.
  pose proof (dist2_nonneg a b) as Hd.
  apply IZR_lt in Hlt. rewrite mult_IZR in Hlt.
  assert (Hd' : (0 <= IZR (dist2 a b))%R) by (apply IZR_le; exact Hd).
  assert (Hm' : (0 <= IZR m)%R) by (apply IZR_le; exact Hm).
  rewrite <- (sqrt_square (IZR m)) by exact Hm'.
  apply sqrt_lt_1_alt. split; [exact Hd' | exact Hlt].
Qed.

(** ** Powers of two *)

Lemma pow2_pos (e : Z) : (0 < pow2 e)%Q.
Proof. unfold pow2. apply Qpower_0_lt. reflexivity. Qed.

Lemma pow2_add (a b : Z) : (pow2 (a + b) == pow2 a * pow2 b)%Q.
Proof. unfold pow2. apply Qpower_plus. discriminate. Qed.

Lemma pow2_le (a b : Z) : a <= b -> (pow2 a <= pow2 b)%Q.
Proof. intros H. unfold pow2. apply Qpower_le_compat_l; [exact H|]. discriminate. Qed.

Lemma pow2_lt_inv (a b : Z) : (pow2 a < pow2 b)%Q -> a < b.
Proof.
  intros H. destruct (Z_lt_ge_dec a b) as [Hlt|Hge]; [exact Hlt|exfalso].
  apply (Qlt_not_le _ _ H). apply pow2_le. lia.
Qed.

Lemma pow2_inject (e : Z) : 0 <= e -> (pow2 e == inject_Z (2 ^ e))%Q.
Proof. intros H. unfold pow2. symmetry. apply (Zpower_Qpower 2 e H). Qed.

Lemma pow2_half (e : Z) : (pow2 e * (1 # 2) == pow2 (e - 1))%Q.
Proof.
  replace e with ((e - 1) + 1) at 1 by lia. rewrite pow2_add.
  change (pow2 1) with 2%Q. field.
Qed.

(** ** The exponent of a positive rational *)

Lemma Zlog2_bounds (n : Z) :
  0 < n -> (pow2 (Z.log2 n) <= inject_Z n)%Q /\ (inject_Z n < pow2 (Z.log2 n + 1))%Q.
Proof.
  intros Hn. destruct (Z.log2_spec n Hn) as [Hlo Hhi].
  pose proof (Z.log2_nonneg n) as H0.
  rewrite !pow2_inject by lia. rewrite <- Zle_Qle, <- Zlt_Qlt.
  replace (Z.log2 n + 1) with (Z.succ (Z.log2 n)) by lia. auto.
Qed.

Lemma ilog2_spec (q : Q) :
  (0 < q)%Q -> (pow2 (ilog2 q) <= q)%Q /\ (q < pow2 (ilog2 q + 1))%Q.
Proof.
  intros Hq. unfold ilog2.
  destruct q as [n d]. cbn [Qnum Qden].
  assert (Hn : 0 < n) by (unfold Qlt in Hq; cbn in Hq; lia).
  destruct (Zlog2_bounds n Hn) as [Nlo Nhi].
  destruct (Zlog2_bounds (Z.pos d) (Pos2Z.is_pos d)) as [Dlo Dhi].
  set (a := Z.log2 n) in *. set (b := Z.log2 (Z.pos d)) in *.
  assert (Hd : (0 < inject_Z (Z.pos d))%Q) by (unfold Qlt; cbn; lia).
  assert (Eq : (n # d == inject_Z n / inject_Z (Z.pos d))%Q).
  { rewrite (Qmake_Qdiv n d). reflexivity. }
  pose proof (pow2_pos a) as Pa. pose proof (pow2_pos b) as Pb.
  pose proof (pow2_pos (a + 1)) as Pa1. pose proof (pow2_pos (b + 1)) as Pb1.
  assert (Hup : (n # d < pow2 (a - b + 1))%Q).
  { rewrite Eq. apply Qlt_shift_div_r; [exact Hd|].
    replace (a - b + 1) with ((a + 1) + - b) by lia. rewrite pow2_add.
    apply Qlt_le_trans with (pow2 (a + 1)); [exact Nhi|].
    assert (E1 : (pow2 (- b) * pow2 b == 1)%Q).
    { rewrite <- pow2_add. replace (- b + b) with 0 by lia. reflexivity. }
    pose proof (pow2_pos (- b)) as Pnb.
    setoid_replace (pow2 (a + 1)) with (pow2 (a + 1) * pow2 (- b) * pow2 b)%Q at 1
      by (rewrite <- Qmult_assoc, E1; ring).
    apply Qmult_le_l; [apply Qmult_lt_0_compat; assumption | exact Dlo]. }
  assert (Hdown : (pow2 (a - b - 1) <= n # d)%Q).
  { rewrite Eq. apply Qle_shift_div_l; [exact Hd|].
    replace (a - b - 1) with (a + - (b + 1)) by lia. rewrite pow2_add.
    apply Qle_trans with (pow2 a); [|exact Nlo].
    assert (E1 : (pow2 (- (b + 1)) * pow2 (b + 1) == 1)%Q).
    { rewrite <- pow2_add. replace (- (b + 1) + (b + 1)) with 0 by lia. reflexivity. }
    pose proof (pow2_pos (- (b + 1))) as Pnb.
    setoid_replace (pow2 a) with (pow2 a * pow2 (- (b + 1)) * pow2 (b + 1))%Q at 2
      by (rewrite <- Qmult_assoc, E1; ring).
    apply Qmult_le_l; [apply Qmult_lt_0_compat; assumption|].
    apply Qlt_le_weak. exact Dhi. }
  destruct (Qle_bool (pow2 (a - b)) (n # d)) eqn:E.
  - apply Qle_bool_iff in E. split; [exact E | exact Hup].
  - split; [exact Hdown|].
    replace (a - b - 1 + 1) with (a - b) by lia.
    apply Qnot_le_lt. intros H. apply Qle_bool_iff in H. congruence.
Qed.

Lemma ilog2_ge (q : Q) (k : Z) : (pow2 k <= q)%Q -> k <= ilog2 q.
Proof.
  intros H.
  assert (Hq : (0 < q)%Q) by (apply Qlt_le_trans with (pow2 k); [apply pow2_pos | exact H]).
  destruct (ilog2_spec q Hq) as [_ Hhi].
  assert (Hlt : (pow2 k < pow2 (ilog2 q + 1))%Q) by (eapply Qle_lt_trans; eauto).
  apply pow2_lt_inv in Hlt. lia.
Qed.

Lemma ilog2_lt (q : Q) (k : Z) : (0 < q)%Q -> (q < pow2 k)%Q -> ilog2 q < k.
Proof.
  intros Hq H. destruct (ilog2_spec q Hq) as [Hlo _].
  apply pow2_lt_inv. eapply Qle_lt_trans; eauto.
Qed.

(** ** Rounding to an integer *)

Lemma nearest_even_spec (q : Q) :
  (inject_Z (nearest_even q) - (1 # 2) <= q)%Q /\
  (q <= inject_Z (nearest_even q) + (1 # 2))%Q.
Proof.
  unfold nearest_even.
  pose proof (Qfloor_le q) as Hlo. pose proof (Qlt_floor q) as Hhi.
  set (f := Qfloor q) in *. rewrite inject_Z_plus in Hhi.
  change (inject_Z 1) with 1%Q in Hhi.
  destruct (Qcompare (q - inject_Z f) (1 # 2)) eqn:E.
  - apply Qeq_alt in E. destruct (Z.even f); rewrite ?inject_Z_plus;
      change (inject_Z 1) with 1%Q; split; Lqa.lra.
  - apply Qlt_alt in E. split; Lqa.lra.
  - apply Qgt_alt in E. rewrite inject_Z_plus. change (inject_Z 1) with 1%Q.
    split; Lqa.lra.
Qed.

Lemma nearest_even_nonneg (q : Q) : (0 <= q)%Q -> 0 <= nearest_even q.
Proof.
  intros Hq. destruct (nearest_even_spec q) as [_ H].
  assert (Hz : (inject_Z (-1) < inject_Z (nearest_even q))%Q).
  { change (inject_Z (-1)) with (-1)%Q. Lqa.lra. }
  rewrite <- Zlt_Qlt in Hz. lia.
Qed.

Lemma nearest_even_nonpos (q : Q) : (q <= 0)%Q -> nearest_even q <= 0.
Proof.
  intros Hq. destruct (nearest_even_spec q) as [H _].
  assert (Hz : (inject_Z (nearest_even q) < inject_Z 1)%Q).
  { change (inject_Z 1) with 1%Q. Lqa.lra. }
  rewrite <- Zlt_Qlt in Hz. lia.
Qed.

(** ** Rounding to a format *)

Lemma round_zero (f : Format) (q : Q) : (q == 0)%Q -> round f q = 0%Q.
Proof.
  intros H. unfold round. apply Qeq_bool_iff in H. rewrite H. reflexivity.
Qed.

Lemma round_value (f : Format) (q : Q) :
  ~ (q == 0)%Q ->
  (round f q == inject_Z (nearest_even (q / pow2 (ulp_exponent f q)))
               * pow2 (ulp_exponent f q))%Q.
Proof.
  intros H. unfold round.
  destruct (Qeq_bool q 0) eqn:E; [apply Qeq_bool_iff in E; contradiction|].
  apply Qred_correct.
Qed.

(** The rounding error is at most half a unit in the last place. *)
Lemma round_error (f : Format) (q : Q) :
  (round f q - pow2 (ulp_exponent f q - 1) <= q)%Q /\
  (q <= round f q + pow2 (ulp_exponent f q - 1))%Q.
Proof.
  pose proof (pow2_pos (ulp_exponent f q - 1)) as Hp.
  destruct (Qeq_dec q 0) as [Hz|Hz].
  - rewrite (round_zero f q Hz). split; Lqa.lra.
  - rewrite (round_value f q Hz).
    set (e := ulp_exponent f q) in *.
    pose proof (pow2_pos e) as He.
    destruct (nearest_even_spec (q / pow2 e)) as [Hlo Hhi].
    set (n := inject_Z (nearest_even (q / pow2 e))) in *.
    rewrite <- pow2_half.
    assert (Eq : (q / pow2 e * pow2 e == q)%Q) by (field; Lqa.lra).
    assert (H1 : ((n - (1 # 2)) * pow2 e <= q / pow2 e * pow2 e)%Q)
      by (apply Qmult_le_compat_r; [exact Hlo | Lqa.lra]).
    assert (H2 : (q / pow2 e * pow2 e <= (n + (1 # 2)) * pow2 e)%Q)
      by (apply Qmult_le_compat_r; [exact Hhi | Lqa.lra]).
    rewrite Eq in H1, H2. split; Lqa.lra.
Qed.

Lemma round_nonneg (f : Format) (q : Q) : (0 <= q)%Q -> (0 <= round f q)%Q.
Proof.
  intros Hq. destruct (Qeq_dec q 0) as [Hz|Hz].
  - rewrite (round_zero f q Hz). apply Qle_refl.
  - rewrite (round_value f q Hz).
    pose proof (pow2_pos (ulp_exponent f q)) as He.
    apply Qmult_le_0_compat; [|Lqa.lra].
    change 0%Q with (inject_Z 0). rewrite <- Zle_Qle.
    apply nearest_even_nonneg. apply Qle_shift_div_l; [exact He | Lqa.lra].
Qed.

Lemma round_nonpos (f : Format) (q : Q) : (q <= 0)%Q -> (round f q <= 0)%Q.
Proof.
  intros Hq. destruct (Qeq_dec q 0) as [Hz|Hz].
  - rewrite (round_zero f q Hz). apply Qle_refl.
  - rewrite (round_value f q Hz).
    pose proof (pow2_pos (ulp_exponent f q)) as He.
    set (e := ulp_exponent f q) in *.
    assert (Hn : nearest_even (q / pow2 e) <= 0).
    { apply nearest_even_nonpos. apply Qle_shift_div_r; [exact He | Lqa.lra]. }
    rewrite Zle_Qle in Hn. change (inject_Z 0) with 0%Q in Hn.
    setoid_replace 0%Q with (0 * pow2 e)%Q by ring.
    apply Qmult_le_compat_r; [exact Hn | Lqa.lra].
Qed.

(** In the range of the normal values the error is relative. *)
Lemma round_close (f : Format) (q : Q) :
  ~ (q == 0)%Q -> emin f <= ilog2 (Qabs q) - (precision f - 1) ->
  (q - Qabs q * pow2 (- precision f) <= round f q)%Q /\
  (round f q <= q + Qabs q * pow2 (- precision f))%Q.
Proof.
  intros Hz Hn.
  destruct (round_error f q) as [Hlo Hhi].
  assert (Ha : (0 < Qabs q)%Q).
  { pose proof (Qabs_nonneg q) as H0.
    destruct (Qeq_dec (Qabs q) 0) as [E|E]; [|Lqa.lra].
    exfalso. apply Hz. destruct q as [n d]. unfold Qabs, Qeq in *. cbn in *. lia. }
  assert (Ee : ulp_exponent f q = ilog2 (Qabs q) - (precision f - 1))
    by (unfold ulp_exponent; lia).
  rewrite Ee in Hlo, Hhi.
  destruct (ilog2_spec (Qabs q) Ha) as [Hl _].
  assert (Hu : (pow2 (ilog2 (Qabs q) - (precision f - 1) - 1)
                <= Qabs q * pow2 (- precision f))%Q).
  { replace (ilog2 (Qabs q) - (precision f - 1) - 1)
      with (ilog2 (Qabs q) + - precision f) by lia.
    rewrite pow2_add. apply Qmult_le_compat_r; [exact Hl|].
    apply Qlt_le_weak, pow2_pos. }
  split; Lqa.lra.
Qed.

Lemma round32_relative (q : Q) :
  (1 # 8 <= q)%Q ->
  (q * (16777215 # 16777216) <= round binary32 q)%Q /\
  (round binary32 q <= q * (16777217 # 16777216))%Q.
Proof.
  intros Hq.
  assert (Ea : (Qabs q == q)%Q) by (apply Qabs_pos; Lqa.lra).
  destruct (round_close binary32 q) as [Hlo Hhi].
  { intros E. Lqa.lra. }
  { assert (Hl : -3 <= ilog2 (Qabs q)) by (apply ilog2_ge; rewrite Ea; exact Hq).
    cbn [emin precision binary32]. lia. }
  assert (E : (pow2 (- precision binary32) == 1 # 16777216)%Q) by reflexivity.
  rewrite E, Ea in Hlo, Hhi. split; Lqa.lra.
Qed.

Lemma round32_relative_neg (q : Q) :
  (q <= - (1 # 8))%Q ->
  (q * (16777217 # 16777216) <= round binary32 q)%Q /\
  (round binary32 q <= q * (16777215 # 16777216))%Q.
Proof.
  intros Hq.
  assert (Ea : (Qabs q == - q)%Q) by (apply Qabs_neg; Lqa.lra).
  destruct (round_close binary32 q) as [Hlo Hhi].
  { intros E. Lqa.lra. }
  { assert (Hl : -3 <= ilog2 (Qabs q)) by (apply ilog2_ge; rewrite Ea; change (pow2 (-3)) with (1 # 8)%Q; Lqa.lra).
    cbn [emin precision binary32]. lia. }
  assert (E : (pow2 (- precision binary32) == 1 # 16777216)%Q) by reflexivity.
  rewrite E, Ea in Hlo, Hhi. split; Lqa.lra.
Qed.

Lemma round64_relative (q : Q) :
  (1 # 8 <= q)%Q ->
  (q * (9007199254740991 # 9007199254740992) <= round binary64 q)%Q /\
  (round binary64 q <= q * (9007199254740993 # 9007199254740992))%Q.
Proof.
  intros Hq.
  assert (Ea : (Qabs q == q)%Q) by (apply Qabs_pos; Lqa.lra).
  destruct (round_close binary64 q) as [Hlo Hhi].
  { intros E. Lqa.lra. }
  { assert (Hl : -3 <= ilog2 (Qabs q)) by (apply ilog2_ge; rewrite Ea; exact Hq).
    cbn [emin precision binary64]. lia. }
  assert (E : (pow2 (- precision binary64) == 1 # 9007199254740992)%Q) by reflexivity.
  rewrite E, Ea in Hlo, Hhi. split; Lqa.lra.
Qed.

Lemma round64_relative_neg (q : Q) :
  (q <= - (1 # 8))%Q ->
  (q * (9007199254740993 # 9007199254740992) <= round binary64 q)%Q /\
  (round binary64 q <= q * (9007199254740991 # 9007199254740992))%Q.
Proof.
  intros Hq.
  assert (Ea : (Qabs q == - q)%Q) by (apply Qabs_neg; Lqa.lra).
  destruct (round_close binary64 q) as [Hlo Hhi].
  { intros E. Lqa.lra. }
  { assert (Hl : -3 <= ilog2 (Qabs q)) by (apply ilog2_ge; rewrite Ea; change (pow2 (-3)) with (1 # 8)%Q; Lqa.lra).
    cbn [emin precision binary64]. lia. }
  assert (E : (pow2 (- precision binary64) == 1 # 9007199254740992)%Q) by reflexivity.
  rewrite E, Ea in Hlo, Hhi. split; Lqa.lra.
Qed.

(** ** The operations of [float] *)

Lemma rounded_Returned (f : Format) (q r : Q) :
  rounded f q = Returned r -> r = round f q.
Proof.
  unfold rounded. destruct (Qle_bool _ _); intros H; inversion H. reflexivity.
Qed.

Lemma rounded_not_fuel (f : Format) (q : Q) : rounded f q <> OutOfFuel.
Proof. unfold rounded. destruct (Qle_bool _ _); discriminate. Qed.

Lemma float_div_Returned (a b r : float) :
  float_div a b = Returned r -> ~ (b == 0)%Q /\ r = round binary32 (a / b).
Proof.
  unfold float_div. destruct (Qeq_bool b 0) eqn:E; [discriminate|].
  intros H. apply rounded_Returned in H. split; [|exact H].
  intros Hb. apply Qeq_bool_iff in Hb. congruence.
Qed.

Lemma float_div_not_fuel (a b : float) : float_div a b <> OutOfFuel.
Proof.
  unfold float_div. destruct (Qeq_bool b 0); [discriminate | apply rounded_not_fuel].
Qed.

Lemma int_of_Q_not_fuel (q : Q) : int_of_Q q <> OutOfFuel.
Proof. apply int_of_Z_not_fuel. Qed.

(** The truncation of a rational that is not negative. *)
Lemma int_of_Q_nonneg (q : Q) (x : Z) :
  (0 <= q)%Q -> int_of_Q q = Returned x ->
  0 <= x /\ (inject_Z x <= q)%Q /\ (q < inject_Z x + 1)%Q.
Proof.
  destruct q as [n d]. unfold int_of_Q, Qle, Qlt. cbn [Qnum Qden Qplus inject_Z].
  intros H0 H. apply int_of_Z_Returned in H. destruct H as [-> _].
  rewrite Z.mul_1_r in H0. rewrite Z.quot_div_nonneg by lia.
  pose proof (Z.div_pos n (Z.pos d) ltac:(lia) ltac:(lia)) as Hp.
  pose proof (Z.mul_div_le n (Z.pos d) ltac:(lia)) as Hle.
  pose proof (Z.mul_succ_div_gt n (Z.pos d) ltac:(lia)) as Hgt.
  split; [exact Hp|]. split; cbn; nia.
Qed.

Lemma u32_nonneg (z : Z) : 0 <= u32 z.
Proof. unfold u32. apply Z.mod_pos_bound. lia. Qed.

Lemma inject_Z_nonneg (z : Z) : 0 <= z -> (0 <= inject_Z z)%Q.
Proof. intros H. change 0%Q with (inject_Z 0). rewrite <- Zle_Qle. exact H. Qed.

(** ** The cell size *)

Lemma sqrt_2_value : sqrt_2 = (6369051672525773 # 4503599627370496)%Q.
Proof. vm_compute. reflexivity. Qed.

(** The sign of the cell size is the sign of the minimum distance. *)
Lemma pointGridCellSize_sign (m : Z) :
  (0 < m -> (0 < pointGridCellSize m)%Q) /\
  (m = 0 -> pointGridCellSize m = 0%Q) /\
  (m < 0 -> (pointGridCellSize m < 0)%Q).
Proof.
  unfold pointGridCellSize. rewrite sqrt_2_value.
  set (s := (6369051672525773 # 4503599627370496)%Q).
  assert (Hs : (1 < s)%Q /\ (s < 2)%Q) by (unfold s, Qlt; cbn; lia).
  split; [|split].
  - intros Hm.
    assert (HM : (1 <= inject_Z m)%Q) by (change 1%Q with (inject_Z 1); rewrite <- Zle_Qle; lia).
    assert (Hq : (1 # 2 <= inject_Z m / s)%Q).
    { apply Qle_shift_div_l; Lqa.lra. }
    destruct (round64_relative (inject_Z m / s)) as [H1 _]; [Lqa.lra|].
    destruct (round32_relative (round binary64 (inject_Z m / s))) as [H2 _]; Lqa.lra.
  - intros ->. reflexivity.
  - intros Hm.
    assert (HM : (inject_Z m <= -1)%Q)
      by (change (-1)%Q with (inject_Z (-1)); rewrite <- Zle_Qle; lia).
    assert (Hq : (inject_Z m / s <= - (1 # 2))%Q).
    { apply Qle_shift_div_r; Lqa.lra. }
    destruct (round64_relative_neg (inject_Z m / s)) as [_ H1]; [Lqa.lra|].
    destruct (round32_relative_neg (round binary64 (inject_Z m / s))) as [_ H2]; Lqa.lra.
Qed.

(** ** The acceleration grid *)

Lemma length_replace_nth {A : Type} (n : nat) (x : A) (l : list A) :
  List.length (replace_nth n x l) = List.length l.
Proof.
  revert n. induction l as [|h t IH]; intros [|n]; simpl; auto.
Qed.

Lemma nth_error_replace_nth_eq {A : Type} (n : nat) (x : A) (l : list A) :
  (n < List.length l)%nat -> nth_error (replace_nth n x l) n = Some x.
Proof.
  revert n. induction l as [|h t IH]; intros [|n] H; simpl in *; try lia; auto.
  apply IH. lia.
Qed.

Lemma nth_error_replace_nth_ne {A : Type} (n k : nat) (x : A) (l : list A) :
  n <> k -> nth_error (replace_nth n x l) k = nth_error l k.
Proof.
  revert n k. induction l as [|h t IH]; intros [|n] [|k] H; simpl; auto.
  congruence.
Qed.

Lemma gridStore_Returned (g g' : PointGrid2D) (t p : vector2di) :
  gridStore g t p = Returned g' ->
  0 <= X t /\ 0 <= Y t /\
  exists row, nth_error (grid g) (Z.to_nat (X t)) = Some row /\
              (Z.to_nat (Y t) < List.length row)%nat /\
              g' = mkGrid (replace_nth (Z.to_nat (X t))
                             (replace_nth (Z.to_nat (Y t)) p row) (grid g))
                          (gridDimensions g).
Proof.
  unfold gridStore.
  destruct ((X t <? 0) || (Y t <? 0)) eqn:E; [discriminate|].
  apply orb_false_elim in E. destruct E as [E1 E2].
  apply Z.ltb_ge in E1. apply Z.ltb_ge in E2.
  destruct (nth_error (grid g) (Z.to_nat (X t))) as [row|] eqn:Er; [|discriminate].
  destruct (Z.to_nat (Y t) <? List.length row)%nat eqn:El; [|discriminate].
  apply Nat.ltb_lt in El.
  intros H. inversion H; subst. repeat split; auto.
  exists row. auto.
Qed.

Lemma gridStore_dims (g g' : PointGrid2D) (t p : vector2di) :
  gridStore g t p = Returned g' -> gridDimensions g' = gridDimensions g.
Proof.
  intros H. apply gridStore_Returned in H.
  destruct H as (_ & _ & row & _ & _ & ->). reflexivity.
Qed.

Lemma gridAt_store_same (g g' : PointGrid2D) (t p : vector2di) :
  gridStore g t p = Returned g' -> gridAt g' t = Returned p.
Proof.
  intros H. apply gridStore_Returned in H.
  destruct H as (Hx & Hy & row & Hr & Hl & ->).
  unfold gridAt. cbn [grid].
  replace ((X t <? 0) || (Y t <? 0)) with false
    by (symmetry; apply orb_false_intro; apply Z.ltb_ge; assumption).
  rewrite nth_error_replace_nth_eq.
  - rewrite nth_error_replace_nth_eq by exact Hl. reflexivity.
  - apply nth_error_Some. congruence.
Qed.

Lemma gridAt_store_other (g g' : PointGrid2D) (t t' p : vector2di) :
  gridStore g t p = Returned g' -> t' <> t -> gridAt g' t' = gridAt g t'.
Proof.
  intros H Hne. apply gridStore_Returned in H.
  destruct H as (Hx & Hy & row & Hr & Hl & ->).
  unfold gridAt. cbn [grid].
  destruct ((X t' <? 0) || (Y t' <? 0)) eqn:E; [reflexivity|].
  apply orb_false_elim in E. destruct E as [E1 E2].
  apply Z.ltb_ge in E1. apply Z.ltb_ge in E2.
  destruct (Nat.eq_dec (Z.to_nat (X t)) (Z.to_nat (X t'))) as [Ex|Ex].
  - rewrite <- Ex. rewrite nth_error_replace_nth_eq
      by (apply nth_error_Some; congruence).
    rewrite Hr.
    rewrite nth_error_replace_nth_ne; [reflexivity|].
    intros Ey. apply Hne.
    destruct t as [tx ty], t' as [tx' ty']. cbn [X Y] in *.
    f_equal; lia.
  - rewrite nth_error_replace_nth_ne by exact Ex. reflexivity.
Qed.

Lemma gridAt_store_cases (g g' : PointGrid2D) (t t' p q : vector2di) :
  gridStore g t p = Returned g' -> gridAt g' t' = Returned q ->
  q = p \/ gridAt g t' = Returned q.
Proof.
  intros Hs Ha.
  destruct (vector2di_eqb t' t) eqn:E.
  - apply vector2di_eqb_eq in E. subst t'.
    rewrite (gridAt_store_same _ _ _ _ Hs) in Ha. inversion Ha. auto.
  - right. rewrite <- Ha. symmetry. apply (gridAt_store_other _ _ _ _ _ Hs).
    intros ->. assert (vector2di_eqb t t = true) by (apply vector2di_eqb_eq; reflexivity).
    congruence.
Qed.

(** ** The neighbourhood scan *)

Lemma tilesLoop_spec (ns : list Z) (ct : vector2di) (g : PointGrid2D)
  (acc l : ListOfPoints) :
  tilesLoop ns ct g acc = Returned l ->
  (forall p, In p acc -> In p l) /\
  (forall n, In n ns -> n <> 4 -> n <> 20 ->
     InsideRectangle (scanTile ct n) (mkVector 0 0) (gridDimensions g) = true ->
     exists q, gridAt g (scanTile ct n) = Returned q /\ In q l).
Proof.
  revert acc. induction ns as [|n ns IH]; intros acc H; cbn [tilesLoop] in H.
  - inversion H; subst. split; [auto | intros n []].
  - change (Z.quot 5 2) with 2 in H. fold (scanTile ct n) in H.
    destruct ((n =? 4) || (n =? 20)) eqn:E.
    + apply IH in H. destruct H as [H1 H2]. split; [exact H1|].
      intros k [->|Hk] N4 N20 Hin; [|eauto].
      apply orb_prop in E. destruct E as [E|E]; apply Z.eqb_eq in E; contradiction.
    + destruct (InsideRectangle (scanTile ct n) (mkVector 0 0) (gridDimensions g)) eqn:Ei;
        cbn [negb] in H.
      * inv_bind H. apply IH in H. destruct H as [H1 H2]. split.
        -- intros p Hp. apply H1. apply in_or_app. auto.
        -- intros k [->|Hk] N4 N20 Hin; [|eauto].
           exists v. split; [exact E0|]. apply H1. apply in_or_app. right. left. reflexivity.
      * apply IH in H. destruct H as [H1 H2]. split; [exact H1|].
        intros k [->|Hk] N4 N20 Hin; [congruence | eauto].
Qed.

Lemma scanned_tileNumber (dx dy : Z) :
  scanned dx dy ->
  exists n, In n tileNumbers /\ n <> 4 /\ n <> 20 /\
            Z.rem n 5 = dx + 2 /\ Z.quot n 5 = dy + 2.
Proof.
  intros (Hx & Hy & Hc).
  exists ((dy + 2) * 5 + (dx + 2)).
  assert (Hn : 1 <= (dy + 2) * 5 + (dx + 2) <= 23) by lia.
  split; [|split; [lia | split; [lia|]]].
  - unfold tileNumbers. apply in_map_iff.
    exists (Z.to_nat ((dy + 2) * 5 + (dx + 2))). split; [lia|].
    apply in_seq. lia.
  - assert (Hq : Z.quot ((dy + 2) * 5 + (dx + 2)) 5 = dy + 2).
    { rewrite Z.quot_div_nonneg by lia.
      rewrite Z.div_add_l by lia. rewrite Z.div_small by lia. lia. }
    split; [|exact Hq].
    pose proof (Z.quot_rem' ((dy + 2) * 5 + (dx + 2)) 5) as Hqr.
    rewrite Hq in Hqr. lia.
Qed.

(** A negative answer of the loop over the neighbours: every point of the
    list is the sentinel or at least the minimum distance away, in the
    distance that [getDistanceFrom] returns. *)
Lemma neighborLoop_false (l : ListOfPoints) (c : vector2di) (m : Z) :
  neighborLoop l c m = Returned false ->
  forall q, In q l ->
    q = sentinel \/ exists d, getDistanceFrom q c = Returned d /\ m <= d.
Proof.
  induction l as [|p l IH]; intros H q Hq; [destruct Hq|].
  cbn [neighborLoop] in H.
  destruct (vector2di_eqb p sentinel) eqn:Es; cbn [negb] in H.
  - destruct Hq as [<-|Hq]; [|auto]. left. apply vector2di_eqb_eq. exact Es.
  - inv_bind H. rename v into d.
    destruct (d <? m) eqn:Ed; [discriminate|].
    destruct Hq as [<-|Hq]; [|auto]. right. exists d.
    split; [exact E | apply Z.ltb_ge; exact Ed].
Qed.

Lemma GetPointsAroundTile_unfold (ct : vector2di) (g : PointGrid2D) :
  GetPointsAroundTile ct g = tilesLoop tileNumbers ct g [].
Proof. reflexivity. Qed.

Lemma GetPointsAroundTile_scan (ct : vector2di) (g : PointGrid2D) (l : ListOfPoints) :
  GetPointsAroundTile ct g = Returned l ->
  forall dx dy, scanned dx dy ->
    InsideRectangle (mkVector (X ct + dx) (Y ct + dy)) (mkVector 0 0)
                    (gridDimensions g) = true ->
    exists q, gridAt g (mkVector (X ct + dx) (Y ct + dy)) = Returned q /\ In q l.
Proof.
  intros H dx dy Hs Hin.
  destruct (scanned_tileNumber dx dy Hs) as (n & Hn1 & N4 & N20 & Hr & Hq).
  rewrite GetPointsAroundTile_unfold in H.
  revert H Hn1. generalize tileNumbers as ns. intros ns H Hn1.
  destruct (tilesLoop_spec ns ct g [] l H) as [_ Hscan].
  assert (Et : scanTile ct n = mkVector (X ct + dx) (Y ct + dy)).
  { unfold scanTile. rewrite Hr, Hq. f_equal; lia. }
  specialize (Hscan n Hn1 N4 N20). rewrite Et in Hscan.
  exact (Hscan Hin).
Qed.

(** What a negative answer of [InNeighborhood] establishes: every scanned
    tile inside the grid dimensions was read, and holds the sentinel or a
    point at least the minimum distance away, as [getDistanceFrom]
    measures it. *)
Lemma InNeighborhood_false (c : vector2di) (m : Z) (g : PointGrid2D) (cell : float) :
  InNeighborhood c m g cell = Returned false ->
  exists ct, PointToGridTile c cell = Returned ct /\
    forall dx dy, scanned dx dy ->
      InsideRectangle (mkVector (X ct + dx) (Y ct + dy)) (mkVector 0 0)
                      (gridDimensions g) = true ->
      exists q, gridAt g (mkVector (X ct + dx) (Y ct + dy)) = Returned q /\
                (q = sentinel \/
                 exists d, getDistanceFrom q c = Returned d /\ m <= d).
Proof.
  unfold InNeighborhood. intros H. inv_bind H. inv_bind H.
  exists v. split; [exact E|].
  intros dx dy Hs Hin.
  destruct (GetPointsAroundTile_scan _ _ _ E0 dx dy Hs Hin) as (q & Hq1 & Hq2).
  exists q. split; [exact Hq1|].
  apply (neighborLoop_false _ _ _ H q Hq2).
Qed.

Lemma InsideRectangle_origin (p : vector2di) (d : dimension2du) :
  MIN_INT <= X p <= MAX_INT -> MIN_INT <= Y p <= MAX_INT ->
  0 <= Width d -> 0 <= Height d ->
  InsideRectangle p (mkVector 0 0) d = true ->
  0 <= X p < Width d /\ 0 <= Y p < Height d.
Proof.
  unfold InsideRectangle, MIN_INT, MAX_INT. cbn [X Y]. intros Hx Hy Hw Hh H.
  rewrite !andb_true_iff in H. destruct H as [[[H1 H2] H3] H4].
  apply Z.leb_le in H1, H3. apply Z.ltb_lt in H2, H4.
  rewrite u32_small in H2, H4 by lia.
  rewrite !Z.add_0_l in *.
  pose proof (u32_le _ Hw). pose proof (u32_le _ Hh). lia.
Qed.

Lemma InsideRectangle_origin_intro (p : vector2di) (d : dimension2du) :
  0 <= X p < Width d -> 0 <= Y p < Height d ->
  Width d < 4294967296 -> Height d < 4294967296 ->
  InsideRectangle p (mkVector 0 0) d = true.
Proof.
  unfold InsideRectangle. cbn [X Y]. intros Hx Hy Hw Hh.
  rewrite !Z.add_0_l. rewrite !u32_small by lia.
  rewrite !andb_true_iff. repeat split;
    try (apply Z.leb_le; lia); apply Z.ltb_lt; lia.
Qed.

(** ** Primitive steps never run out of fuel *)

Lemma int_div_cell_not_fuel (x : Z) (c : float) : int_div_cell x c <> OutOfFuel.
Proof.
  unfold int_div_cell, float_of_int.
  apply bind_not_fuel; [apply rounded_not_fuel|]. intros fx _.
  apply bind_not_fuel; [apply float_div_not_fuel|]. intros q _.
  apply int_of_Q_not_fuel.
Qed.

Lemma PointToGridTile_not_fuel (p : vector2di) (c : float) :
  PointToGridTile p c <> OutOfFuel.
Proof.
  unfold PointToGridTile.
  apply bind_not_fuel; [apply int_div_cell_not_fuel|]. intros tx _.
  apply bind_not_fuel; [apply int_div_cell_not_fuel|]. discriminate.
Qed.

Lemma gridAt_not_fuel (g : PointGrid2D) (t : vector2di) : gridAt g t <> OutOfFuel.
Proof.
  unfold gridAt. destruct (_ || _); [discriminate|].
  destruct (nth_error _ _) as [row|]; [|discriminate].
  destruct (nth_error _ _); discriminate.
Qed.

Lemma gridStore_not_fuel (g : PointGrid2D) (t p : vector2di) :
  gridStore g t p <> OutOfFuel.
Proof.
  unfold gridStore. destruct (_ || _); [discriminate|].
  destruct (nth_error _ _) as [row|]; [|discriminate].
  destruct (_ <? _)%nat; discriminate.
Qed.

Lemma tilesLoop_not_fuel (ns : list Z) (ct : vector2di) (g : PointGrid2D)
  (acc : ListOfPoints) : tilesLoop ns ct g acc <> OutOfFuel.
Proof.
  revert acc. induction ns as [|n ns IH]; intros acc; cbn [tilesLoop]; [discriminate|].
  destruct (_ || _); [apply IH|].
  destruct (negb _); [apply IH|].
  apply bind_not_fuel; [apply gridAt_not_fuel|]. intros; apply IH.
Qed.

Lemma getDistanceFrom_not_fuel (a b : vector2di) : getDistanceFrom a b <> OutOfFuel.
Proof.
  unfold getDistanceFrom, squareroot, float_of_int, sqrtf.
  repeat (apply bind_not_fuel; [apply int_of_Z_not_fuel|]; intros ? _).
  apply bind_not_fuel; [apply rounded_not_fuel|]. intros x _.
  apply bind_not_fuel; [destruct (Qle_bool 0 x); discriminate|]. intros r _.
  apply int_of_Q_not_fuel.
Qed.

Lemma neighborLoop_not_fuel (l : ListOfPoints) (c : vector2di) (m : Z) :
  neighborLoop l c m <> OutOfFuel.
Proof.
  induction l as [|p l IH]; cbn [neighborLoop]; [discriminate|].
  destruct (negb (vector2di_eqb p sentinel)); [|exact IH].
  apply bind_not_fuel; [apply getDistanceFrom_not_fuel|]. intros d _.
  destruct (d <? m); [discriminate | exact IH].
Qed.

Lemma InNeighborhood_not_fuel (c : vector2di) (m : Z) (g : PointGrid2D)
  (cell : float) : InNeighborhood c m g cell <> OutOfFuel.
Proof.
  unfold InNeighborhood.
  apply bind_not_fuel; [apply PointToGridTile_not_fuel|]. intros ct _.
  apply bind_not_fuel.
  - rewrite GetPointsAroundTile_unfold. apply tilesLoop_not_fuel.
  - intros l _. apply neighborLoop_not_fuel.
Qed.

Lemma GenerateRandomPointAroundPoint_not_fuel (p : vector2di) (m : Z)
  (d : CandidateDraw) : GenerateRandomPointAroundPoint p m d <> OutOfFuel.
Proof.
  unfold GenerateRandomPointAroundPoint, Range, float_add, float_mul, float_of_int.
  repeat (apply bind_not_fuel;
          [first [apply rounded_not_fuel | apply int_of_Q_not_fuel]|]; intros ? _).
  discriminate.
Qed.

Lemma GenerateRandomPointAroundPoint_range (p q : vector2di) (m : Z)
  (d : CandidateDraw) :
  GenerateRandomPointAroundPoint p m d = Returned q ->
  MIN_INT <= X q <= MAX_INT /\ MIN_INT <= Y q <= MAX_INT.
Proof.
  unfold GenerateRandomPointAroundPoint. intros H.
  repeat inv_bind H. inversion H; subst. cbn [X Y].
  match goal with
  | Ex : int_of_Q _ = Returned ?x, Ey : int_of_Q _ = Returned ?y
    |- _ <= ?x <= _ /\ _ <= ?y <= _ =>
      apply int_of_Z_Returned in Ex; apply int_of_Z_Returned in Ey; tauto
  end.
Qed.

Lemma InMap_not_sentinel (d : dimension2du) (p : vector2di) :
  InMap d p -> p <> sentinel.
Proof. intros [Hx _] ->. cbn in Hx. lia. Qed.

Lemma popCondition_true (max : Z) : popCondition max = true.
Proof.
  unfold popCondition, MAX_INT. apply Z.ltb_lt.
  destruct (max =? 0); cbn; lia.
Qed.

Lemma tryPoint_not_fuel (m : Z) (mapDimensions : dimension2du) (max : Z)
  (rs : RandomSource) (cur : vector2di) (st : LoopState) :
  tryPoint m mapDimensions max rs cur st <> OutOfFuel.
Proof.
  unfold tryPoint.
  apply bind_not_fuel; [apply GenerateRandomPointAroundPoint_not_fuel|]. intros c _.
  destruct (InsideRectangle c _ mapDimensions); [|discriminate].
  apply bind_not_fuel; [apply InNeighborhood_not_fuel|]. intros near _.
  destruct (negb near); [|discriminate].
  apply bind_not_fuel; [apply PointToGridTile_not_fuel|]. intros t _.
  apply bind_not_fuel; [apply gridStore_not_fuel|]. intros g _.
  apply bind_not_fuel; [apply int_of_Z_not_fuel|]. discriminate.
Qed.

Lemma forLoop_not_fuel (m : Z) (mapDimensions : dimension2du) (max : Z)
  (rs : RandomSource) (n : nat) (cur : vector2di) (st : LoopState) :
  forLoop m mapDimensions max rs n cur st <> OutOfFuel.
Proof.
  revert st. induction n as [|n IH]; intros st; cbn [forLoop]; [discriminate|].
  apply bind_not_fuel; [apply tryPoint_not_fuel|]. intros [st1 b] _. cbn [fst snd].
  destruct b; [discriminate | apply IH].
Qed.

Lemma whileBody_not_fuel (m : Z) (mapDimensions : dimension2du) (max : Z)
  (rs : RandomSource) (st : LoopState) :
  whileBody m mapDimensions max rs st <> OutOfFuel.
Proof.
  unfold whileBody. destruct (processQueue st); [discriminate|].
  apply bind_not_fuel; [apply forLoop_not_fuel|]. intros st1 _.
  destruct (popCondition max); discriminate.
Qed.

(** ** Before the loop *)

Lemma nth_error_repeat_Some {A : Type} (a b : A) (n i : nat) :
  nth_error (repeat a n) i = Some b -> b = a /\ (i < n)%nat.
Proof.
  intros H. split.
  - apply nth_error_In in H. apply repeat_spec in H. exact H.
  - rewrite <- (repeat_length a n). apply nth_error_Some. congruence.
Qed.

(** A store into the freshly allocated grid succeeds only on a tile within
    the rows and the row length allocated. *)
Lemma gridStore_initGrid (gw gh : Z) (t p : vector2di) (g : PointGrid2D) :
  gridStore (initGrid gw gh) t p = Returned g ->
  0 <= X t < gh /\ 0 <= Y t < gw.
Proof.
  intros H. apply gridStore_Returned in H.
  destruct H as (Hx & Hy & row & Hr & Hl & _).
  unfold initGrid in Hr. cbn [grid] in Hr.
  apply nth_error_repeat_Some in Hr. destruct Hr as [-> Hr].
  rewrite repeat_length in Hl. lia.
Qed.

Lemma existingLoop_spec (m : Z) (points : list vector2di) (st st' : LoopState) :
  existingLoop m points st = Returned st' ->
  outputList st' = outputList st /\
  gridDimensions (pointGrid st') = gridDimensions (pointGrid st) /\
  processQueue st' = processQueue st ++ points.
Proof.
  revert st. induction points as [|p points IH]; intros st H; cbn [existingLoop] in H.
  - inversion H; subst. rewrite app_nil_r. auto.
  - inv_bind H. inv_bind H. apply IH in H.
    cbn [outputList pointGrid processQueue] in H.
    destruct H as (Ho & Hd & Hq). rewrite Ho, Hd, Hq, <- app_assoc.
    rewrite (gridStore_dims _ _ _ _ E0). auto.
Qed.

Lemma existingLoop_not_fuel (m : Z) (points : list vector2di) (st : LoopState) :
  existingLoop m points st <> OutOfFuel.
Proof.
  revert st. induction points as [|p points IH]; intros st; cbn [existingLoop];
    [discriminate|].
  apply bind_not_fuel; [apply PointToGridTile_not_fuel|]. intros t _.
  apply bind_not_fuel; [apply gridStore_not_fuel|]. intros g _. apply IH.
Qed.

Lemma firstPointRange_not_fuel (size : Z) (u : Q) : firstPointRange size u <> OutOfFuel.
Proof.
  unfold firstPointRange, float_of_u32, float_mul, Range.
  repeat (apply bind_not_fuel; [apply rounded_not_fuel|]; intros ? _).
  apply int_of_Q_not_fuel.
Qed.

Lemma firstPointState_not_fuel (m : Z) (mapDimensions : dimension2du)
  (rs : RandomSource) (g : PointGrid2D) :
  firstPointState m mapDimensions rs g <> OutOfFuel.
Proof.
  unfold firstPointState.
  apply bind_not_fuel; [apply firstPointRange_not_fuel|]. intros x _.
  apply bind_not_fuel; [apply firstPointRange_not_fuel|]. intros y _.
  apply bind_not_fuel; [apply PointToGridTile_not_fuel|]. intros t _.
  apply bind_not_fuel; [apply gridStore_not_fuel|]. discriminate.
Qed.

Lemma int_ceil_div_cell_not_fuel (w : Z) (c : float) :
  int_ceil_div_cell w c <> OutOfFuel.
Proof.
  unfold int_ceil_div_cell, float_of_u32.
  apply bind_not_fuel; [apply rounded_not_fuel|]. intros fw _.
  apply bind_not_fuel; [apply float_div_not_fuel|]. intros q _.
  apply int_of_Z_not_fuel.
Qed.

Lemma initialState_not_fuel (m : Z) (mapDimensions : dimension2du)
  (rs : RandomSource) (existingPoints : list vector2di) :
  initialState m mapDimensions rs existingPoints <> OutOfFuel.
Proof.
  unfold initialState.
  apply bind_not_fuel; [apply int_ceil_div_cell_not_fuel|]. intros gw _.
  apply bind_not_fuel; [apply int_ceil_div_cell_not_fuel|]. intros gh _.
  destruct existingPoints.
  - apply firstPointState_not_fuel.
  - apply existingLoop_not_fuel.
Qed.

(** A map dimension of zero gives a grid dimension of zero. *)
Lemma int_ceil_div_cell_zero (c : float) (g : Z) :
  int_ceil_div_cell 0 c = Returned g -> g = 0.
Proof.
  unfold int_ceil_div_cell, float_of_u32. intros H.
  change (rounded binary32 (inject_Z (u32 0))) with (Returned 0%Q) in H.
  cbn [bind] in H. inv_bind H. apply float_div_Returned in E. destruct E as [_ ->].
  rewrite round_zero in H by (unfold Qdiv; ring).
  cbn in H. inversion H. reflexivity.
Qed.

(** With a negative minimum distance the grid dimensions are not
    positive. *)
Lemma int_ceil_div_cell_nonpos (m w g : Z) :
  m < 0 -> int_ceil_div_cell w (pointGridCellSize m) = Returned g -> g <= 0.
Proof.
  intros Hm H. unfold int_ceil_div_cell, float_of_u32 in H.
  inv_bind H. inv_bind H. rename v into fw, v0 into q.
  apply rounded_Returned in E. apply float_div_Returned in E0. destruct E0 as [_ ->].
  apply int_of_Z_Returned in H. destruct H as [-> _].
  destruct (pointGridCellSize_sign m) as (_ & _ & Hc). specialize (Hc Hm).
  assert (Hfw : (0 <= fw)%Q).
  { subst fw. apply round_nonneg. apply inject_Z_nonneg, u32_nonneg. }
  assert (Hq : (round binary32 (fw / pointGridCellSize m) <= 0)%Q).
  { apply round_nonpos.
    setoid_replace (fw / pointGridCellSize m)%Q
      with (- (fw / - pointGridCellSize m))%Q by (field; Lqa.lra).
    assert (H0 : (0 <= fw / - pointGridCellSize m)%Q)
      by (apply Qle_shift_div_l; Lqa.lra).
    Lqa.lra. }
  apply Qceiling_resp_le in Hq. change (Qceiling 0) with 0 in Hq. exact Hq.
Qed.

(** The first point: the truncation of a value between 0.4 and 0.6 of the
    dimension, up to the rounding of the floating-point product; it is
    inside the dimension. *)
Lemma firstPointRange_bounds (size : Z) (u : Q) (x : Z) :
  0 < size < 4294967296 -> unit_fraction u ->
  firstPointRange size u = Returned x ->
  0 <= x < size /\
  1999999 * size < 5000000 * (x + 1) /\ 5000000 * x <= 3000001 * size.
Proof.
  intros Hs [Hu0 Hu1] H. unfold firstPointRange, float_of_u32, float_mul, Range in H.
  rewrite u32_small in H by lia.
  inv_bind H. inv_bind H. inv_bind H. inv_bind H.
  rename v into fsize, v0 into low, v1 into high, v2 into r.
  apply rounded_Returned in E, E0, E1, E2.
  assert (E4 : float_0_4 = (13421773 # 33554432)%Q) by (vm_compute; reflexivity).
  assert (E6 : float_0_6 = (5033165 # 8388608)%Q) by (vm_compute; reflexivity).
  rewrite E4 in E0. rewrite E6 in E1. clear E4 E6.
  assert (HS : (1 <= inject_Z size)%Q)
    by (change 1%Q with (inject_Z 1); rewrite <- Zle_Qle; lia).
  set (S := inject_Z size) in *.
  destruct (round32_relative S) as [F1 F2]; [Lqa.lra|]. rewrite <- E in F1, F2.
  destruct (round32_relative (fsize * (13421773 # 33554432))) as [L1 L2]; [Lqa.lra|].
  rewrite <- E0 in L1, L2.
  destruct (round32_relative (fsize * (5033165 # 8388608))) as [H1 H2]; [Lqa.lra|].
  rewrite <- E1 in H1, H2.
  assert (Hlh : (low <= high)%Q) by Lqa.lra.
  assert (P1 : (0 <= u * (high - low))%Q) by (apply Qmult_le_0_compat; Lqa.lra).
  assert (P2 : (0 <= (1 - u) * (high - low))%Q) by (apply Qmult_le_0_compat; Lqa.lra).
  set (v := (low + u * (high - low))%Q) in *.
  assert (V1 : (low <= v)%Q) by (unfold v; Lqa.lra).
  assert (V2 : (v <= high)%Q) by (unfold v; Lqa.lra).
  destruct (round32_relative v) as [R1 R2]; [Lqa.lra|].
  rewrite <- E2 in R1, R2.
  assert (Hr0 : (0 <= r)%Q) by Lqa.lra.
  destruct (int_of_Q_nonneg r x Hr0 H) as (Hx0 & Hx1 & Hx2).
  assert (Hup : (inject_Z x <= S * (3000001 # 5000000))%Q) by Lqa.lra.
  assert (Hlo : (S * (1999999 # 5000000) < inject_Z x + 1)%Q) by Lqa.lra.
  unfold S in Hup, Hlo. unfold Qle, Qlt in Hup, Hlo.
  cbn [Qnum Qden Qmult Qplus inject_Z] in Hup, Hlo.
  lia.
Qed.

(** ** Exclusion of sections *)

Lemma ExcludeSection_filter (points : ListOfPoints) (section : MapSection) :
  fst (ExcludeSection points section) = filter (kept section) points.
Proof.
  induction points as [|p rest IH]; cbn [ExcludeSection filter]; [reflexivity|].
  unfold kept at 1.
  destruct (InsideSection p section) as [inside printed].
  destruct (ExcludeSection rest section) as [keptRest printedRest].
  cbn [fst] in *. destruct inside; cbn [negb fst]; rewrite IH; reflexivity.
Qed.

Lemma excludeLoop_points (sections : list MapSection) (points : ListOfPoints)
  (console : list string) :
  fst (excludeLoop sections points console) = excludeAll sections points.
Proof.
  revert points console.
  induction sections as [|section rest IH]; intros points console;
    cbn [excludeLoop excludeAll fold_left]; [reflexivity|].
  pose proof (ExcludeSection_filter points section) as Hf.
  destruct (ExcludeSection points section) as [keptPoints printed].
  cbn [fst] in Hf. rewrite IH, Hf. reflexivity.
Qed.

Lemma excludeAll_In (sections : list MapSection) (points : ListOfPoints)
  (p : vector2di) :
  In p (excludeAll sections points) <->
  In p points /\ forall section, In section sections -> kept section p = true.
Proof.
  revert points. induction sections as [|s rest IH]; intros points;
    cbn [excludeAll fold_left].
  - split; [intros H; split; [exact H | intros ? []] | tauto].
  - fold (excludeAll rest (filter (kept s) points)). rewrite IH, filter_In.
    split.
    + intros [[Hp Hs] Hr]. split; [exact Hp|]. intros x [<-|Hx]; auto.
    + intros [Hp Hall]. split; [split; [exact Hp|]|]; intros; apply Hall; simpl; auto.
Qed.

Lemma excludeAll_cons (section : MapSection) (rest : list MapSection)
  (points : ListOfPoints) :
  excludeAll (section :: rest) points = excludeAll rest (filter (kept section) points).
Proof. reflexivity. Qed.

Lemma excludeAll_app (l1 l2 : list MapSection) (points : ListOfPoints) :
  excludeAll (l1 ++ l2) points = excludeAll l2 (excludeAll l1 points).
Proof. unfold excludeAll. apply fold_left_app. Qed.

(** The result of [GeneratePoints] is the output list of the loop with the
    points of the excluded sections removed. *)
Lemma GeneratePoints_Returned (m : Z) (mapDimensions : dimension2du) (max : Z)
  (rs : RandomSource) (sections : list MapSection) (seeds : list vector2di)
  (fuel : nat) (out : ListOfPoints) :
  GeneratePoints m mapDimensions max rs sections seeds fuel = Returned out <->
  exists st, generationLoop m mapDimensions max rs seeds fuel = Returned st /\
             out = excludeAll sections (outputList st).
Proof.
  unfold GeneratePoints, GeneratePointsIO. split.
  - intros H. inv_bind H. inv_bind E. inversion E; subst. inversion H; subst.
    exists v0. split; [exact E0|]. apply excludeLoop_points.
  - intros (st & Hst & ->). rewrite Hst. cbn [bind].
    rewrite excludeLoop_points. reflexivity.
Qed.

Lemma GeneratePoints_fuel (m : Z) (mapDimensions : dimension2du) (max : Z)
  (rs : RandomSource) (sections : list MapSection) (seeds : list vector2di)
  (fuel : nat) :
  GeneratePoints m mapDimensions max rs sections seeds fuel = OutOfFuel <->
  generationLoop m mapDimensions max rs seeds fuel = OutOfFuel.
Proof.
  unfold GeneratePoints, GeneratePointsIO.
  destruct (generationLoop m mapDimensions max rs seeds fuel); cbn [bind];
    split; intros H; try discriminate; auto.
Qed.

(** ** Bounds of the generated points *)

Lemma tryPoint_bounds (m : Z) (mapDimensions : dimension2du) (max : Z)
  (rs : RandomSource) (cur : vector2di) (st st' : LoopState) (b : bool) :
  wf_dimension mapDimensions ->
  Forall (InMap mapDimensions) (outputList st) ->
  tryPoint m mapDimensions max rs cur st = Returned (st', b) ->
  Forall (InMap mapDimensions) (outputList st').
Proof.
  intros [Hw Hh] Hi H. unfold tryPoint in H. inv_bind H. rename v into c.
  cbn [pointGrid outputList processQueue numberOfPoints draws processed] in H.
  destruct (InsideRectangle c (mkVector 0 0) mapDimensions) eqn:Ein;
    [|inversion H; subst; exact Hi].
  inv_bind H. destruct v; cbn [negb] in H; [inversion H; subst; exact Hi|].
  inv_bind H. inv_bind H. inv_bind H. inversion H; subst; clear H. cbn [outputList].
  destruct (GenerateRandomPointAroundPoint_range _ _ _ _ E) as [Rx Ry].
  apply Forall_app. split; [exact Hi|]. constructor; [|constructor].
  apply InsideRectangle_origin; auto; lia.
Qed.

Lemma forLoop_bounds (m : Z) (mapDimensions : dimension2du) (max : Z)
  (rs : RandomSource) (n : nat) (cur : vector2di) (st st' : LoopState) :
  wf_dimension mapDimensions ->
  Forall (InMap mapDimensions) (outputList st) ->
  forLoop m mapDimensions max rs n cur st = Returned st' ->
  Forall (InMap mapDimensions) (outputList st').
Proof.
  intros Hwf. revert st. induction n as [|n IH]; intros st Hi H; cbn [forLoop] in H.
  - inversion H; subst. exact Hi.
  - inv_bind H. destruct v as [st1 b]. cbn [fst snd] in H.
    pose proof (tryPoint_bounds _ _ _ _ _ _ _ _ Hwf Hi E) as Hi1.
    destruct b; [inversion H; subst; exact Hi1 | eauto].
Qed.

Lemma whileLoop_bounds (m : Z) (mapDimensions : dimension2du) (max : Z)
  (rs : RandomSource) (fuel : nat) (st st' : LoopState) :
  wf_dimension mapDimensions ->
  Forall (InMap mapDimensions) (outputList st) ->
  whileLoop m mapDimensions max rs fuel st = Returned st' ->
  Forall (InMap mapDimensions) (outputList st').
Proof.
  intros Hwf. revert st. induction fuel as [|fuel IH]; intros st Hi H;
    cbn [whileLoop] in H.
  - destruct (whileCondition max st); [discriminate|]. inversion H; subst. exact Hi.
  - destruct (whileCondition max st); [|inversion H; subst; exact Hi].
    inv_bind H. apply (IH v); [|exact H].
    unfold whileBody in E. destruct (processQueue st) as [|cur rest]; [discriminate|].
    inv_bind E. apply forLoop_bounds in E0; auto.
    destruct (popCondition max); inversion E; subst; exact E0.
Qed.

Lemma initialState_bounds (m : Z) (mapDimensions : dimension2du)
  (rs : RandomSource) (seeds : list vector2di) (st : LoopState) :
  0 < Width mapDimensions < 4294967296 -> 0 < Height mapDimensions < 4294967296 ->
  (seeds = [] -> valid_first rs) ->
  initialState m mapDimensions rs seeds = Returned st ->
  Forall (InMap mapDimensions) (outputList st).
Proof.
  intros Hw Hh Hv H. unfold initialState in H. inv_bind H. inv_bind H.
  destruct seeds as [|s seeds].
  - destruct (Hv eq_refl) as [Hu1 Hu2].
    unfold firstPointState in H. inv_bind H. inv_bind H. inv_bind H. inv_bind H.
    inversion H; subst; clear H. cbn [outputList].
    destruct (firstPointRange_bounds _ _ _ Hw Hu1 E1) as [Hx _].
    destruct (firstPointRange_bounds _ _ _ Hh Hu2 E2) as [Hy _].
    constructor; [|constructor]. split; cbn [X Y]; lia.
  - apply existingLoop_spec in H. cbn [outputList] in H.
    destruct H as (-> & _). constructor.
Qed.

(** ** Exit of the loop *)

Lemma whileLoop_exit (m : Z) (mapDimensions : dimension2du) (max : Z)
  (rs : RandomSource) (fuel : nat) (st st' : LoopState) :
  whileLoop m mapDimensions max rs fuel st = Returned st' ->
  whileCondition max st' = false.
Proof.
  revert st. induction fuel as [|fuel IH]; intros st H; cbn [whileLoop] in H.
  - destruct (whileCondition max st) eqn:E; [discriminate|]. inversion H; subst. exact E.
  - destruct (whileCondition max st) eqn:E; [|inversion H; subst; exact E].
    inv_bind H. eauto.
Qed.

Lemma whileCondition_false (max : Z) (st : LoopState) :
  whileCondition max st = false ->
  processQueue st = [] \/ max <= numberOfPoints st.
Proof.
  unfold whileCondition. destruct (processQueue st); [auto|].
  cbn [negb andb]. intros H. apply Z.ltb_ge in H. auto.
Qed.

(** ** Containment in a section *)

Lemma InsideRectangle_true (p offset : vector2di) (d : dimension2du) :
  InsideRectangle p offset d = true <->
  X offset <= X p /\ u32 (X p) < u32 (X offset + Width d) /\
  Y offset <= Y p /\ u32 (Y p) < u32 (Y offset + Height d).
Proof.
  unfold InsideRectangle. rewrite !andb_true_iff, !Z.leb_le, !Z.ltb_lt. tauto.
Qed.



Lemma filter_all {A : Type} (f : A -> bool) (l : list A) :
  (forall x, f x = true) -> filter f l = l.
Proof.
  intros H. induction l as [|a l IH]; simpl; [reflexivity|].
  rewrite H, IH. reflexivity.
Qed.

Lemma GeneratePoints_unfold (m : Z) (mapDimensions : dimension2du) (max : Z)
  (rs : RandomSource) (sections : list MapSection) (seeds : list vector2di)
  (fuel : nat) :
  GeneratePoints m mapDimensions max rs sections seeds fuel
  = (st <- generationLoop m mapDimensions max rs seeds fuel ;;
     Returned (excludeAll sections (outputList st))).
Proof.
  unfold GeneratePoints, GeneratePointsIO.
  destruct (generationLoop m mapDimensions max rs seeds fuel); cbn [bind fst];
    try reflexivity.
  rewrite excludeLoop_points. reflexivity.
Qed.

(** ** Values of a format *)

Lemma nearest_even_le_int (q : Q) (n : Z) :
  (q <= inject_Z n)%Q -> nearest_even q <= n.
Proof.
  intros H. destruct (nearest_even_spec q) as [Hlo _].
  assert (Hz : (inject_Z (nearest_even q) < inject_Z (n + 1))%Q).
  { rewrite inject_Z_plus. change (inject_Z 1) with 1%Q. Lqa.lra. }
  rewrite <- Zlt_Qlt in Hz. lia.
Qed.

Lemma nearest_even_ge_int (q : Q) (n : Z) :
  (inject_Z n <= q)%Q -> n <= nearest_even q.
Proof.
  intros H. destruct (nearest_even_spec q) as [_ Hhi].
  assert (Hz : (inject_Z (n - 1) < inject_Z (nearest_even q))%Q).
  { replace (n - 1) with (n + (-1)) by lia. rewrite inject_Z_plus.
    change (inject_Z (-1)) with (-1)%Q. Lqa.lra. }
  rewrite <- Zlt_Qlt in Hz. lia.
Qed.

(** Rounding at the exponent [e] stays below a multiple of [pow2 e] above
    the value, and above one below it. *)
Lemma scaled_le (q b : Q) (e K : Z) :
  (b == inject_Z K * pow2 e)%Q -> (q <= b)%Q ->
  (inject_Z (nearest_even (q / pow2 e)) * pow2 e <= b)%Q.
Proof.
  intros Hb Hq. pose proof (pow2_pos e) as He.
  assert (Hn : nearest_even (q / pow2 e) <= K).
  { apply nearest_even_le_int. apply Qle_shift_div_r; [exact He|]. Lqa.lra. }
  rewrite Zle_Qle in Hn. rewrite Hb.
  apply Qmult_le_compat_r; [exact Hn | Lqa.lra].
Qed.

Lemma scaled_ge (q a : Q) (e K : Z) :
  (a == inject_Z K * pow2 e)%Q -> (a <= q)%Q ->
  (a <= inject_Z (nearest_even (q / pow2 e)) * pow2 e)%Q.
Proof.
  intros Ha Hq. pose proof (pow2_pos e) as He.
  assert (Hn : K <= nearest_even (q / pow2 e)).
  { apply nearest_even_ge_int. apply Qle_shift_div_l; [exact He|]. Lqa.lra. }
  rewrite Zle_Qle in Hn. rewrite Ha.
  apply Qmult_le_compat_r; [exact Hn | Lqa.lra].
Qed.

Lemma in_format_multiple (f : Format) (b : Q) (B eb e : Z) :
  (b == inject_Z B * pow2 eb)%Q -> e <= eb ->
  (b == inject_Z (B * 2 ^ (eb - e)) * pow2 e)%Q.
Proof.
  intros Hb He. rewrite Hb, inject_Z_mult, <- pow2_inject by lia.
  replace eb with ((eb - e) + e) at 1 by lia. rewrite pow2_add. ring.
Qed.

Lemma in_format_small (f : Format) (b : Q) (B eb l : Z) :
  0 <= precision f -> Z.abs B <= 2 ^ precision f ->
  (b == inject_Z B * pow2 eb)%Q -> eb + precision f <= l ->
  (- pow2 l <= b)%Q /\ (b <= pow2 l)%Q.
Proof.
  intros Hp HB Hb Hl.
  assert (H1 : (pow2 (eb + precision f) <= pow2 l)%Q) by (apply pow2_le; exact Hl).
  rewrite pow2_add, (pow2_inject (precision f)) in H1 by exact Hp.
  pose proof (pow2_pos eb) as He.
  assert (H2 : (inject_Z (- 2 ^ precision f) <= inject_Z B)%Q) by (rewrite <- Zle_Qle; lia).
  assert (H3 : (inject_Z B <= inject_Z (2 ^ precision f))%Q) by (rewrite <- Zle_Qle; lia).
  rewrite inject_Z_opp in H2.
  apply (Qmult_le_compat_r _ _ (pow2 eb)) in H2; [|Lqa.lra].
  apply (Qmult_le_compat_r _ _ (pow2 eb)) in H3; [|Lqa.lra].
  rewrite Hb.
  set (P := inject_Z (2 ^ precision f)) in *. set (E := pow2 eb) in *.
  assert (E1 : (- P * E == - (E * P))%Q) by ring.
  assert (E2 : (P * E == E * P)%Q) by ring.
  rewrite E1 in H2. rewrite E2 in H3. split; Lqa.lra.
Qed.

(** The exponent of the unit in the last place of a value that is not
    zero: the value is below [pow2 (e + precision f)] in magnitude, and
    at least [pow2 (e + precision f - 1)] unless [e] is the smallest
    exponent. *)
Lemma ulp_exponent_spec (f : Format) (q : Q) :
  ~ (q == 0)%Q ->
  let e := ulp_exponent f q in
  emin f <= e /\
  (Qabs q < pow2 (e + precision f))%Q /\
  (e = emin f \/ (pow2 (e + precision f - 1) <= Qabs q)%Q).
Proof.
  intros Hz e.
  assert (Ha : (0 < Qabs q)%Q).
  { pose proof (Qabs_nonneg q) as H0.
    destruct (Qeq_dec (Qabs q) 0) as [E|E]; [|Lqa.lra].
    exfalso. apply Hz. destruct q as [n d]. unfold Qabs, Qeq in *. cbn in *. lia. }
  destruct (ilog2_spec (Qabs q) Ha) as [Hlo Hhi].
  unfold e, ulp_exponent.
  split; [lia|]. split.
  - eapply Qlt_le_trans; [exact Hhi|]. apply pow2_le. lia.
  - destruct (Z.max_spec (ilog2 (Qabs q) - (precision f - 1)) (emin f)) as [[_ ->]|[_ ->]].
    + left. reflexivity.
    + right. replace (ilog2 (Qabs q) - (precision f - 1) + precision f - 1)
        with (ilog2 (Qabs q)) by lia. exact Hlo.
Qed.

(** Rounding does not cross a value of the format. *)
Lemma round_le_format (f : Format) (q b : Q) :
  1 <= precision f -> in_format f b -> (q <= b)%Q -> (round f q <= b)%Q.
Proof.
  intros Hp (B & eb & Heb & HB & Hb) Hq.
  destruct (Qeq_dec q 0) as [Hz|Hz].
  { rewrite (round_zero f q Hz). Lqa.lra. }
  rewrite (round_value f q Hz).
  destruct (ulp_exponent_spec f q Hz) as (He & Hhi & Hlo).
  set (e := ulp_exponent f q) in *.
  destruct (Z_le_gt_dec e eb) as [Hle|Hgt].
  { exact (scaled_le q b e _ (in_format_multiple f b B eb e Hb Hle) Hq). }
  destruct Hlo as [Hlo|Hlo]; [lia|].
  assert (Hp0 : 0 <= precision f) by lia.
  assert (Hs : eb + precision f <= e + precision f - 1) by lia.
  destruct (in_format_small f b B eb (e + precision f - 1) Hp0 HB Hb Hs) as [Bl Bh].
  set (l := e + precision f - 1) in *.
  assert (Hl : (pow2 l == inject_Z (2 ^ (precision f - 1)) * pow2 e)%Q).
  { replace l with ((precision f - 1) + e) by (unfold l; lia).
    rewrite pow2_add, pow2_inject by lia. reflexivity. }
  destruct (Qlt_le_dec q 0) as [Hneg|Hpos].
  - assert (Ea : (Qabs q == - q)%Q) by (apply Qabs_neg; Lqa.lra).
    rewrite Ea in Hlo.
    apply Qle_trans with (- pow2 l)%Q; [|exact Bl].
    apply (scaled_le q (- pow2 l) e (- 2 ^ (precision f - 1))); [|Lqa.lra].
    rewrite inject_Z_opp, Hl. ring.
  - assert (Ea : (Qabs q == q)%Q) by (apply Qabs_pos; exact Hpos).
    rewrite Ea in Hlo.
    apply Qle_trans with (pow2 l); [|Lqa.lra].
    apply (scaled_le q (pow2 l) e (2 ^ (precision f - 1))); [exact Hl | Lqa.lra].
Qed.

Lemma round_ge_format (f : Format) (q a : Q) :
  1 <= precision f -> in_format f a -> (a <= q)%Q -> (a <= round f q)%Q.
Proof.
  intros Hp (A & ea & Hea & HA & Ha) Hq.
  destruct (Qeq_dec q 0) as [Hz|Hz].
  { rewrite (round_zero f q Hz). Lqa.lra. }
  rewrite (round_value f q Hz).
  destruct (ulp_exponent_spec f q Hz) as (He & Hhi & Hlo).
  set (e := ulp_exponent f q) in *.
  destruct (Z_le_gt_dec e ea) as [Hle|Hgt].
  { exact (scaled_ge q a e _ (in_format_multiple f a A ea e Ha Hle) Hq). }
  destruct Hlo as [Hlo|Hlo]; [lia|].
  assert (Hp0 : 0 <= precision f) by lia.
  assert (Hs : ea + precision f <= e + precision f - 1) by lia.
  destruct (in_format_small f a A ea (e + precision f - 1) Hp0 HA Ha Hs) as [Al Ah].
  set (l := e + precision f - 1) in *.
  assert (Hl : (pow2 l == inject_Z (2 ^ (precision f - 1)) * pow2 e)%Q).
  { replace l with ((precision f - 1) + e) by (unfold l; lia).
    rewrite pow2_add, pow2_inject by lia. reflexivity. }
  destruct (Qlt_le_dec q 0) as [Hneg|Hpos].
  - assert (Ea : (Qabs q == - q)%Q) by (apply Qabs_neg; Lqa.lra).
    rewrite Ea in Hlo.
    apply Qle_trans with (- pow2 l)%Q; [Lqa.lra|].
    apply (scaled_ge q (- pow2 l) e (- 2 ^ (precision f - 1))); [|Lqa.lra].
    rewrite inject_Z_opp, Hl. ring.
  - assert (Ea : (Qabs q == q)%Q) by (apply Qabs_pos; exact Hpos).
    rewrite Ea in Hlo.
    apply Qle_trans with (pow2 l); [exact Ah|].
    apply (scaled_ge q (pow2 l) e (2 ^ (precision f - 1))); [exact Hl | Lqa.lra].
Qed.

Lemma nearest_even_comp (q1 q2 : Q) :
  (q1 == q2)%Q -> nearest_even q1 = nearest_even q2.
Proof.
  intros H. unfold nearest_even. rewrite (Qfloor_comp _ _ H).
  assert (E : (q1 - inject_Z (Qfloor q2) ?= 1 # 2)%Q
              = (q2 - inject_Z (Qfloor q2) ?= 1 # 2)%Q).
  { apply Qcompare_comp; [rewrite H|]; reflexivity. }
  rewrite E. reflexivity.
Qed.

Lemma nearest_even_mono (q1 q2 : Q) :
  (q1 <= q2)%Q -> nearest_even q1 <= nearest_even q2.
Proof.
  intros H. destruct (nearest_even_spec q1) as [L1 H1].
  destruct (nearest_even_spec q2) as [L2 H2].
  destruct (Z_le_gt_dec (nearest_even q1) (nearest_even q2)) as [Hle|Hgt]; [exact Hle|].
  assert (Hz : (inject_Z (nearest_even q2 + 1) <= inject_Z (nearest_even q1))%Q)
    by (rewrite <- Zle_Qle; lia).
  rewrite inject_Z_plus in Hz. change (inject_Z 1) with 1%Q in Hz.
  assert (E : (q1 == q2)%Q) by Lqa.lra.
  rewrite (nearest_even_comp _ _ E). lia.
Qed.

Lemma in_format_pow2 (f : Format) (e : Z) :
  1 <= precision f -> emin f <= e -> in_format f (pow2 (e + precision f - 1)).
Proof.
  intros Hp He. exists (2 ^ (precision f - 1)), e.
  split; [exact He|]. split.
  - rewrite Z.abs_eq by (apply Z.pow_nonneg; lia).
    apply Z.pow_le_mono_r; lia.
  - replace (e + precision f - 1) with ((precision f - 1) + e) by lia.
    rewrite pow2_add, pow2_inject by lia. reflexivity.
Qed.

Lemma in_format_opp (f : Format) (b : Q) : in_format f b -> in_format f (- b).
Proof.
  intros (B & eb & He & HB & Hb). exists (- B), eb.
  split; [exact He|]. split; [rewrite Z.abs_opp; exact HB|].
  rewrite Hb, inject_Z_opp. ring.
Qed.

Lemma Qabs_cases (q : Q) :
  ((0 <= q)%Q /\ (Qabs q == q)%Q) \/ ((q < 0)%Q /\ (Qabs q == - q)%Q).
Proof.
  destruct (Qlt_le_dec q 0) as [H|H].
  - right. split; [exact H|]. apply Qabs_neg. Lqa.lra.
  - left. split; [exact H|]. apply Qabs_pos. exact H.
Qed.

(** Rounding is monotone. *)
Lemma round_mono (f : Format) (q1 q2 : Q) :
  1 <= precision f -> (q1 <= q2)%Q -> (round f q1 <= round f q2)%Q.
Proof.
  intros Hp H.
  destruct (Qeq_dec q1 0) as [Z1|Z1].
  { rewrite (round_zero f q1 Z1). apply round_nonneg. Lqa.lra. }
  destruct (Qeq_dec q2 0) as [Z2|Z2].
  { rewrite (round_zero f q2 Z2). apply round_nonpos. Lqa.lra. }
  destruct (ulp_exponent_spec f q1 Z1) as (E1 & Hi1 & Lo1).
  destruct (ulp_exponent_spec f q2 Z2) as (E2 & Hi2 & Lo2).
  destruct (Z.lt_trichotomy (ulp_exponent f q1) (ulp_exponent f q2)) as [Hlt|[Heq|Hgt]].
  - destruct Lo2 as [Lo2|Lo2]; [lia|].
    assert (Hpw : (pow2 (ulp_exponent f q1 + precision f)
                   <= pow2 (ulp_exponent f q2 + precision f - 1))%Q)
      by (apply pow2_le; lia).
    pose proof (in_format_pow2 f (ulp_exponent f q2) Hp E2) as Hf.
    set (P := pow2 (ulp_exponent f q2 + precision f - 1)) in *.
    destruct (Qabs_cases q1) as [[S1 A1]|[S1 A1]];
      destruct (Qabs_cases q2) as [[S2 A2]|[S2 A2]];
      rewrite A1 in Hi1; rewrite A2 in Lo2; try (exfalso; Lqa.lra).
    + apply Qle_trans with P;
        [apply round_le_format | apply round_ge_format]; auto; Lqa.lra.
    + apply Qle_trans with P;
        [apply round_le_format | apply round_ge_format]; auto; Lqa.lra.
  - rewrite (round_value f q1 Z1), (round_value f q2 Z2), Heq.
    pose proof (pow2_pos (ulp_exponent f q2)) as He.
    apply Qmult_le_compat_r; [|Lqa.lra].
    rewrite <- Zle_Qle. apply nearest_even_mono.
    apply Qmult_le_compat_r; [exact H|]. apply Qlt_le_weak, Qinv_lt_0_compat. exact He.
  - destruct Lo1 as [Lo1|Lo1]; [lia|].
    assert (Hpw : (pow2 (ulp_exponent f q2 + precision f)
                   <= pow2 (ulp_exponent f q1 + precision f - 1))%Q)
      by (apply pow2_le; lia).
    pose proof (in_format_opp f _ (in_format_pow2 f (ulp_exponent f q1) Hp E1)) as Hf.
    set (P := pow2 (ulp_exponent f q1 + precision f - 1)) in *.
    destruct (Qabs_cases q1) as [[S1 A1]|[S1 A1]];
      destruct (Qabs_cases q2) as [[S2 A2]|[S2 A2]];
      rewrite A1 in Lo1; rewrite A2 in Hi2; try (exfalso; Lqa.lra).
    + apply Qle_trans with (- P)%Q;
        [apply round_le_format | apply round_ge_format]; auto; Lqa.lra.
    + apply Qle_trans with (- P)%Q;
        [apply round_le_format | apply round_ge_format]; auto; Lqa.lra.
Qed.

(** The integers of up to 24 bits are values of binary32. *)
Lemma in_format_int (z : Z) : Z.abs z <= 16777216 -> in_format binary32 (inject_Z z).
Proof.
  intros H. exists z, 0. split; [cbn; lia|]. split; [exact H|].
  change (pow2 0) with 1%Q. ring.
Qed.

Lemma round_format (f : Format) (b : Q) :
  1 <= precision f -> in_format f b -> (round f b == b)%Q.
Proof.
  intros Hp Hb. apply Qle_antisym.
  - apply round_le_format; [exact Hp | exact Hb | apply Qle_refl].
  - apply round_ge_format; [exact Hp | exact Hb | apply Qle_refl].
Qed.

Lemma precision32 : 1 <= precision binary32.
Proof. cbn. lia. Qed.

(** ** The states a call passes through *)

Section Reachable.

Variable m : Z.
Variable mapDimensions : dimension2du.
Variable max : Z.
Variable rs : RandomSource.
Variable seeds : list vector2di.

Lemma existingLoop_cons (p : vector2di) (rest : list vector2di) (st st' : LoopState) :
  existingLoop m (p :: rest) st = Returned st' ->
  exists st1, existingLoop m [p] st = Returned st1 /\
              existingLoop m rest st1 = Returned st'.
Proof.
  cbn [existingLoop]. intros H. inv_bind H. inv_bind H.
  rewrite E. cbn [bind]. rewrite E0. cbn [bind]. eauto.
Qed.

Lemma existingLoop_reaches (points : list vector2di) (st st' : LoopState) :
  incl points seeds -> reaches m mapDimensions max rs seeds st ->
  existingLoop m points st = Returned st' -> reaches m mapDimensions max rs seeds st'.
Proof.
  revert st. induction points as [|p rest IH]; intros st Hin Hr H.
  - cbn [existingLoop] in H. inversion H; subst. exact Hr.
  - apply existingLoop_cons in H. destruct H as (st1 & H1 & H2).
    apply (IH st1); [intros x Hx; apply Hin; right; exact Hx | | exact H2].
    apply (reaches_existing st st1 p); auto. apply Hin. left. reflexivity.
Qed.

Lemma forLoop_reaches (n : nat) (cur : vector2di) (st st' : LoopState) :
  reaches m mapDimensions max rs seeds st -> forLoop m mapDimensions max rs n cur st = Returned st' -> reaches m mapDimensions max rs seeds st'.
Proof.
  revert st. induction n as [|n IH]; intros st Hr H; cbn [forLoop] in H.
  - inversion H; subst. exact Hr.
  - inv_bind H. destruct v as [st1 b]. cbn [fst snd] in H.
    pose proof (reaches_try _ _ _ _ Hr E) as Hr1.
    destruct b; [inversion H; subst; exact Hr1 | eauto].
Qed.

Lemma whileLoop_reaches (fuel : nat) (st st' : LoopState) :
  reaches m mapDimensions max rs seeds st -> whileLoop m mapDimensions max rs fuel st = Returned st' -> reaches m mapDimensions max rs seeds st'.
Proof.
  revert st. induction fuel as [|fuel IH]; intros st Hr H; cbn [whileLoop] in H.
  - destruct (whileCondition max st); [discriminate|]. inversion H; subst. exact Hr.
  - destruct (whileCondition max st); [|inversion H; subst; exact Hr].
    inv_bind H. apply (IH v); [|exact H].
    unfold whileBody in E. destruct (processQueue st) as [|cur rest] eqn:Eq;
      [discriminate|].
    inv_bind E. rewrite <- Eq in E0.
    apply forLoop_reaches in E0; [|apply reaches_front; exact Hr].
    destruct (popCondition max); inversion E; subst;
      [apply reaches_pop|]; exact E0.
Qed.

(** The state in which the loop exits is one of the states passed through. *)
Lemma generationLoop_reaches (fuel : nat) (st : LoopState) :
  generationLoop m mapDimensions max rs seeds fuel = Returned st -> reaches m mapDimensions max rs seeds st.
Proof.
  unfold generationLoop. intros H. inv_bind H.
  apply (whileLoop_reaches fuel v); [|exact H].
  unfold initialState in E. inv_bind E. inv_bind E.
  destruct seeds as [|s rest] eqn:Es.
  - eapply reaches_first; eauto.
  - rewrite <- Es in *.
    refine (existingLoop_reaches seeds _ v (incl_refl _) _ E).
    eapply reaches_allocated; eauto.
Qed.

Hypothesis map_wf : wf_dimension mapDimensions.
Hypothesis seeds_in_map : Forall (InMap mapDimensions) seeds.
Hypothesis first_valid : seeds = [] -> valid_first rs.

Lemma gridAt_initGrid (gw gh : Z) (t q : vector2di) :
  gridAt (initGrid gw gh) t = Returned q -> q = sentinel.
Proof.
  unfold gridAt, initGrid. cbn [grid].
  destruct (_ || _); [discriminate|].
  destruct (nth_error _ _) as [row|] eqn:Er; [|discriminate].
  apply nth_error_repeat_Some in Er. destruct Er as [-> _].
  destruct (nth_error _ _) as [x|] eqn:Ex; [|discriminate].
  apply nth_error_repeat_Some in Ex. destruct Ex as [-> _].
  intros H. inversion H. reflexivity.
Qed.

Lemma firstPointState_sentinel_inv (gw gh : Z) (st : LoopState) :
  seeds = [] ->
  int_ceil_div_cell (Width mapDimensions) (pointGridCellSize m) = Returned gw ->
  int_ceil_div_cell (Height mapDimensions) (pointGridCellSize m) = Returned gh ->
  firstPointState m mapDimensions rs (initGrid gw gh) = Returned st ->
  sentinel_inv mapDimensions seeds st.
Proof.
  intros Es Ew Eh H. destruct (first_valid Es) as [Hu Hv].
  destruct map_wf as [Hw Hh].
  unfold firstPointState in H. inv_bind H. inv_bind H. inv_bind H. inv_bind H.
  inversion H; subst; clear H. cbn [outputList pointGrid].
  rename v into x, v0 into y, v1 into t, v2 into g.
  pose proof (gridStore_initGrid _ _ _ _ _ E2) as [Hgx Hgy].
  assert (HW : 0 < Width mapDimensions).
  { destruct (Z.eq_dec (Width mapDimensions) 0) as [Ez|Ez]; [|lia].
    rewrite Ez in Ew. apply int_ceil_div_cell_zero in Ew. lia. }
  assert (HH : 0 < Height mapDimensions).
  { destruct (Z.eq_dec (Height mapDimensions) 0) as [Ez|Ez]; [|lia].
    rewrite Ez in Eh. apply int_ceil_div_cell_zero in Eh. lia. }
  destruct (firstPointRange_bounds _ _ _ (conj HW (proj2 Hw)) Hu E) as [Hx _].
  destruct (firstPointRange_bounds _ _ _ (conj HH (proj2 Hh)) Hv E0) as [Hy _].
  split.
  - constructor; [|constructor]. split; cbn [X Y]; lia.
  - intros t' q Hq. destruct (gridAt_store_cases _ _ _ _ _ _ E2 Hq) as [->|Hq'].
    + right. apply in_or_app. right. left. reflexivity.
    + left. exact (gridAt_initGrid _ _ _ _ Hq').
Qed.

Lemma reaches_sentinel_inv (st : LoopState) : reaches m mapDimensions max rs seeds st -> sentinel_inv mapDimensions seeds st.
Proof.
  induction 1 as [gw gh Ew Eh | gw gh st Es Ew Eh Hf | st st' p Hr IH Hp He
                  | st cur Hr IH | st st' cur b Hr IH Ht | st Hr IH].
  - split; [constructor|]. cbn [pointGrid]. intros t q Hq.
    left. exact (gridAt_initGrid _ _ _ _ Hq).
  - eapply firstPointState_sentinel_inv; eauto.
  - destruct IH as [Hout Hg]. cbn [existingLoop] in He.
    inv_bind He. inv_bind He. inversion He; subst; clear He.
    cbn [outputList pointGrid]. split; [exact Hout|].
    intros t q Hq. destruct (gridAt_store_cases _ _ _ _ _ _ E0 Hq) as [->|Hq'].
    + right. apply in_or_app. left. exact Hp.
    + apply Hg in Hq'. exact Hq'.
  - exact IH.
  - destruct IH as [Hout Hg].
    pose proof (tryPoint_bounds _ _ _ _ _ _ _ _ map_wf Hout Ht) as Hout'.
    split; [exact Hout'|].
    unfold tryPoint in Ht. inv_bind Ht. rename v into c.
    cbn [pointGrid outputList processQueue numberOfPoints draws processed] in Ht.
    destruct (InsideRectangle c _ mapDimensions);
      [|inversion Ht; subst; exact Hg].
    inv_bind Ht. destruct v; cbn [negb] in Ht; [inversion Ht; subst; exact Hg|].
    inv_bind Ht. inv_bind Ht. inv_bind Ht. inversion Ht; subst; clear Ht.
    cbn [pointGrid outputList]. intros t q Hq.
    destruct (gridAt_store_cases _ _ _ _ _ _ E2 Hq) as [->|Hq'].
    + right. apply in_or_app. right. apply in_or_app. right. left. reflexivity.
    + destruct (Hg _ _ Hq') as [Hs|Hin]; [left; exact Hs|].
      right. rewrite app_assoc. apply in_or_app. left. exact Hin.
  - exact IH.
Qed.

End Reachable.

(** ** Stores *)

Lemma gridStore_defined (g : PointGrid2D) (t p : vector2di) :
  in_storage g t -> exists g', gridStore g t p = Returned g'.
Proof.
  intros (Hx & Hy & row & Hr & Hl). unfold gridStore.
  replace ((X t <? 0) || (Y t <? 0)) with false
    by (symmetry; apply orb_false_intro; apply Z.ltb_ge; assumption).
  rewrite Hr. apply Nat.ltb_lt in Hl. rewrite Hl. eauto.
Qed.

Lemma in_storage_store (g g' : PointGrid2D) (t t' p : vector2di) :
  gridStore g t p = Returned g' -> in_storage g t' -> in_storage g' t'.
Proof.
  intros H (Hx & Hy & row & Hr & Hl).
  apply gridStore_Returned in H. destruct H as (_ & _ & row0 & Hr0 & Hl0 & ->).
  split; [exact Hx|]. split; [exact Hy|]. cbn [grid].
  destruct (Nat.eq_dec (Z.to_nat (X t)) (Z.to_nat (X t'))) as [E|E].
  - rewrite <- E in *. rewrite Hr0 in Hr. inversion Hr; subst row0.
    exists (replace_nth (Z.to_nat (Y t)) p row). split.
    + apply nth_error_replace_nth_eq. apply nth_error_Some. congruence.
    + rewrite length_replace_nth. exact Hl.
  - exists row. split; [|exact Hl].
    rewrite nth_error_replace_nth_ne by exact E. exact Hr.
Qed.

(** ** Accounting of the loops *)

(** What one pass of the body of the [for] loop does: it consumes one
    draw, and either leaves the rest of the state as it is, or accepts the
    candidate. *)
Lemma tryPoint_cases (m : Z) (mapDimensions : dimension2du) (max : Z)
  (rs : RandomSource) (cur : vector2di) (st st' : LoopState) (b : bool) :
  tryPoint m mapDimensions max rs cur st = Returned (st', b) ->
  (b = false /\
   st' = mkState (processQueue st) (outputList st) (pointGrid st)
                 (numberOfPoints st) (S (draws st)) (processed st)) \/
  (exists c t g',
     GenerateRandomPointAroundPoint cur m (draw rs (draws st)) = Returned c /\
     InsideRectangle c (mkVector 0 0) mapDimensions = true /\
     InNeighborhood c m (pointGrid st) (pointGridCellSize m) = Returned false /\
     PointToGridTile c (pointGridCellSize m) = Returned t /\
     gridStore (pointGrid st) t c = Returned g' /\
     b = (max <? MAX_INT) /\
     st' = mkState (processQueue st ++ [c]) (outputList st ++ [c]) g'
                   (numberOfPoints st + 1) (S (draws st)) (processed st)).
Proof.
  intros H. unfold tryPoint in H. inv_bind H. rename v into c.
  cbn [pointGrid outputList processQueue numberOfPoints draws processed] in H.
  destruct (InsideRectangle c (mkVector 0 0) mapDimensions) eqn:Ein.
  2:{ inversion H; subst. left. auto. }
  inv_bind H. destruct v; cbn [negb] in H.
  { inversion H; subst. left. auto. }
  inv_bind H. inv_bind H. inv_bind H. inversion H; subst; clear H.
  apply int_of_Z_Returned in E3. destruct E3 as [-> _].
  right. exists c, v, v0. repeat split; auto.
Qed.

Lemma forLoop_account (m : Z) (mapDimensions : dimension2du) (max : Z)
  (rs : RandomSource) (n : nat) (cur : vector2di) (st st' : LoopState) :
  forLoop m mapDimensions max rs n cur st = Returned st' ->
  exists k,
    processQueue st' = processQueue st ++ k /\
    outputList st' = outputList st ++ k /\
    numberOfPoints st' = numberOfPoints st + Z.of_nat (List.length k) /\
    processed st' = processed st /\
    (draws st' <= draws st + n)%nat /\
    ((max <? MAX_INT) = false -> draws st' = (draws st + n)%nat) /\
    ((max <? MAX_INT) = true -> (List.length k <= 1)%nat).
Proof.
  revert st. induction n as [|n IH]; intros st H; cbn [forLoop] in H.
  - inversion H; subst. exists []. rewrite !app_nil_r. cbn [List.length].
    repeat split; try lia.
  - inv_bind H. destruct v as [st1 b]. cbn [fst snd] in H.
    destruct (tryPoint_cases _ _ _ _ _ _ _ _ E) as [[-> ->]|(c & t & g' & _ & _ & _ & _ & _ & -> & ->)].
    + destruct (IH _ H) as (k & Hq & Ho & Hn & Hp & Hd & Hu & Hc).
      cbn [processQueue outputList numberOfPoints processed draws] in *.
      exists k. repeat split; auto; try lia.
    + destruct (max <? MAX_INT) eqn:Ecap.
      * inversion H; subst; clear H.
        cbn [processQueue outputList numberOfPoints processed draws].
        exists [c]. cbn [List.length]. repeat split; auto; try lia; try discriminate.
      * destruct (IH _ H) as (k & Hq & Ho & Hn & Hp & Hd & Hu & Hc).
        cbn [processQueue outputList numberOfPoints processed draws] in *.
        exists (c :: k). rewrite Hq, Ho, <- !app_assoc. cbn [app List.length].
        repeat split; auto; try lia; try discriminate.
Qed.

Lemma whileBody_account (m : Z) (mapDimensions : dimension2du) (max : Z)
  (rs : RandomSource) (st st' : LoopState) :
  whileBody m mapDimensions max rs st = Returned st' ->
  exists cur rest k,
    processQueue st = cur :: rest /\
    processQueue st' = rest ++ k /\
    outputList st' = outputList st ++ k /\
    numberOfPoints st' = numberOfPoints st + Z.of_nat (List.length k) /\
    processed st' = processed st ++ [cur] /\
    (draws st' <= draws st + POINTS_PER_LOOP)%nat /\
    ((max <? MAX_INT) = false -> draws st' = (draws st + POINTS_PER_LOOP)%nat) /\
    ((max <? MAX_INT) = true -> (List.length k <= 1)%nat).
Proof.
  intros H. unfold whileBody in H.
  destruct (processQueue st) as [|cur rest] eqn:Eq; [discriminate|].
  inv_bind H. rename v into st1.
  rewrite popCondition_true in H. inversion H; subst; clear H.
  destruct (forLoop_account _ _ _ _ _ _ _ _ E) as (k & Hq & Ho & Hn & Hp & Hd & Hu & Hc).
  cbn [processQueue outputList numberOfPoints processed draws] in *.
  exists cur, rest, k. rewrite Hq. cbn [tl app]. repeat split; auto.
Qed.

Lemma whileLoop_account (m : Z) (mapDimensions : dimension2du) (max : Z)
  (rs : RandomSource) (fuel : nat) (st st' : LoopState) :
  whileLoop m mapDimensions max rs fuel st = Returned st' ->
  exists k done,
    outputList st' = outputList st ++ k /\
    processed st' = processed st ++ done /\
    done ++ processQueue st' = processQueue st ++ k /\
    numberOfPoints st' = numberOfPoints st + Z.of_nat (List.length k) /\
    (draws st' <= draws st + POINTS_PER_LOOP * List.length done)%nat /\
    ((max <? MAX_INT) = false ->
     draws st' = (draws st + POINTS_PER_LOOP * List.length done)%nat) /\
    ((max <? MAX_INT) = true -> numberOfPoints st <= Z.max 0 max ->
     numberOfPoints st' <= Z.max 0 max).
Proof.
  revert st. induction fuel as [|fuel IH]; intros st H; cbn [whileLoop] in H.
  - destruct (whileCondition max st); [discriminate|]. inversion H; subst.
    exists [], []. rewrite !app_nil_r. cbn [List.length app].
    repeat split; auto; try lia.
  - destruct (whileCondition max st) eqn:Ec.
    + inv_bind H. rename v into st1.
      destruct (whileBody_account _ _ _ _ _ _ E)
        as (cur & rest & k1 & Hq1 & Hq1' & Ho1 & Hn1 & Hp1 & Hd1 & Hu1 & Hc1).
      destruct (IH _ H) as (k & done & Ho & Hp & Hq & Hn & Hd & Hu & Hc).
      exists (k1 ++ k), (cur :: done).
      rewrite Ho, Ho1, Hp, Hp1, Hn, Hn1, Hq1, <- !app_assoc, !length_app.
      cbn [app List.length].
      split; [reflexivity|]. split; [reflexivity|].
      split; [rewrite Hq, Hq1', <- app_assoc; reflexivity|].
      split; [lia|]. split; [lia|].
      split; [intros Hm; specialize (Hu Hm); specialize (Hu1 Hm); lia|].
      intros Hm Hle. rewrite <- Hn1, <- Hn. apply Hc; [exact Hm|].
      specialize (Hc1 Hm). unfold whileCondition in Ec.
      apply andb_true_iff in Ec. destruct Ec as [_ Ec]. apply Z.ltb_lt in Ec. lia.
    + inversion H; subst.
      exists [], []. rewrite !app_nil_r. cbn [List.length app].
      repeat split; auto; try lia.
Qed.

Lemma existingLoop_account (m : Z) (points : list vector2di) (st st' : LoopState) :
  existingLoop m points st = Returned st' ->
  numberOfPoints st' = numberOfPoints st /\ draws st' = draws st /\
  processed st' = processed st.
Proof.
  revert st. induction points as [|p rest IH]; intros st H; cbn [existingLoop] in H.
  - inversion H; subst. auto.
  - inv_bind H. inv_bind H. apply IH in H.
    cbn [numberOfPoints draws processed] in H. exact H.
Qed.

Lemma initialState_account (m : Z) (mapDimensions : dimension2du)
  (rs : RandomSource) (seeds : list vector2di) (st : LoopState) :
  initialState m mapDimensions rs seeds = Returned st ->
  numberOfPoints st = 0 /\ draws st = 0%nat /\ processed st = [] /\
  processQueue st = seeds ++ outputList st /\
  List.length (outputList st) = match seeds with [] => 1%nat | _ => 0%nat end.
Proof.
  intros H. unfold initialState in H. inv_bind H. inv_bind H.
  destruct seeds as [|s rest].
  - unfold firstPointState in H. inv_bind H. inv_bind H. inv_bind H. inv_bind H.
    inversion H; subst. cbn. auto.
  - destruct (existingLoop_account _ _ _ _ H) as (Hn & Hd & Hp).
    apply existingLoop_spec in H. destruct H as (Ho & _ & Hq).
    cbn [numberOfPoints draws processed outputList processQueue] in *.
    rewrite Ho, Hq, Hn, Hd, Hp, app_nil_r. cbn. auto.
Qed.

Lemma excludeAll_length (sections : list MapSection) (points : ListOfPoints) :
  (List.length (excludeAll sections points) <= List.length points)%nat.
Proof.
  revert points. induction sections as [|s rest IH]; intros points.
  - cbn. lia.
  - rewrite excludeAll_cons. etransitivity; [apply IH|]. apply filter_length_le.
Qed.

Lemma generationLoop_account (m : Z) (mapDimensions : dimension2du) (max : Z)
  (rs : RandomSource) (seeds : list vector2di) (fuel : nat) (st : LoopState) :
  generationLoop m mapDimensions max rs seeds fuel = Returned st ->
  processed st ++ processQueue st = seeds ++ outputList st /\
  Z.of_nat (List.length (outputList st))
  = numberOfPoints st + match seeds with [] => 1 | _ => 0 end /\
  (draws st <= POINTS_PER_LOOP * List.length (processed st))%nat /\
  ((max <? MAX_INT) = false ->
   draws st = (POINTS_PER_LOOP * List.length (processed st))%nat) /\
  ((max <? MAX_INT) = true -> numberOfPoints st <= Z.max 0 max).
Proof.
  intros H. unfold generationLoop in H. inv_bind H. rename v into st0.
  destruct (initialState_account _ _ _ _ _ E) as (Hn0 & Hd0 & Hp0 & Hq0 & Hl0).
  destruct (whileLoop_account _ _ _ _ _ _ _ H)
    as (k & done & Ho & Hp & Hq & Hn & Hd & Hu & Hc).
  rewrite Hp0 in Hp. cbn [app] in Hp. rewrite Hd0 in Hd, Hu. cbn [Nat.add] in Hd, Hu.
  rewrite Hn0 in Hn, Hc. rewrite Hp.
  split; [rewrite Hq, Hq0, Ho, app_assoc; reflexivity|].
  split.
  { rewrite Ho, length_app, Nat2Z.inj_add, Hl0, Hn.
    destruct seeds; [change (Z.of_nat 1) with 1 | change (Z.of_nat 0) with 0]; lia. }
  split; [exact Hd|]. split; [exact Hu|].
  intros Hm. apply Hc; [exact Hm | lia].
Qed.

(** ** The number of passes *)

(** Every pass of the [while] loop takes one point from the queue, and the
    points pushed are counted by [numberOfPoints], which the loop
    condition keeps below the cap: a loop entered with [q] points in the
    queue and a counter [n] makes at most [q + (maxNumberOfPoints - n)]
    passes. *)
Lemma whileLoop_enough_fuel (m : Z) (mapDimensions : dimension2du) (max : Z)
  (rs : RandomSource) (fuel : nat) (st : LoopState) :
  (List.length (processQueue st) + Z.to_nat (max - numberOfPoints st) <= fuel)%nat ->
  whileLoop m mapDimensions max rs fuel st <> OutOfFuel.
Proof.
  revert st. induction fuel as [|fuel IH]; intros st Hf; cbn [whileLoop].
  - destruct (whileCondition max st) eqn:Ec; [|discriminate].
    unfold whileCondition in Ec. destruct (processQueue st); [discriminate|].
    cbn [List.length] in Hf. lia.
  - destruct (whileCondition max st) eqn:Ec; [|discriminate].
    apply bind_not_fuel; [apply whileBody_not_fuel|]. intros st' Hb.
    destruct (whileBody_account _ _ _ _ _ _ Hb)
      as (cur & rest & k & Hq & Hq' & _ & Hn & _).
    unfold whileCondition in Ec. rewrite Hq in Ec. cbn [negb andb] in Ec.
    apply Z.ltb_lt in Ec.
    destruct (Z_lt_ge_dec (numberOfPoints st') max) as [Hlt|Hge].
    + apply IH. rewrite Hq', length_app. rewrite Hq in Hf. cbn [List.length] in Hf.
      lia.
    + destruct fuel as [|fuel']; cbn [whileLoop];
        unfold whileCondition;
        replace (numberOfPoints st' <? max) with false
          by (symmetry; apply Z.ltb_ge; lia);
        rewrite andb_false_r; discriminate.
Qed.

Lemma generationLoop_enough_fuel (m : Z) (mapDimensions : dimension2du) (max : Z)
  (rs : RandomSource) (seeds : list vector2di) (fuel : nat) :
  (S (List.length seeds) + Z.to_nat max <= fuel)%nat ->
  generationLoop m mapDimensions max rs seeds fuel <> OutOfFuel.
Proof.
  intros Hf. unfold generationLoop.
  apply bind_not_fuel; [apply initialState_not_fuel|]. intros st0 E.
  destruct (initialState_account _ _ _ _ _ E) as (Hn & _ & _ & Hq & Hl).
  apply whileLoop_enough_fuel. rewrite Hn, Hq, length_app, Hl, Z.sub_0_r.
  destruct seeds; cbn [List.length] in *; lia.
Qed.

(** ** A grid that is not square *)

(** The tiles of the coordinates 39 to 60, for a minimum distance of 10. *)
Lemma wide_map_tiles (x t : Z) :
  39 <= x <= 60 -> int_div_cell x (pointGridCellSize 10) = Returned t -> 5 <= t.
Proof.
  intros Hx H.
  assert (Hall : forallb (fun n => match int_div_cell (Z.of_nat n) (pointGridCellSize 10) with
                                   | Returned t => 5 <=? t
                                   | _ => false
                                   end) (seq 39 22) = true)
    by (vm_compute; reflexivity).
  rewrite forallb_forall in Hall.
  specialize (Hall (Z.to_nat x)). rewrite Z2Nat.id in Hall by lia.
  rewrite H in Hall. apply Z.leb_le. apply Hall. apply in_seq. lia.
Qed.

(** On the map of 100 by 10 every call without existing points leaves the
    storage of the grid at the store of the first point, whatever the
    random source draws: the first point has [x >= 39], so its tile has
    [X >= 5], and the grid has 2 rows. *)
Lemma wide_map_undefined (max : Z) (rs : RandomSource)
  (sections : list MapSection) (fuel : nat) :
  valid_first rs ->
  GeneratePoints 10 mapWide max rs sections [] fuel = Undefined.
Proof.
  intros [Hu Hv].
  assert (Hinit : initialState 10 mapWide rs [] = Undefined).
  { unfold initialState.
    assert (Ew : int_ceil_div_cell (Width mapWide) (pointGridCellSize 10) = Returned 15)
      by (vm_compute; reflexivity).
    assert (Eh : int_ceil_div_cell (Height mapWide) (pointGridCellSize 10) = Returned 2)
      by (vm_compute; reflexivity).
    rewrite Ew, Eh. cbn [bind]. unfold firstPointState.
    destruct (firstPointRange (Width mapWide) (firstU rs))
      as [x| |] eqn:Ex; cbn [bind];
      [|reflexivity|exfalso; exact (firstPointRange_not_fuel _ _ Ex)].
    destruct (firstPointRange (Height mapWide) (firstV rs))
      as [y| |] eqn:Ey; cbn [bind];
      [|reflexivity|exfalso; exact (firstPointRange_not_fuel _ _ Ey)].
    apply firstPointRange_bounds in Ex; [|cbn; lia|exact Hu].
    cbn [Width mapWide] in Ex.
    destruct (PointToGridTile (mkVector x y) (pointGridCellSize 10)) as [t| |] eqn:Et;
      cbn [bind]; [|reflexivity|exfalso; exact (PointToGridTile_not_fuel _ _ Et)].
    unfold PointToGridTile in Et. cbn [X Y] in Et. inv_bind Et. inv_bind Et.
    inversion Et; subst t; clear Et.
    apply wide_map_tiles in E; [|lia].
    destruct (gridStore (initGrid 15 2) (mkVector v v0) (mkVector x y))
      as [g| |] eqn:Eg; cbn [bind];
      [|reflexivity|exfalso; exact (gridStore_not_fuel _ _ _ Eg)].
    apply gridStore_initGrid in Eg. cbn [X Y] in Eg. lia. }
  unfold GeneratePoints, GeneratePointsIO, generationLoop.
  rewrite Hinit. reflexivity.
Qed.

(** ** The example runs *)

Lemma sourceEast_valid : valid_first sourceEast.
Proof. unfold valid_first, unit_fraction, Qle. cbn. lia. Qed.

Lemma map100_wf : wf_dimension map100.
Proof. unfold wf_dimension. cbn. lia. Qed.

Lemma sourceEast_run :
  GeneratePoints 10 map100 MAX_INT sourceEast [] [] 300
  = Returned [mkVector 50 50; mkVector 62 50; mkVector 74 50;
              mkVector 86 50; mkVector 98 50].
Proof. vm_compute. reflexivity. Qed.


Lemma stateEast_run :
  generationLoop 10 map100 MAX_INT sourceEast [] 300 = Returned stateEast.
Proof. vm_compute. reflexivity. Qed.

Lemma stateEast_output :
  outputList stateEast
  = [mkVector 50 50; mkVector 62 50; mkVector 74 50; mkVector 86 50; mkVector 98 50].
Proof. vm_compute. reflexivity. Qed.


Lemma seedsTwo_run :
  GeneratePoints 10 map100 5 sourceEast [] seedsTwo 300
  = Returned [mkVector 22 10; mkVector 34 10; mkVector 46 10; mkVector 58 10;
              mkVector 70 10].
Proof. vm_compute. reflexivity. Qed.

(** * Properties of the specification *)

(** ** Minimum distance *)

(** C1.  Two points of a returned list that are closer than the minimum
    distance.  With the minimum distance 10089 and the existing point
    (0,0), the candidate (7134,7134) is on the tile of (0,0); its distance
    from (0,0) is below 10089, but [getDistanceFrom] returns 10089 (the
    square root is taken of a [float] and rounds up), so the candidate is
    accepted and replaces (0,0) in the grid.  The next candidate, (0,0)
    again, is accepted in the same way and replaces (7134,7134) in the
    grid.  The third candidate, (7135,7134), is then compared with (0,0)
    alone and accepted.  The call returns the three points: (7134,7134)
    and (0,0) are less than 10089 apart, and (7134,7134) and (7135,7134)
    are 1 apart. *)
Theorem C1_points_closer_than_minimum :
  GeneratePoints 10089 mapLarge 3 sourceDiagonal [] seedsOrigin 10
  = Returned [mkVector 7134 7134; mkVector 0 0; mkVector 7135 7134] /\
  (PointToGridTile (mkVector 0 0) (pointGridCellSize 10089)
   = Returned (mkVector 0 0) /\
   PointToGridTile (mkVector 7134 7134) (pointGridCellSize 10089)
   = Returned (mkVector 0 0) /\
   PointToGridTile (mkVector 7135 7134) (pointGridCellSize 10089)
   = Returned (mkVector 1 0)) /\
  (getDistanceFrom (mkVector 7134 7134) (mkVector 0 0) = Returned 10089 /\
   getDistanceFrom (mkVector 0 0) (mkVector 7134 7134) = Returned 10089 /\
   getDistanceFrom (mkVector 7135 7134) (mkVector 0 0) = Returned 10089) /\
  (dist2 (mkVector 7134 7134) (mkVector 0 0) = 101787912 /\
   10089 * 10089 = 101787921 /\
   (distance (mkVector 7134 7134) (mkVector 0 0) < IZR 10089)%R) /\
  (dist2 (mkVector 7134 7134) (mkVector 7135 7134) = 1 /\
   (distance (mkVector 7134 7134) (mkVector 7135 7134) < IZR 10089)%R).
Proof.
  split; [vm_compute; reflexivity|].
  split; [repeat split; vm_compute; reflexivity|].
  split; [repeat split; vm_compute; reflexivity|].
  split.
  - split; [reflexivity|]. split; [reflexivity|].
    apply distance_lt; [lia|]. vm_compute. reflexivity.
  - split; [reflexivity|].
    apply distance_lt; [lia|]. vm_compute. reflexivity.
Qed.

(** ** Bounds *)

(** C2.  With positive map dimensions every point of the returned list,
    the first point included, satisfies [0 <= x < Width] and
    [0 <= y < Height]. *)
Theorem C2_bounds (m : Z) (mapDimensions : dimension2du) (max : Z)
  (rs : RandomSource) (sections : list MapSection) (seeds : list vector2di)
  (fuel : nat) (out : ListOfPoints) :
  0 < Width mapDimensions < 4294967296 ->
  0 < Height mapDimensions < 4294967296 ->
  (seeds = [] -> valid_first rs) ->
  GeneratePoints m mapDimensions max rs sections seeds fuel = Returned out ->
  forall p, In p out ->
    0 <= X p < Width mapDimensions /\ 0 <= Y p < Height mapDimensions.
Proof.
  intros Hw Hh Hv H p Hp.
  apply GeneratePoints_Returned in H. destruct H as (st & Hst & ->).
  apply excludeAll_In in Hp. destruct Hp as [Hp _].
  unfold generationLoop in Hst. inv_bind Hst.
  assert (Hwf : wf_dimension mapDimensions) by (split; lia).
  apply initialState_bounds in E; auto.
  pose proof (whileLoop_bounds _ _ _ _ _ _ _ Hwf E Hst) as Hall.
  rewrite Forall_forall in Hall. exact (Hall p Hp).
Qed.

Lemma C2_witness :
  0 < Width map100 < 4294967296 /\
  0 < Height map100 < 4294967296 /\
  (@nil vector2di = [] -> valid_first sourceEast) /\
  GeneratePoints 10 map100 MAX_INT sourceEast [] [] 300
  = Returned [mkVector 50 50; mkVector 62 50; mkVector 74 50;
              mkVector 86 50; mkVector 98 50] /\
  (0 <= X (mkVector 98 50) < Width map100 /\
   0 <= Y (mkVector 98 50) < Height map100).
Proof.
  assert (Hw : 0 < Width map100 < 4294967296) by (cbn; lia).
  assert (Hh : 0 < Height map100 < 4294967296) by (cbn; lia).
  split; [exact Hw|]. split; [exact Hh|].
  split; [intros _; exact sourceEast_valid|].
  split; [exact sourceEast_run|].
  apply (C2_bounds 10 map100 MAX_INT sourceEast [] [] 300 _
           Hw Hh (fun _ => sourceEast_valid) sourceEast_run).
  simpl. tauto.
Defined.

(** ** Capped mode *)

(** C3.  In capped mode the front of the queue is popped after every pass
    of the [while] loop: with the existing points (10,10) and (90,90) and
    a cap of 5 the second pass generates its candidates around (90,90),
    and the later passes around generated points. *)
Theorem C3_capped_mode_pops :
  popCondition 5 = true /\
  (st <- generationLoop 10 map100 5 sourceEast seedsTwo 300 ;;
   Returned (processed st, outputList st))
  = Returned ([mkVector 10 10; mkVector 90 90; mkVector 22 10; mkVector 34 10;
               mkVector 46 10; mkVector 58 10],
              [mkVector 22 10; mkVector 34 10; mkVector 46 10; mkVector 58 10;
               mkVector 70 10]).
Proof. split; vm_compute; reflexivity. Qed.

(** ** Existing points *)

(** C4.  Two existing points on one tile: the second, (10,10), replaces
    the first, (12,12), in the grid, and the point (20,10) is generated at
    distance 10 of (10,10) and closer than 10 to (12,12). *)
Theorem C4_point_near_existing_point :
  PointToGridTile (mkVector 12 12) (pointGridCellSize 10)
  = PointToGridTile (mkVector 10 10) (pointGridCellSize 10) /\
  GeneratePoints 10 map100 MAX_INT sourceFarNear [] seedsClose 300
  = Returned [mkVector 30 12; mkVector 20 10; mkVector 40 12; mkVector 50 12;
              mkVector 60 12; mkVector 70 12; mkVector 80 12; mkVector 90 12] /\
  (getDistanceFrom (mkVector 20 10) (mkVector 12 12) = Returned 8 /\ 8 < 10) /\
  ~ (IZR 10 <= distance (mkVector 20 10) (mkVector 12 12))%R.
Proof.
  split; [vm_compute; reflexivity|].
  split; [vm_compute; reflexivity|].
  split; [split; [vm_compute; reflexivity | lia]|].
  assert (H : (distance (mkVector 20 10) (mkVector 12 12) < IZR 10)%R).
  { apply distance_lt; [lia|]. vm_compute. reflexivity. }
  lra.
Qed.

(** ** Exclusion zones *)



(** ** The unsupported shape *)

(** C6.  For a section of shape [eEllipse], [InsideSection] prints its
    message and answers [false]; [ExcludeSection] then removes no point;
    and [GeneratePoints] returns what it returns without that section. *)
Theorem C6_ellipse_is_skipped (m : Z) (mapDimensions : dimension2du) (max : Z)
  (rs : RandomSource) (before after : list MapSection)
  (center : vector2di) (size : dimension2du) (seeds : list vector2di)
  (fuel : nat) :
  let ellipse := mkSection eEllipse center size in
  (forall p, InsideSection p ellipse = (false, [ellipse_message])) /\
  (forall points, fst (ExcludeSection points ellipse) = points) /\
  GeneratePoints m mapDimensions max rs (before ++ ellipse :: after) seeds fuel
  = GeneratePoints m mapDimensions max rs (before ++ after) seeds fuel.
Proof.
  intros ellipse.
  assert (Hin : forall p, InsideSection p ellipse = (false, [ellipse_message]))
    by reflexivity.
  assert (Hex : forall points, fst (ExcludeSection points ellipse) = points).
  { intros points. rewrite ExcludeSection_filter. apply filter_all.
    intros p. unfold kept. rewrite Hin. reflexivity. }
  split; [exact Hin|]. split; [exact Hex|].
  rewrite !GeneratePoints_unfold.
  destruct (generationLoop m mapDimensions max rs seeds fuel); cbn [bind];
    try reflexivity.
  f_equal. rewrite !excludeAll_app, excludeAll_cons.
  rewrite <- ExcludeSection_filter, Hex. reflexivity.
Qed.

(** ** Validation of the arguments *)

Lemma lastOnTile_In (m : Z) (t : vector2di) (points : list vector2di) (q : vector2di) :
  lastOnTile m t points = Some q ->
  In q points /\ PointToGridTile q (pointGridCellSize m) = Returned t.
Proof.
  induction points as [|p rest IH]; cbn [lastOnTile]; [discriminate|].
  destruct (lastOnTile m t rest) as [q'|].
  - intros H. inversion H; subst q'. destruct (IH eq_refl) as [Hin Ht].
    split; [right; exact Hin | exact Ht].
  - destruct (onTile m t p) eqn:Eo; [|discriminate].
    intros H. inversion H; subst q. split; [left; reflexivity|].
    unfold onTile in Eo.
    destruct (PointToGridTile p (pointGridCellSize m)) as [t'| |]; try discriminate.
    apply vector2di_eqb_eq in Eo. subst t'. reflexivity.
Qed.






(** ** Termination *)

(** C8.  The loop ends, whatever the random source draws: every pass
    takes a point from the queue and the counter of the points pushed
    stays below the cap, so [existingPoints.size() + 1 + maxNumberOfPoints]
    passes suffice, and at the exit the queue is empty or the cap is
    reached.  But the call need not return: on the map of 100 by 10, with a
    minimum distance of 10, the store of the first point is outside the
    rows of the grid, for every first point that [Range] can deliver. *)
Theorem C8_loop_ends_call_need_not_return (m : Z) (mapDimensions : dimension2du)
  (max : Z) (rs : RandomSource) (sections : list MapSection)
  (seeds : list vector2di) (fuel : nat) :
  (S (List.length seeds) + Z.to_nat max <= fuel)%nat ->
  GeneratePoints m mapDimensions max rs sections seeds fuel <> OutOfFuel /\
  (forall st, generationLoop m mapDimensions max rs seeds fuel = Returned st ->
              processQueue st = [] \/ max <= numberOfPoints st) /\
  (valid_first rs ->
   0 < 10 /\ 0 < Width mapWide /\ 0 < Height mapWide /\
   GeneratePoints 10 mapWide max rs sections [] fuel = Undefined).
Proof.
  intros Hf. split; [|split].
  - rewrite GeneratePoints_fuel. apply generationLoop_enough_fuel. exact Hf.
  - intros st H. unfold generationLoop in H. inv_bind H.
    apply whileLoop_exit in H. apply whileCondition_false. exact H.
  - intros Hv. split; [lia|]. split; [cbn; lia|]. split; [cbn; lia|].
    apply wide_map_undefined. exact Hv.
Qed.

Lemma C8_witness :
  (S (List.length seedsTwo) + Z.to_nat 5 <= 300)%nat /\
  (GeneratePoints 10 map100 5 sourceEast [] seedsTwo 300 <> OutOfFuel /\
   (forall st, generationLoop 10 map100 5 sourceEast seedsTwo 300 = Returned st ->
               processQueue st = [] \/ 5 <= numberOfPoints st) /\
   (valid_first sourceEast ->
    0 < 10 /\ 0 < Width mapWide /\ 0 < Height mapWide /\
    GeneratePoints 10 mapWide 5 sourceEast [] [] 300 = Undefined)).
Proof.
  assert (Hf : (S (List.length seedsTwo) + Z.to_nat 5 <= 300)%nat) by (cbn; lia).
  split; [exact Hf|].
  exact (C8_loop_ends_call_need_not_return 10 map100 5 sourceEast [] seedsTwo 300 Hf).
Defined.

(** ** The sentinel *)

(** C9.  In every state a call with existing points inside the map
    passes through, each tile of the grid holds the sentinel or a point
    stored before (an existing point or a point of the output list); every
    stored point lies in the map and so differs from the sentinel: the
    test [otherPoint != vector2di(-1, -1)] is true of it. *)
Theorem C9_sentinel (m : Z) (mapDimensions : dimension2du) (max : Z)
  (rs : RandomSource) (seeds : list vector2di) (st : LoopState) :
  wf_dimension mapDimensions ->
  Forall (InMap mapDimensions) seeds ->
  (seeds = [] -> valid_first rs) ->
  reaches m mapDimensions max rs seeds st ->
  (forall t q, gridAt (pointGrid st) t = Returned q ->
               q = sentinel \/ In q (seeds ++ outputList st)) /\
  (forall q, In q (seeds ++ outputList st) ->
             InMap mapDimensions q /\ vector2di_eqb q sentinel = false).
Proof.
  intros Hwf Hs Hv Hr.
  assert (Hinv : sentinel_inv mapDimensions seeds st)
    by (eapply reaches_sentinel_inv; eassumption).
  destruct Hinv as [Hout Hg].
  split; [exact Hg|].
  intros q Hq.
  assert (Hin : InMap mapDimensions q).
  { rewrite Forall_forall in Hs, Hout.
    apply in_app_or in Hq. destruct Hq; auto. }
  split; [exact Hin|].
  destruct (vector2di_eqb q sentinel) eqn:E; [|reflexivity].
  apply vector2di_eqb_eq in E. exfalso. exact (InMap_not_sentinel _ _ Hin E).
Qed.

Lemma C9_witness :
  wf_dimension map100 /\
  Forall (InMap map100) [] /\
  (@nil vector2di = [] -> valid_first sourceEast) /\
  reaches 10 map100 MAX_INT sourceEast [] stateEast /\
  ((forall t q, gridAt (pointGrid stateEast) t = Returned q ->
                q = sentinel \/ In q ([] ++ outputList stateEast)) /\
   (forall q, In q ([] ++ outputList stateEast) ->
              InMap map100 q /\ vector2di_eqb q sentinel = false)).
Proof.
  assert (Hr : reaches 10 map100 MAX_INT sourceEast [] stateEast)
    by (apply (generationLoop_reaches _ _ _ _ _ 300); exact stateEast_run).
  split; [exact map100_wf|]. split; [constructor|].
  split; [intros _; exact sourceEast_valid|]. split; [exact Hr|].
  exact (C9_sentinel 10 map100 MAX_INT sourceEast [] stateEast
           map100_wf (Forall_nil _) (fun _ => sourceEast_valid) Hr).
Defined.

(** ** Grid accesses *)

(** C10.  On a map of 100 by 10 the grid has 2 rows of 15 tiles; the first
    point (50,5) is on tile (7,0), inside the grid dimensions, and the
    store [grid[7][0]] is outside the 2 rows allocated. *)
Theorem C10_wide_map_out_of_range :
  int_ceil_div_cell (Width mapWide) (pointGridCellSize 10) = Returned 15 /\
  int_ceil_div_cell (Height mapWide) (pointGridCellSize 10) = Returned 2 /\
  initGrid 15 2 = mkGrid (repeat (repeat sentinel 15) 2) (mkDimension 15 2) /\
  PointToGridTile (mkVector 50 5) (pointGridCellSize 10) = Returned (mkVector 7 0) /\
  InsideRectangle (mkVector 7 0) (mkVector 0 0) (gridDimensions (initGrid 15 2)) = true /\
  gridStore (initGrid 15 2) (mkVector 7 0) (mkVector 50 5) = Undefined /\
  GeneratePoints 10 mapWide MAX_INT sourceEast [] [] 300 = Undefined.
Proof. repeat split; vm_compute; reflexivity. Qed.

(** * Further properties of the code *)

(** ** Accounting of the runs *)

(** X1.  In capped mode ([maxNumberOfPoints] below [MAX_INT]) the [for]
    loop breaks at the first accepted candidate, so a pass of the [while]
    loop accepts at most one point and the counter never passes the cap:
    the returned list holds at most [maxNumberOfPoints] points, and one
    more, the first point, when no existing points were passed in.  A cap
    of zero or less leaves no generated point. *)
Theorem capped_output_length (m : Z) (mapDimensions : dimension2du) (max : Z)
  (rs : RandomSource) (sections : list MapSection) (seeds : list vector2di)
  (fuel : nat) (out : ListOfPoints) :
  max < MAX_INT ->
  GeneratePoints m mapDimensions max rs sections seeds fuel = Returned out ->
  Z.of_nat (List.length out)
  <= Z.max 0 max + match seeds with [] => 1 | _ => 0 end.
Proof.
  intros Hmax H. apply GeneratePoints_Returned in H. destruct H as (st & Hst & ->).
  destruct (generationLoop_account _ _ _ _ _ _ _ Hst) as (_ & Hl & _ & _ & Hc).
  assert (Hcap : (max <? MAX_INT) = true) by (apply Z.ltb_lt; exact Hmax).
  specialize (Hc Hcap).
  pose proof (excludeAll_length sections (outputList st)). lia.
Qed.

Lemma capped_output_length_witness :
  5 < MAX_INT /\
  GeneratePoints 10 map100 5 sourceEast [] seedsTwo 300
  = Returned [mkVector 22 10; mkVector 34 10; mkVector 46 10; mkVector 58 10;
              mkVector 70 10] /\
  Z.of_nat (List.length [mkVector 22 10; mkVector 34 10; mkVector 46 10;
                         mkVector 58 10; mkVector 70 10])
  <= Z.max 0 5 + match seedsTwo with [] => 1 | _ => 0 end.
Proof.
  assert (Hmax : 5 < MAX_INT) by (unfold MAX_INT; lia).
  split; [exact Hmax|]. split; [exact seedsTwo_run|].
  exact (capped_output_length 10 map100 5 sourceEast [] seedsTwo 300 _
           Hmax seedsTwo_run).
Defined.

(** X2.  The process queue is first in, first out in every mode: the
    points taken from the front of the queue so far, followed by the
    queue, are the existing points followed by the output list.  So the
    existing points are processed first, in their order, then the
    generated points in the order of their acceptance, each once: the
    pass number [k] of the [while] loop processes the element number [k]
    of that list.  When the loop ends below the cap every one of them was
    processed. *)
Theorem queue_is_first_in_first_out (m : Z) (mapDimensions : dimension2du)
  (max : Z) (rs : RandomSource) (seeds : list vector2di) (fuel : nat)
  (st : LoopState) :
  generationLoop m mapDimensions max rs seeds fuel = Returned st ->
  processed st ++ processQueue st = seeds ++ outputList st /\
  (forall k p, nth_error (processed st) k = Some p ->
               nth_error (seeds ++ outputList st) k = Some p) /\
  (numberOfPoints st < max -> processed st = seeds ++ outputList st).
Proof.
  intros H.
  destruct (generationLoop_account _ _ _ _ _ _ _ H) as (Hq & _).
  split; [exact Hq|]. split.
  - intros k p Hk. rewrite <- Hq. rewrite nth_error_app1; [exact Hk|].
    apply nth_error_Some. congruence.
  - intros Hlt. unfold generationLoop in H. inv_bind H.
    apply whileLoop_exit, whileCondition_false in H.
    destruct H as [He|He]; [|lia].
    rewrite He, app_nil_r in Hq. exact Hq.
Qed.

Lemma queue_is_first_in_first_out_witness :
  generationLoop 10 map100 MAX_INT sourceEast [] 300 = Returned stateEast /\
  (processed stateEast ++ processQueue stateEast = [] ++ outputList stateEast /\
   (forall k p, nth_error (processed stateEast) k = Some p ->
                nth_error ([] ++ outputList stateEast) k = Some p) /\
   (numberOfPoints stateEast < MAX_INT ->
    processed stateEast = [] ++ outputList stateEast)).
Proof.
  split; [exact stateEast_run|].
  exact (queue_is_first_in_first_out 10 map100 MAX_INT sourceEast [] 300 stateEast
           stateEast_run).
Defined.

(** X3.  Every pass of the [while] loop generates at most
    [POINTS_PER_LOOP] candidates around the point it processes, and
    exactly that many in uncapped mode, where the [for] loop never
    breaks. *)
Theorem candidates_per_processed_point (m : Z) (mapDimensions : dimension2du)
  (max : Z) (rs : RandomSource) (seeds : list vector2di) (fuel : nat)
  (st : LoopState) :
  generationLoop m mapDimensions max rs seeds fuel = Returned st ->
  (draws st <= POINTS_PER_LOOP * List.length (processed st))%nat /\
  (MAX_INT <= max ->
   draws st = (POINTS_PER_LOOP * List.length (processed st))%nat).
Proof.
  intros H.
  destruct (generationLoop_account _ _ _ _ _ _ _ H) as (_ & _ & Hd & Hu & _).
  split; [exact Hd|]. intros Hmax. apply Hu. apply Z.ltb_ge. exact Hmax.
Qed.

Lemma candidates_per_processed_point_witness :
  generationLoop 10 map100 MAX_INT sourceEast [] 300 = Returned stateEast /\
  ((draws stateEast <= POINTS_PER_LOOP * List.length (processed stateEast))%nat /\
   (MAX_INT <= MAX_INT ->
    draws stateEast = (POINTS_PER_LOOP * List.length (processed stateEast))%nat)).
Proof.
  split; [exact stateEast_run|].
  exact (candidates_per_processed_point 10 map100 MAX_INT sourceEast [] 300 stateEast
           stateEast_run).
Defined.

(** X4.  In capped mode the loop stops at the cap or on an empty queue:
    when it ends with points left in the queue, the number of points
    generated is the cap, for a cap that is not negative. *)
Theorem capped_run_stops_at_the_cap (m : Z) (mapDimensions : dimension2du)
  (max : Z) (rs : RandomSource) (seeds : list vector2di) (fuel : nat)
  (st : LoopState) :
  0 <= max < MAX_INT ->
  generationLoop m mapDimensions max rs seeds fuel = Returned st ->
  processQueue st <> [] ->
  numberOfPoints st = max /\
  Z.of_nat (List.length (outputList st))
  = max + match seeds with [] => 1 | _ => 0 end.
Proof.
  intros Hmax H Hq.
  destruct (generationLoop_account _ _ _ _ _ _ _ H) as (_ & Hl & _ & _ & Hc).
  assert (Hcap : (max <? MAX_INT) = true) by (apply Z.ltb_lt; lia).
  specialize (Hc Hcap).
  unfold generationLoop in H. inv_bind H.
  apply whileLoop_exit, whileCondition_false in H.
  destruct H as [He|He]; [contradiction|].
  assert (Hn : numberOfPoints st = max) by lia.
  split; [exact Hn|]. rewrite Hl, Hn. reflexivity.
Qed.

Lemma capped_run_stops_at_the_cap_witness :
  0 <= 5 < MAX_INT /\
  generationLoop 10 map100 5 sourceEast seedsTwo 300 = Returned stateCapped /\
  processQueue stateCapped <> [] /\
  (numberOfPoints stateCapped = 5 /\
   Z.of_nat (List.length (outputList stateCapped))
   = 5 + match seedsTwo with [] => 1 | _ => 0 end).
Proof.
  assert (Hmax : 0 <= 5 < MAX_INT) by (unfold MAX_INT; lia).
  assert (Hrun : generationLoop 10 map100 5 sourceEast seedsTwo 300
                 = Returned stateCapped) by (vm_compute; reflexivity).
  assert (Hq : processQueue stateCapped <> []) by (vm_compute; discriminate).
  split; [exact Hmax|]. split; [exact Hrun|]. split; [exact Hq|].
  exact (capped_run_stops_at_the_cap 10 map100 5 sourceEast seedsTwo 300 stateCapped
           Hmax Hrun Hq).
Defined.

(** ** Runs that leave the storage of the grid *)

Lemma bind_Undefined {A B : Type} (r : result A) (k : A -> result B) :
  r <> OutOfFuel -> (forall a, r = Returned a -> k a = Undefined) ->
  bind r k = Undefined.
Proof.
  destruct r as [a| |]; cbn [bind]; intros Hr Hk.
  - apply Hk. reflexivity.
  - reflexivity.
  - congruence.
Qed.

Lemma initGrid_storage (gw gh : Z) (t : vector2di) :
  in_storage (initGrid gw gh) t <-> 0 <= X t < gh /\ 0 <= Y t < gw.
Proof.
  unfold in_storage, initGrid. cbn [grid]. split.
  - intros (Hx & Hy & row & Hr & Hl).
    apply nth_error_repeat_Some in Hr. destruct Hr as [-> Hr].
    rewrite repeat_length in Hl. lia.
  - intros [Hx Hy]. split; [lia|]. split; [lia|].
    exists (repeat sentinel (Z.to_nat gw)). split.
    + rewrite nth_error_repeat by lia. reflexivity.
    + rewrite repeat_length. lia.
Qed.

Lemma gridStore_in_storage (g : PointGrid2D) (t p : vector2di) :
  (exists g', gridStore g t p = Returned g') <-> in_storage g t.
Proof.
  split.
  - intros (g' & H). apply gridStore_Returned in H.
    destruct H as (Hx & Hy & row & Hr & Hl & _).
    split; [exact Hx|]. split; [exact Hy|]. exists row. auto.
  - apply gridStore_defined.
Qed.

Lemma gridStore_outside (g : PointGrid2D) (t p : vector2di) :
  ~ in_storage g t -> gridStore g t p = Undefined.
Proof.
  intros Hn. destruct (gridStore g t p) as [g'| |] eqn:E.
  - exfalso. apply Hn. apply (gridStore_in_storage g t p). eauto.
  - reflexivity.
  - exfalso. exact (gridStore_not_fuel _ _ _ E).
Qed.

Lemma gridAt_in_storage (g : PointGrid2D) (t : vector2di) :
  (exists q, gridAt g t = Returned q) <-> in_storage g t.
Proof.
  unfold gridAt, in_storage. split.
  - intros (q & H).
    destruct ((X t <? 0) || (Y t <? 0)) eqn:E; [discriminate|].
    apply orb_false_elim in E. destruct E as [Ex Ey].
    apply Z.ltb_ge in Ex, Ey. split; [exact Ex|]. split; [exact Ey|].
    destruct (nth_error (grid g) (Z.to_nat (X t))) as [row|]; [|discriminate].
    exists row. split; [reflexivity|].
    destruct (nth_error row (Z.to_nat (Y t))) eqn:Ec; [|discriminate].
    apply nth_error_Some. congruence.
  - intros (Hx & Hy & row & Hr & Hl).
    replace ((X t <? 0) || (Y t <? 0)) with false
      by (symmetry; apply orb_false_intro; apply Z.ltb_ge; assumption).
    rewrite Hr. apply nth_error_Some in Hl.
    destruct (nth_error row (Z.to_nat (Y t))) as [q|]; [eauto | congruence].
Qed.

(** A store leaves the shape of the storage as it is. *)
Lemma in_storage_store_iff (g g' : PointGrid2D) (t t' p : vector2di) :
  gridStore g t p = Returned g' -> (in_storage g' t' <-> in_storage g t').
Proof.
  intros H. split; [|apply (in_storage_store _ _ _ _ _ H)].
  intros (Hx & Hy & row & Hr & Hl).
  apply gridStore_Returned in H. destruct H as (_ & _ & row0 & Hr0 & Hl0 & ->).
  split; [exact Hx|]. split; [exact Hy|]. cbn [grid] in Hr.
  destruct (Nat.eq_dec (Z.to_nat (X t)) (Z.to_nat (X t'))) as [E|E].
  - rewrite <- E in *.
    rewrite nth_error_replace_nth_eq in Hr by (apply nth_error_Some; congruence).
    inversion Hr; subst row. rewrite length_replace_nth in Hl.
    exists row0. auto.
  - rewrite nth_error_replace_nth_ne in Hr by exact E. exists row. auto.
Qed.

Lemma int_ceil_div_cell_no_cell (w g : Z) :
  int_ceil_div_cell w (pointGridCellSize 0) <> Returned g.
Proof.
  assert (Ec : pointGridCellSize 0 = 0%Q) by (vm_compute; reflexivity).
  rewrite Ec. unfold int_ceil_div_cell. intros H. inv_bind H.
  unfold float_div in H. cbn in H. discriminate.
Qed.

(** The existing points are stored unchecked: the first one whose tile is
    not in the storage ends the run. *)
Lemma existingLoop_outside (m : Z) (points : list vector2di) (st : LoopState)
  (p : vector2di) :
  In p points ->
  (forall t, PointToGridTile p (pointGridCellSize m) = Returned t ->
             ~ in_storage (pointGrid st) t) ->
  existingLoop m points st = Undefined.
Proof.
  revert st. induction points as [|q rest IH]; intros st Hin Hout; [destruct Hin|].
  cbn [existingLoop].
  apply bind_Undefined; [apply PointToGridTile_not_fuel|]. intros t Ht.
  apply bind_Undefined; [apply gridStore_not_fuel|]. intros g' Hg.
  destruct Hin as [->|Hin].
  - exfalso. apply (Hout t Ht). apply (gridStore_in_storage (pointGrid st) t p). eauto.
  - apply IH; [exact Hin|]. cbn [pointGrid]. intros t' Ht' Hs.
    apply (Hout t' Ht'). apply (in_storage_store_iff _ _ _ t' _ Hg). exact Hs.
Qed.

Lemma firstPointState_outside (m : Z) (mapDimensions : dimension2du)
  (rs : RandomSource) (g : PointGrid2D) :
  (forall t, ~ in_storage g t) ->
  firstPointState m mapDimensions rs g = Undefined.
Proof.
  intros Hout. unfold firstPointState.
  apply bind_Undefined; [apply firstPointRange_not_fuel|]. intros x _.
  apply bind_Undefined; [apply firstPointRange_not_fuel|]. intros y _.
  apply bind_Undefined; [apply PointToGridTile_not_fuel|]. intros t _.
  rewrite gridStore_outside by apply Hout. reflexivity.
Qed.

Lemma GeneratePoints_Undefined (m : Z) (mapDimensions : dimension2du) (max : Z)
  (rs : RandomSource) (sections : list MapSection) (seeds : list vector2di)
  (fuel : nat) :
  initialState m mapDimensions rs seeds = Undefined ->
  GeneratePoints m mapDimensions max rs sections seeds fuel = Undefined.
Proof.
  intros H. rewrite GeneratePoints_unfold. unfold generationLoop. rewrite H.
  reflexivity.
Qed.

Lemma initialState_no_storage (m : Z) (mapDimensions : dimension2du)
  (rs : RandomSource) (seeds : list vector2di) :
  (forall gw gh,
     int_ceil_div_cell (Width mapDimensions) (pointGridCellSize m) = Returned gw ->
     int_ceil_div_cell (Height mapDimensions) (pointGridCellSize m) = Returned gh ->
     gw <= 0 \/ gh <= 0) ->
  initialState m mapDimensions rs seeds = Undefined.
Proof.
  intros Hg. unfold initialState.
  apply bind_Undefined; [apply int_ceil_div_cell_not_fuel|]. intros gw Hgw.
  apply bind_Undefined; [apply int_ceil_div_cell_not_fuel|]. intros gh Hgh.
  assert (Hout : forall t, ~ in_storage (initGrid gw gh) t).
  { intros t Hs. apply initGrid_storage in Hs. destruct (Hg gw gh Hgw Hgh); lia. }
  destruct seeds as [|s rest].
  - apply firstPointState_outside. exact Hout.
  - apply (existingLoop_outside m (s :: rest) _ s); [left; reflexivity|].
    cbn [pointGrid]. intros t _. apply Hout.
Qed.

(** X5.  The arguments are not validated, and the degenerate ones end in
    undefined behaviour before the loop is entered: with a minimum
    distance of zero the cell size is zero and the grid dimensions are
    conversions of an infinity or a NaN to [int]; with a negative minimum
    distance, or with a map dimension of zero, the grid has no tile, and
    the first store into it (of the first point or of the first existing
    point) is out of range.  No call with such arguments returns a list. *)
Theorem degenerate_arguments_undefined (m : Z) (mapDimensions : dimension2du)
  (max : Z) (rs : RandomSource) (sections : list MapSection)
  (seeds : list vector2di) (fuel : nat) :
  m <= 0 \/ Width mapDimensions = 0 \/ Height mapDimensions = 0 ->
  GeneratePoints m mapDimensions max rs sections seeds fuel = Undefined.
Proof.
  intros H. apply GeneratePoints_Undefined, initialState_no_storage.
  unfold pointGridCellSize. intros gw gh Hgw Hgh.
  destruct H as [Hm|[Hw|Hh]].
  - destruct (Z.eq_dec m 0) as [->|Hne].
    + exfalso. exact (int_ceil_div_cell_no_cell _ _ Hgw).
    + left. apply (int_ceil_div_cell_nonpos m _ _ ltac:(lia) Hgw).
  - left. rewrite Hw in Hgw. apply int_ceil_div_cell_zero in Hgw. lia.
  - right. rewrite Hh in Hgh. apply int_ceil_div_cell_zero in Hgh. lia.
Qed.

Lemma degenerate_arguments_undefined_witness :
  (0 <= 0 \/ Width map100 = 0 \/ Height map100 = 0) /\
  GeneratePoints 0 map100 MAX_INT sourceEast [] [] 300 = Undefined.
Proof.
  assert (H : 0 <= 0 \/ Width map100 = 0 \/ Height map100 = 0) by (left; lia).
  split; [exact H|].
  exact (degenerate_arguments_undefined 0 map100 MAX_INT sourceEast [] [] 300 H).
Defined.

(** X6.  An existing point is stored at its tile without a bounds check:
    when the tile of one of the existing points is outside the rows and
    columns allocated ([gridHeight] rows of [gridWidth] tiles, indexed by
    [X] then [Y]), or is not a value of [int], the call is undefined and
    returns no list. *)
Theorem existing_point_off_grid_undefined (m : Z) (mapDimensions : dimension2du)
  (max : Z) (rs : RandomSource) (sections : list MapSection)
  (seeds : list vector2di) (fuel : nat) (gw gh : Z) (p : vector2di) :
  int_ceil_div_cell (Width mapDimensions) (pointGridCellSize m) = Returned gw ->
  int_ceil_div_cell (Height mapDimensions) (pointGridCellSize m) = Returned gh ->
  In p seeds ->
  (forall t, PointToGridTile p (pointGridCellSize m) = Returned t ->
             ~ (0 <= X t < gh /\ 0 <= Y t < gw)) ->
  GeneratePoints m mapDimensions max rs sections seeds fuel = Undefined.
Proof.
  intros Hgw Hgh Hin Hout. apply GeneratePoints_Undefined.
  unfold initialState. rewrite Hgw. cbn [bind]. rewrite Hgh. cbn [bind].
  destruct seeds as [|s rest]; [destruct Hin|].
  apply (existingLoop_outside m (s :: rest) _ p Hin). cbn [pointGrid].
  intros t Ht Hs. apply (Hout t Ht). apply initGrid_storage. exact Hs.
Qed.

(** An existing point to the right of the map of 100 by 100, on tile
    (28, 7) of a grid of 15 by 15 tiles. *)
Lemma existing_point_off_grid_undefined_witness :
  int_ceil_div_cell (Width map100) (pointGridCellSize 10) = Returned 15 /\
  int_ceil_div_cell (Height map100) (pointGridCellSize 10) = Returned 15 /\
  In (mkVector 200 50) [mkVector 200 50] /\
  (forall t, PointToGridTile (mkVector 200 50) (pointGridCellSize 10) = Returned t ->
             ~ (0 <= X t < 15 /\ 0 <= Y t < 15)) /\
  GeneratePoints 10 map100 MAX_INT sourceEast [] [mkVector 200 50] 300 = Undefined.
Proof.
  assert (Hw : int_ceil_div_cell (Width map100) (pointGridCellSize 10) = Returned 15)
    by (vm_compute; reflexivity).
  assert (Hh : int_ceil_div_cell (Height map100) (pointGridCellSize 10) = Returned 15)
    by (vm_compute; reflexivity).
  assert (Hin : In (mkVector 200 50) [mkVector 200 50]) by (left; reflexivity).
  assert (Hout : forall t,
             PointToGridTile (mkVector 200 50) (pointGridCellSize 10) = Returned t ->
             ~ (0 <= X t < 15 /\ 0 <= Y t < 15)).
  { intros t Ht. vm_compute in Ht. inversion Ht; subst t. cbn [X Y]. lia. }
  split; [exact Hw|]. split; [exact Hh|]. split; [exact Hin|]. split; [exact Hout|].
  exact (existing_point_off_grid_undefined 10 map100 MAX_INT sourceEast []
           [mkVector 200 50] 300 15 15 (mkVector 200 50) Hw Hh Hin Hout).
Defined.

(** X7.  The grid is allocated as [gridHeight] rows of [gridWidth] tiles
    and indexed [grid[tile.X][tile.Y]]: the tiles that the bounds check of
    [GetPointsAroundTile] lets through are those with [X < gridWidth] and
    [Y < gridHeight], the tiles that can be read or written are those with
    [X < gridHeight] and [Y < gridWidth].  The two agree on square grids
    only. *)
Theorem grid_rows_are_indexed_by_X (gw gh : Z) (t p : vector2di) :
  0 <= gw <= MAX_INT -> 0 <= gh <= MAX_INT ->
  MIN_INT <= X t <= MAX_INT -> MIN_INT <= Y t <= MAX_INT ->
  (InsideRectangle t (mkVector 0 0) (gridDimensions (initGrid gw gh)) = true <->
   0 <= X t < gw /\ 0 <= Y t < gh) /\
  ((exists q, gridAt (initGrid gw gh) t = Returned q) <->
   0 <= X t < gh /\ 0 <= Y t < gw) /\
  ((exists g', gridStore (initGrid gw gh) t p = Returned g') <->
   0 <= X t < gh /\ 0 <= Y t < gw).
Proof.
  intros Hgw Hgh Hx Hy. unfold MAX_INT, MIN_INT in *.
  split; [|split].
  - cbn [initGrid gridDimensions]. rewrite !u32_small by lia. split.
    + intros H. apply InsideRectangle_origin in H; cbn [Width Height];
        unfold MAX_INT, MIN_INT; try lia. exact H.
    + intros [Hx' Hy']. apply InsideRectangle_origin_intro; cbn [Width Height]; lia.
  - rewrite gridAt_in_storage. apply initGrid_storage.
  - rewrite gridStore_in_storage. apply initGrid_storage.
Qed.

Lemma grid_rows_are_indexed_by_X_witness :
  0 <= 15 <= MAX_INT /\ 0 <= 2 <= MAX_INT /\
  MIN_INT <= X (mkVector 7 0) <= MAX_INT /\ MIN_INT <= Y (mkVector 7 0) <= MAX_INT /\
  ((InsideRectangle (mkVector 7 0) (mkVector 0 0) (gridDimensions (initGrid 15 2)) = true <->
    0 <= X (mkVector 7 0) < 15 /\ 0 <= Y (mkVector 7 0) < 2) /\
   ((exists q, gridAt (initGrid 15 2) (mkVector 7 0) = Returned q) <->
    0 <= X (mkVector 7 0) < 2 /\ 0 <= Y (mkVector 7 0) < 15) /\
   ((exists g', gridStore (initGrid 15 2) (mkVector 7 0) (mkVector 50 5) = Returned g') <->
    0 <= X (mkVector 7 0) < 2 /\ 0 <= Y (mkVector 7 0) < 15)).
Proof.
  assert (H1 : 0 <= 15 <= MAX_INT) by (unfold MAX_INT; lia).
  assert (H2 : 0 <= 2 <= MAX_INT) by (unfold MAX_INT; lia).
  assert (H3 : MIN_INT <= X (mkVector 7 0) <= MAX_INT)
    by (unfold MIN_INT, MAX_INT; cbn; lia).
  assert (H4 : MIN_INT <= Y (mkVector 7 0) <= MAX_INT)
    by (unfold MIN_INT, MAX_INT; cbn; lia).
  split; [exact H1|]. split; [exact H2|]. split; [exact H3|]. split; [exact H4|].
  exact (grid_rows_are_indexed_by_X 15 2 (mkVector 7 0) (mkVector 50 5) H1 H2 H3 H4).
Defined.

(** ** Rectangles *)

Lemma u32_neg (z : Z) : -4294967296 <= z < 0 -> u32 z = z + 4294967296.
Proof.
  intros H. unfold u32. symmetry. apply (Z.mod_unique _ _ (-1)); lia.
Qed.

Lemma unsigned_comparison (p o w : Z) :
  MIN_INT <= p <= MAX_INT -> MIN_INT <= o ->
  0 <= w < 4294967296 -> o + w < 4294967296 -> o <= p ->
  (u32 p < u32 (o + w) <-> below_far_edge p (o + w)).
Proof.
  unfold MIN_INT, MAX_INT, below_far_edge. intros Hp Ho Hw He Hop.
  destruct (Z_lt_ge_dec p 0) as [Hp0|Hp0];
    destruct (Z_lt_ge_dec (o + w) 0) as [He0|He0];
    rewrite ?(u32_neg p), ?(u32_neg (o + w)), ?(u32_small p), ?(u32_small (o + w))
      by lia; lia.
Qed.

(** X8.  Containment in a rectangle, without machine arithmetic.  The
    near edge is compared in [int], the far edge [offset + dimension] is
    an unsigned value and the point is compared with it as unsigned.  For
    a far edge that is not negative this is [offset <= p < offset +
    dimension] for the points with a non-negative coordinate, and no point
    with a negative coordinate is inside; a rectangle whose far edge is
    negative contains, on that axis, every non-negative coordinate. *)
Theorem InsideRectangle_unsigned_far_edge (p offset : vector2di)
  (d : dimension2du) :
  MIN_INT <= X p <= MAX_INT -> MIN_INT <= Y p <= MAX_INT ->
  MIN_INT <= X offset -> MIN_INT <= Y offset ->
  wf_dimension d ->
  X offset + Width d < 4294967296 -> Y offset + Height d < 4294967296 ->
  (InsideRectangle p offset d = true <->
   (X offset <= X p /\ below_far_edge (X p) (X offset + Width d)) /\
   (Y offset <= Y p /\ below_far_edge (Y p) (Y offset + Height d))).
Proof.
  intros Hpx Hpy Hox Hoy [Hw Hh] Hex Hey.
  rewrite InsideRectangle_true.
  pose proof (unsigned_comparison (X p) (X offset) (Width d) Hpx Hox Hw Hex) as Ux.
  pose proof (unsigned_comparison (Y p) (Y offset) (Height d) Hpy Hoy Hh Hey) as Uy.
  tauto.
Qed.

Lemma InsideRectangle_unsigned_far_edge_witness :
  MIN_INT <= X (mkVector 50 50) <= MAX_INT /\
  MIN_INT <= Y (mkVector 50 50) <= MAX_INT /\
  MIN_INT <= X (mkVector (-12) (-12)) /\ MIN_INT <= Y (mkVector (-12) (-12)) /\
  wf_dimension (mkDimension 4 4) /\
  X (mkVector (-12) (-12)) + Width (mkDimension 4 4) < 4294967296 /\
  Y (mkVector (-12) (-12)) + Height (mkDimension 4 4) < 4294967296 /\
  (InsideRectangle (mkVector 50 50) (mkVector (-12) (-12)) (mkDimension 4 4) = true <->
   (X (mkVector (-12) (-12)) <= X (mkVector 50 50) /\
    below_far_edge (X (mkVector 50 50))
                   (X (mkVector (-12) (-12)) + Width (mkDimension 4 4))) /\
   (Y (mkVector (-12) (-12)) <= Y (mkVector 50 50) /\
    below_far_edge (Y (mkVector 50 50))
                   (Y (mkVector (-12) (-12)) + Height (mkDimension 4 4)))).
Proof.
  assert (H1 : MIN_INT <= X (mkVector 50 50) <= MAX_INT)
    by (unfold MIN_INT, MAX_INT; cbn; lia).
  assert (H2 : MIN_INT <= Y (mkVector 50 50) <= MAX_INT)
    by (unfold MIN_INT, MAX_INT; cbn; lia).
  assert (H3 : MIN_INT <= X (mkVector (-12) (-12))) by (unfold MIN_INT; cbn; lia).
  assert (H4 : MIN_INT <= Y (mkVector (-12) (-12))) by (unfold MIN_INT; cbn; lia).
  assert (H5 : wf_dimension (mkDimension 4 4)) by (unfold wf_dimension; cbn; lia).
  assert (H7 : X (mkVector (-12) (-12)) + Width (mkDimension 4 4) < 4294967296)
    by (cbn; lia).
  assert (H8 : Y (mkVector (-12) (-12)) + Height (mkDimension 4 4) < 4294967296)
    by (cbn; lia).
  repeat (split; [assumption|]).
  exact (InsideRectangle_unsigned_far_edge (mkVector 50 50) (mkVector (-12) (-12))
           (mkDimension 4 4) H1 H2 H3 H4 H5 H7 H8).
Defined.

(** ** Sections *)

Lemma InsideSection_behind_origin (section : MapSection) (p : vector2di) :
  shape section = eRectangle -> representable section ->
  X (centerTile section) - Width (dimensions section) / 2
  + Width (dimensions section) < 0 ->
  Y (centerTile section) - Height (dimensions section) / 2
  + Height (dimensions section) < 0 ->
  0 <= X p <= MAX_INT -> 0 <= Y p <= MAX_INT ->
  fst (InsideSection p section) = true.
Proof.
  intros Hs ((Hw & Hh) & Hcx & Hcy & Hox & Hoy) Hex Hey Hpx Hpy.
  unfold InsideSection. rewrite Hs. cbn [fst].
  assert (Hw2 : 0 <= Width (dimensions section) / 2) by (apply Z.div_pos; lia).
  assert (Hh2 : 0 <= Height (dimensions section) / 2) by (apply Z.div_pos; lia).
  rewrite !s32_small by (unfold MIN_INT, MAX_INT in *; lia).
  apply InsideRectangle_true. cbn [X Y].
  unfold MIN_INT, MAX_INT in *.
  rewrite (u32_small (X p)), (u32_small (Y p)) by lia.
  rewrite !u32_neg by lia. lia.
Qed.

(** X9.  For a rectangle section whose offset is a value of [int] and
    whose far edges are not negative, [InsideSection] is containment over
    the integers, [offset <= p < offset + dimensions] on both axes with
    the offset the centre minus half of the dimensions, for every point
    with non-negative coordinates: [ExcludeSection] then removes such a
    point exactly when the rectangle contains it. *)
Theorem InsideSection_is_containment (p : vector2di) (section : MapSection) :
  shape section = eRectangle -> representable section ->
  0 <= X (centerTile section) - Width (dimensions section) / 2
       + Width (dimensions section) < 4294967296 ->
  0 <= Y (centerTile section) - Height (dimensions section) / 2
       + Height (dimensions section) < 4294967296 ->
  0 <= X p <= MAX_INT -> 0 <= Y p <= MAX_INT ->
  (fst (InsideSection p section) = true <-> contains section p) /\
  (forall points,
     In p (fst (ExcludeSection points section)) <->
     In p points /\ ~ contains section p).
Proof.
  intros Hs ((Hw & Hh) & Hcx & Hcy & Hox & Hoy) Hex Hey Hpx Hpy.
  assert (Hw2 : 0 <= Width (dimensions section) / 2) by (apply Z.div_pos; lia).
  assert (Hh2 : 0 <= Height (dimensions section) / 2) by (apply Z.div_pos; lia).
  assert (Hiff : fst (InsideSection p section) = true <-> contains section p).
  { unfold InsideSection, contains. rewrite Hs. cbn [fst].
    rewrite !s32_small by (unfold MIN_INT, MAX_INT in *; lia).
    rewrite InsideRectangle_true. cbn [X Y].
    unfold MIN_INT, MAX_INT in *.
    rewrite (u32_small (X p)), (u32_small (Y p)) by lia.
    rewrite !u32_small by lia. lia. }
  split; [exact Hiff|].
  intros points. rewrite ExcludeSection_filter, filter_In. unfold kept.
  destruct (fst (InsideSection p section)) eqn:E; cbn [negb].
  - split; [intros [_ Hf]; discriminate|].
    intros [_ Hn]. exfalso. apply Hn, Hiff. reflexivity.
  - split; intros [Hin _]; (split; [exact Hin|]); [|reflexivity].
    intros Hc. apply Hiff in Hc. discriminate.
Qed.

Lemma InsideSection_is_containment_witness :
  shape rectangle20 = eRectangle /\ representable rectangle20 /\
  0 <= X (centerTile rectangle20) - Width (dimensions rectangle20) / 2
       + Width (dimensions rectangle20) < 4294967296 /\
  0 <= Y (centerTile rectangle20) - Height (dimensions rectangle20) / 2
       + Height (dimensions rectangle20) < 4294967296 /\
  0 <= X (mkVector 50 50) <= MAX_INT /\ 0 <= Y (mkVector 50 50) <= MAX_INT /\
  ((fst (InsideSection (mkVector 50 50) rectangle20) = true
    <-> contains rectangle20 (mkVector 50 50)) /\
   (forall points,
      In (mkVector 50 50) (fst (ExcludeSection points rectangle20)) <->
      In (mkVector 50 50) points /\ ~ contains rectangle20 (mkVector 50 50))).
Proof.
  assert (H1 : representable rectangle20).
  { unfold representable, wf_dimension, MIN_INT, MAX_INT. cbn. lia. }
  assert (H2 : 0 <= X (centerTile rectangle20) - Width (dimensions rectangle20) / 2
                    + Width (dimensions rectangle20) < 4294967296) by (cbn; lia).
  assert (H3 : 0 <= Y (centerTile rectangle20) - Height (dimensions rectangle20) / 2
                    + Height (dimensions rectangle20) < 4294967296) by (cbn; lia).
  assert (H4 : 0 <= X (mkVector 50 50) <= MAX_INT) by (unfold MAX_INT; cbn; lia).
  assert (H5 : 0 <= Y (mkVector 50 50) <= MAX_INT) by (unfold MAX_INT; cbn; lia).
  split; [reflexivity|]. split; [exact H1|]. split; [exact H2|]. split; [exact H3|].
  split; [exact H4|]. split; [exact H5|].
  exact (InsideSection_is_containment (mkVector 50 50) rectangle20
           eq_refl H1 H2 H3 H4 H5).
Defined.

Lemma generationLoop_bounds (m : Z) (mapDimensions : dimension2du) (max : Z)
  (rs : RandomSource) (seeds : list vector2di) (fuel : nat) (st : LoopState) :
  0 < Width mapDimensions < 4294967296 ->
  0 < Height mapDimensions < 4294967296 ->
  (seeds = [] -> valid_first rs) ->
  generationLoop m mapDimensions max rs seeds fuel = Returned st ->
  Forall (InMap mapDimensions) (outputList st).
Proof.
  intros Hw Hh Hv Hst. unfold generationLoop in Hst. inv_bind Hst.
  assert (Hwf : wf_dimension mapDimensions) by (split; lia).
  apply initialState_bounds in E; try lia; auto.
  exact (whileLoop_bounds _ _ _ _ _ _ _ Hwf E Hst).
Qed.

Lemma excludeAll_subset (sections : list MapSection) (section : MapSection)
  (points : ListOfPoints) :
  In section sections ->
  (forall p, In p points -> kept section p = false) ->
  excludeAll sections points = [].
Proof.
  intros Hin Hk.
  destruct (excludeAll sections points) as [|q rest] eqn:E; [reflexivity|].
  assert (Hq : In q (excludeAll sections points)) by (rewrite E; left; reflexivity).
  apply excludeAll_In in Hq. destruct Hq as [Hq Hall].
  specialize (Hall section Hin). rewrite (Hk q Hq) in Hall. discriminate.
Qed.

(** X10.  A rectangle section that lies behind the origin on both axes
    (its far edges are negative) is found to contain every point of the
    map, since its far edges are compared as unsigned values: with such a
    section among the excluded sections the call returns the empty list. *)
Theorem section_behind_origin_removes_all (m : Z) (mapDimensions : dimension2du)
  (max : Z) (rs : RandomSource) (sections : list MapSection)
  (seeds : list vector2di) (fuel : nat) (out : ListOfPoints)
  (section : MapSection) :
  0 < Width mapDimensions <= 2147483648 ->
  0 < Height mapDimensions <= 2147483648 ->
  (seeds = [] -> valid_first rs) ->
  In section sections -> shape section = eRectangle -> representable section ->
  X (centerTile section) - Width (dimensions section) / 2
  + Width (dimensions section) < 0 ->
  Y (centerTile section) - Height (dimensions section) / 2
  + Height (dimensions section) < 0 ->
  GeneratePoints m mapDimensions max rs sections seeds fuel = Returned out ->
  out = [].
Proof.
  intros Hw Hh Hv Hin Hs Hrep Hex Hey H.
  apply GeneratePoints_Returned in H. destruct H as (st & Hst & ->).
  apply generationLoop_bounds in Hst; try lia; auto.
  rewrite Forall_forall in Hst.
  apply (excludeAll_subset sections section _ Hin).
  intros p Hp. destruct (Hst p Hp) as [Hpx Hpy]. unfold kept.
  rewrite InsideSection_behind_origin; auto; unfold MAX_INT; lia.
Qed.

Lemma section_behind_origin_removes_all_witness :
  0 < Width map100 <= 2147483648 /\
  0 < Height map100 <= 2147483648 /\
  (@nil vector2di = [] -> valid_first sourceEast) /\
  In rectangleOutside [rectangleOutside] /\
  shape rectangleOutside = eRectangle /\
  representable rectangleOutside /\
  X (centerTile rectangleOutside) - Width (dimensions rectangleOutside) / 2
  + Width (dimensions rectangleOutside) < 0 /\
  Y (centerTile rectangleOutside) - Height (dimensions rectangleOutside) / 2
  + Height (dimensions rectangleOutside) < 0 /\
  GeneratePoints 10 map100 MAX_INT sourceEast [rectangleOutside] [] 300
  = Returned [] /\
  @nil vector2di = [].
Proof.
  assert (H1 : 0 < Width map100 <= 2147483648) by (cbn; lia).
  assert (H2 : 0 < Height map100 <= 2147483648) by (cbn; lia).
  assert (H3 : In rectangleOutside [rectangleOutside]) by (left; reflexivity).
  assert (H4 : representable rectangleOutside).
  { unfold representable, wf_dimension, MIN_INT, MAX_INT. cbn. lia. }
  assert (H5 : X (centerTile rectangleOutside)
               - Width (dimensions rectangleOutside) / 2
               + Width (dimensions rectangleOutside) < 0) by (cbn; lia).
  assert (H6 : Y (centerTile rectangleOutside)
               - Height (dimensions rectangleOutside) / 2
               + Height (dimensions rectangleOutside) < 0) by (cbn; lia).
  assert (H7 : GeneratePoints 10 map100 MAX_INT sourceEast [rectangleOutside] [] 300
               = Returned []) by (vm_compute; reflexivity).
  split; [exact H1|]. split; [exact H2|].
  split; [intros _; exact sourceEast_valid|].
  split; [exact H3|]. split; [reflexivity|]. split; [exact H4|].
  split; [exact H5|]. split; [exact H6|]. split; [exact H7|].
  exact (section_behind_origin_removes_all 10 map100 MAX_INT sourceEast
           [rectangleOutside] [] 300 [] rectangleOutside
           H1 H2 (fun _ => sourceEast_valid) H3 eq_refl H4 H5 H6 H7).
Defined.

Lemma excludeAll_filter (sections : list MapSection) (points : ListOfPoints) :
  excludeAll sections points = filter (keptByAll sections) points.
Proof.
  revert points. induction sections as [|s rest IH]; intros points.
  - cbn. symmetry. apply filter_all. reflexivity.
  - rewrite excludeAll_cons, IH.
    induction points as [|p l IHl]; [reflexivity|].
    cbn [filter keptByAll forallb].
    destruct (kept s p); cbn [andb filter].
    + fold (keptByAll rest p). destruct (keptByAll rest p); [f_equal|]; exact IHl.
    + exact IHl.
Qed.

Lemma keptByAll_same_sections (s1 s2 : list MapSection) (p : vector2di) :
  (forall section, In section s1 <-> In section s2) ->
  keptByAll s1 p = keptByAll s2 p.
Proof.
  intros H. unfold keptByAll.
  destruct (forallb (fun section => kept section p) s1) eqn:E1;
    destruct (forallb (fun section => kept section p) s2) eqn:E2; try reflexivity.
  - rewrite forallb_forall in E1.
    assert (E2' : forallb (fun section => kept section p) s2 = true).
    { apply forallb_forall. intros s Hs. apply E1. apply H. exact Hs. }
    congruence.
  - rewrite forallb_forall in E2.
    assert (E1' : forallb (fun section => kept section p) s1 = true).
    { apply forallb_forall. intros s Hs. apply E2. apply H. exact Hs. }
    congruence.
Qed.

(** X11.  The excluded sections are applied after the generation and do
    not take part in it: the list returned with sections is the list
    returned without any, for the same random draws, filtered, in its
    order, to the points that every section keeps. *)
Theorem exclusion_filters_the_result (m : Z) (mapDimensions : dimension2du)
  (max : Z) (rs : RandomSource) (sections : list MapSection)
  (seeds : list vector2di) (fuel : nat) :
  GeneratePoints m mapDimensions max rs sections seeds fuel
  = (full <- GeneratePoints m mapDimensions max rs [] seeds fuel ;;
     Returned (filter (keptByAll sections) full)).
Proof.
  rewrite !GeneratePoints_unfold.
  destruct (generationLoop m mapDimensions max rs seeds fuel); cbn [bind];
    try reflexivity.
  rewrite excludeAll_filter. reflexivity.
Qed.

(** X12.  The result does not depend on the order of the excluded
    sections nor on repetitions among them: two lists with the same
    sections give the same list of points. *)
Theorem exclusion_order_is_irrelevant (m : Z) (mapDimensions : dimension2du)
  (max : Z) (rs : RandomSource) (s1 s2 : list MapSection)
  (seeds : list vector2di) (fuel : nat) :
  (forall section, In section s1 <-> In section s2) ->
  GeneratePoints m mapDimensions max rs s1 seeds fuel
  = GeneratePoints m mapDimensions max rs s2 seeds fuel.
Proof.
  intros H. rewrite !GeneratePoints_unfold.
  destruct (generationLoop m mapDimensions max rs seeds fuel); cbn [bind];
    try reflexivity.
  rewrite !excludeAll_filter. f_equal.
  apply filter_ext. intros p. apply keptByAll_same_sections. exact H.
Qed.

Lemma exclusion_order_is_irrelevant_witness :
  (forall section, In section [rectangle20; ellipse20; rectangle20]
                   <-> In section [ellipse20; rectangle20]) /\
  GeneratePoints 10 map100 MAX_INT sourceEast [rectangle20; ellipse20; rectangle20] [] 300
  = GeneratePoints 10 map100 MAX_INT sourceEast [ellipse20; rectangle20] [] 300.
Proof.
  assert (H : forall section, In section [rectangle20; ellipse20; rectangle20]
                              <-> In section [ellipse20; rectangle20])
    by (intros section; simpl; tauto).
  split; [exact H|].
  exact (exclusion_order_is_irrelevant 10 map100 MAX_INT sourceEast
           [rectangle20; ellipse20; rectangle20] [ellipse20; rectangle20] [] 300 H).
Defined.

(** ** The tiles scanned *)

Lemma tileNumber_scanned (n : Z) :
  In n tileNumbers -> n <> 4 -> n <> 20 ->
  scanned (Z.rem n 5 - 2) (Z.quot n 5 - 2).
Proof.
  intros Hn H4 H20. unfold tileNumbers in Hn. cbn in Hn.
  repeat (destruct Hn as [<-|Hn]; [unfold scanned; cbn; lia|]).
  destruct Hn.
Qed.

Lemma scanTile_tileAt (ct : vector2di) (n : Z) :
  scanTile ct n = tileAt ct (Z.rem n 5 - 2) (Z.quot n 5 - 2).
Proof. unfold scanTile, tileAt. f_equal; lia. Qed.

Lemma tilesLoop_complete (ns : list Z) (ct : vector2di) (g : PointGrid2D)
  (acc l : ListOfPoints) :
  tilesLoop ns ct g acc = Returned l ->
  (List.length l <= List.length acc + List.length ns)%nat /\
  forall q, In q l ->
    In q acc \/
    exists n, In n ns /\ n <> 4 /\ n <> 20 /\
              InsideRectangle (scanTile ct n) (mkVector 0 0) (gridDimensions g) = true /\
              gridAt g (scanTile ct n) = Returned q.
Proof.
  revert acc. induction ns as [|n ns IH]; intros acc H; cbn [tilesLoop] in H.
  - inversion H; subst. split; [cbn; lia | auto].
  - change (Z.quot 5 2) with 2 in H. fold (scanTile ct n) in H.
    destruct ((n =? 4) || (n =? 20)) eqn:Eskip.
    { destruct (IH _ H) as [Hl Hq]. split; [cbn [List.length]; lia|].
      intros q Hin. destruct (Hq q Hin) as [Ha|(k & Hk & Hr)]; [auto|].
      right. exists k. split; [right; exact Hk | exact Hr]. }
    apply orb_false_elim in Eskip. destruct Eskip as [E4 E20].
    apply Z.eqb_neq in E4, E20.
    destruct (InsideRectangle (scanTile ct n) (mkVector 0 0) (gridDimensions g)) eqn:Ei;
      cbn [negb] in H.
    + inv_bind H. rename v into p.
      destruct (IH _ H) as [Hl Hq]. rewrite length_app in Hl.
      split; [cbn [List.length] in *; lia|].
      intros q Hin. destruct (Hq q Hin) as [Ha|(k & Hk & Hr)].
      * apply in_app_or in Ha. destruct Ha as [Ha|[<-|[]]]; [auto|].
        right. exists n. split; [left; reflexivity|]. auto.
      * right. exists k. split; [right; exact Hk | exact Hr].
    + destruct (IH _ H) as [Hl Hq]. split; [cbn [List.length]; lia|].
      intros q Hin. destruct (Hq q Hin) as [Ha|(k & Hk & Hr)]; [auto|].
      right. exists k. split; [right; exact Hk | exact Hr].
Qed.

(** The two tile numbers that the loop skips are counted out. *)
Lemma tilesLoop_length (ns : list Z) (ct : vector2di) (g : PointGrid2D)
  (acc l : ListOfPoints) :
  tilesLoop ns ct g acc = Returned l ->
  (List.length l + List.length (filter (fun n : Z => Z.eqb n 4 || Z.eqb n 20) ns)
   <= List.length acc + List.length ns)%nat.
Proof.
  revert acc. induction ns as [|n ns IH]; intros acc H; cbn [tilesLoop] in H.
  - inversion H; subst. cbn. lia.
  - cbn [filter]. destruct ((n =? 4) || (n =? 20)) eqn:Eskip.
    { apply IH in H. cbn [List.length]. lia. }
    destruct (negb _) in H.
    + apply IH in H. cbn [List.length]. lia.
    + inv_bind H. apply IH in H. rewrite length_app in H. cbn [List.length] in *. lia.
Qed.

Lemma GetPointsAroundTile_finds (ct : vector2di) (g : PointGrid2D)
  (l : ListOfPoints) :
  GetPointsAroundTile ct g = Returned l ->
  (List.length l <= 21)%nat /\ forall q, In q l <-> scan_finds ct g q.
Proof.
  intros H. split; [|intros q; split].
  - rewrite GetPointsAroundTile_unfold in H. revert H.
    generalize (eq_refl : List.length tileNumbers = 23%nat).
    generalize (eq_refl : List.length (filter (fun n : Z => Z.eqb n 4 || Z.eqb n 20)
                                              tileNumbers) = 2%nat).
    generalize tileNumbers as ns. intros ns Hf Hn H.
    apply tilesLoop_length in H. cbn [List.length] in H. lia.
  - intros Hq. rewrite GetPointsAroundTile_unfold in H. revert H.
    pose proof tileNumber_scanned as Hs. revert Hs.
    generalize tileNumbers as ns. intros ns Hs H.
    apply tilesLoop_complete in H. destruct H as [_ H].
    destruct (H q Hq) as [[]|(n & Hn & H4 & H20 & Hi & Hg)].
    rewrite scanTile_tileAt in Hi, Hg.
    exists (Z.rem n 5 - 2), (Z.quot n 5 - 2). auto.
  - intros (dx & dy & Hs & Hi & Hg).
    destruct (GetPointsAroundTile_scan ct g l H dx dy Hs Hi) as (q' & Hq' & Hin).
    unfold tileAt in Hg. rewrite Hg in Hq'. inversion Hq'; subst q'. exact Hin.
Qed.

(** X13.  [GetPointsAroundTile] returns the contents of the tiles of the
    5 by 5 block around the centre tile, without the four corners of the
    block (the loop runs over the tile numbers 1 to 23 and skips 4 and
    20) and without the tiles outside the dimensions of the grid: at most
    21 points, unset tiles included as the sentinel. *)
Theorem GetPointsAroundTile_scans_block_without_corners (centerTile : vector2di)
  (pointGrid : PointGrid2D) (l : ListOfPoints) :
  GetPointsAroundTile centerTile pointGrid = Returned l ->
  (List.length l <= 21)%nat /\
  forall q, In q l <->
    exists dx dy,
      (-2 <= dx <= 2 /\ -2 <= dy <= 2 /\ ~ (Z.abs dx = 2 /\ Z.abs dy = 2)) /\
      InsideRectangle (mkVector (X centerTile + dx) (Y centerTile + dy))
                      (mkVector 0 0) (gridDimensions pointGrid) = true /\
      gridAt pointGrid (mkVector (X centerTile + dx) (Y centerTile + dy))
      = Returned q.
Proof.
  intros H. exact (GetPointsAroundTile_finds centerTile pointGrid l H).
Qed.

Lemma GetPointsAroundTile_scans_block_without_corners_witness :
  GetPointsAroundTile (mkVector 0 0) (initGrid 2 2)
  = Returned [sentinel; sentinel; sentinel; sentinel] /\
  ((List.length [sentinel; sentinel; sentinel; sentinel] <= 21)%nat /\
   forall q, In q [sentinel; sentinel; sentinel; sentinel] <->
     exists dx dy,
       (-2 <= dx <= 2 /\ -2 <= dy <= 2 /\ ~ (Z.abs dx = 2 /\ Z.abs dy = 2)) /\
       InsideRectangle (mkVector (X (mkVector 0 0) + dx) (Y (mkVector 0 0) + dy))
                       (mkVector 0 0) (gridDimensions (initGrid 2 2)) = true /\
       gridAt (initGrid 2 2) (mkVector (X (mkVector 0 0) + dx) (Y (mkVector 0 0) + dy))
       = Returned q).
Proof.
  assert (H : GetPointsAroundTile (mkVector 0 0) (initGrid 2 2)
              = Returned [sentinel; sentinel; sentinel; sentinel])
    by (vm_compute; reflexivity).
  split; [exact H|].
  exact (GetPointsAroundTile_scans_block_without_corners (mkVector 0 0) (initGrid 2 2)
           _ H).
Defined.

(** ** Console output *)

Lemma ExcludeSection_console (points : ListOfPoints) (section : MapSection) :
  snd (ExcludeSection points section)
  = match shape section with
    | eRectangle => []
    | eEllipse => repeat ellipse_message (List.length points)
    end.
Proof.
  induction points as [|p rest IH]; cbn [ExcludeSection].
  - destruct (shape section); reflexivity.
  - destruct (InsideSection p section) as [inside printed] eqn:Ei.
    destruct (ExcludeSection rest section) as [keptRest printedRest].
    cbn [snd] in IH.
    assert (Hs : snd (if inside then (keptRest, printed ++ printedRest)
                      else (p :: keptRest, printed ++ printedRest))
                 = printed ++ printedRest) by (destruct inside; reflexivity).
    rewrite Hs, IH. unfold InsideSection in Ei.
    destruct (shape section); inversion Ei; subst; reflexivity.
Qed.

(** X25.  [InsideSection] prints its message at every call for a section
    of shape [eEllipse], so [ExcludeSection] prints it once for every
    point of the list it is given, and prints nothing for a rectangle: a
    call of [GeneratePoints] with one excluded section prints the message
    as many times as it returns points when the section is an ellipse, and
    nothing when it is a rectangle. *)
Theorem ellipse_message_for_every_point (m : Z) (mapDimensions : dimension2du)
  (max : Z) (rs : RandomSource) (section : MapSection)
  (seeds : list vector2di) (fuel : nat) (out : ListOfPoints)
  (console : list string) :
  GeneratePointsIO m mapDimensions max rs [section] seeds fuel
  = Returned (out, console) ->
  (forall points,
     snd (ExcludeSection points section)
     = match shape section with
       | eRectangle => []
       | eEllipse => repeat ellipse_message (List.length points)
       end) /\
  console = match shape section with
            | eRectangle => []
            | eEllipse => repeat ellipse_message (List.length out)
            end.
Proof.
  intros H. split; [intros points; apply ExcludeSection_console|].
  unfold GeneratePointsIO in H. inv_bind H. rename v into st.
  cbn [excludeLoop] in H.
  pose proof (ExcludeSection_console (outputList st) section) as Hc.
  pose proof (ExcludeSection_filter (outputList st) section) as Hf.
  destruct (ExcludeSection (outputList st) section) as [keptPoints printed].
  cbn [fst snd app] in *. inversion H; subst out console; clear H.
  rewrite Hc, Hf. destruct (shape section) eqn:Es; [reflexivity|].
  rewrite filter_all; [reflexivity|].
  intros p. unfold kept, InsideSection. rewrite Es. reflexivity.
Qed.

Lemma ellipse_message_for_every_point_witness :
  GeneratePointsIO 10 map100 MAX_INT sourceEast [ellipse20] [] 300
  = Returned ([mkVector 50 50; mkVector 62 50; mkVector 74 50;
               mkVector 86 50; mkVector 98 50],
              repeat ellipse_message 5) /\
  ((forall points,
      snd (ExcludeSection points ellipse20)
      = match shape ellipse20 with
        | eRectangle => []
        | eEllipse => repeat ellipse_message (List.length points)
        end) /\
   repeat ellipse_message 5
   = match shape ellipse20 with
     | eRectangle => []
     | eEllipse =>
         repeat ellipse_message
           (List.length [mkVector 50 50; mkVector 62 50; mkVector 74 50;
                         mkVector 86 50; mkVector 98 50])
     end).
Proof.
  assert (H : GeneratePointsIO 10 map100 MAX_INT sourceEast [ellipse20] [] 300
              = Returned ([mkVector 50 50; mkVector 62 50; mkVector 74 50;
                           mkVector 86 50; mkVector 98 50],
                          repeat ellipse_message 5))
    by (vm_compute; reflexivity).
  split; [exact H|].
  exact (ellipse_message_for_every_point 10 map100 MAX_INT sourceEast ellipse20 []
           300 _ _ H).
Defined.

(** ** The neighbourhood test *)

Lemma neighborLoop_true (l : ListOfPoints) (c : vector2di) (m : Z) :
  neighborLoop l c m = Returned true ->
  exists q d, In q l /\ q <> sentinel /\ getDistanceFrom q c = Returned d /\ d < m.
Proof.
  induction l as [|p l IH]; cbn [neighborLoop]; [discriminate|].
  destruct (vector2di_eqb p sentinel) eqn:Es; cbn [negb].
  - intros H. destruct (IH H) as (q & d & Hq & Hr). exists q, d.
    split; [right; exact Hq | exact Hr].
  - intros H. inv_bind H. rename v into d.
    destruct (d <? m) eqn:Ed.
    + exists p, d. split; [left; reflexivity|]. split; [|split].
      * intros Hp. apply vector2di_eqb_eq in Hp. congruence.
      * exact E.
      * apply Z.ltb_lt. exact Ed.
    + destruct (IH H) as (q & d' & Hq & Hr). exists q, d'.
      split; [right; exact Hq | exact Hr].
Qed.

(** X14.  [InNeighborhood] answers [true] exactly when a tile of the
    scanned block around the tile of the point, within the dimensions of
    the grid, holds a point other than the sentinel for which
    [getDistanceFrom] returns less than the minimum distance; when it
    answers [false] the distance was computed for every such point.  The
    distance is the one that [getDistanceFrom] returns, the square root
    taken in [float] and converted to [int]: for the squared distance
    16892098 that is 4110, one more than the truncated square root. *)
Theorem InNeighborhood_finds_close_points (centerPoint : vector2di)
  (minimumDistance : Z) (pointGrid : PointGrid2D) (cellSize : float)
  (near : bool) :
  InNeighborhood centerPoint minimumDistance pointGrid cellSize = Returned near ->
  exists centerTile,
    PointToGridTile centerPoint cellSize = Returned centerTile /\
    (near = true <->
     exists q d, scan_finds centerTile pointGrid q /\ q <> sentinel /\
                 getDistanceFrom q centerPoint = Returned d /\
                 d < minimumDistance) /\
    (near = false ->
     forall q, scan_finds centerTile pointGrid q -> q <> sentinel ->
       exists d, getDistanceFrom q centerPoint = Returned d /\
                 minimumDistance <= d) /\
    squareroot 16892098 = Returned 4110 /\ Z.sqrt 16892098 = 4109.
Proof.
  intros H. unfold InNeighborhood in H. inv_bind H. rename v into ct.
  inv_bind H. rename v into l.
  exists ct. split; [exact E|].
  destruct (GetPointsAroundTile_finds ct pointGrid l E0) as [_ Hl].
  assert (Hfalse : near = false ->
            forall q, scan_finds ct pointGrid q -> q <> sentinel ->
              exists d, getDistanceFrom q centerPoint = Returned d /\
                        minimumDistance <= d).
  { intros -> q Hq Hn. apply Hl in Hq.
    destruct (neighborLoop_false _ _ _ H q Hq) as [Hs|Hd]; [contradiction | exact Hd]. }
  split; [|split; [exact Hfalse|]].
  - split.
    + intros ->. destruct (neighborLoop_true _ _ _ H) as (q & d & Hq & Hr).
      exists q, d. split; [apply Hl; exact Hq | exact Hr].
    + intros (q & d & Hq & Hn & Hd & Hlt). destruct near; [reflexivity|].
      destruct (Hfalse eq_refl q Hq Hn) as (d' & Hd' & Hge).
      rewrite Hd in Hd'. inversion Hd'; subst d'. lia.
  - split; [vm_compute; reflexivity | reflexivity].
Qed.

Lemma InNeighborhood_finds_close_points_witness :
  InNeighborhood (mkVector 62 50) 10 (pointGrid stateEast) (pointGridCellSize 10)
  = Returned true /\
  exists centerTile,
    PointToGridTile (mkVector 62 50) (pointGridCellSize 10) = Returned centerTile /\
    (true = true <->
     exists q d, scan_finds centerTile (pointGrid stateEast) q /\ q <> sentinel /\
                 getDistanceFrom q (mkVector 62 50) = Returned d /\ d < 10) /\
    (true = false ->
     forall q, scan_finds centerTile (pointGrid stateEast) q -> q <> sentinel ->
       exists d, getDistanceFrom q (mkVector 62 50) = Returned d /\ 10 <= d) /\
    squareroot 16892098 = Returned 4110 /\ Z.sqrt 16892098 = 4109.
Proof.
  assert (H : InNeighborhood (mkVector 62 50) 10 (pointGrid stateEast)
                (pointGridCellSize 10) = Returned true)
    by (vm_compute; reflexivity).
  split; [exact H|].
  exact (InNeighborhood_finds_close_points (mkVector 62 50) 10 (pointGrid stateEast)
           (pointGridCellSize 10) true H).
Defined.

(** ** The first point *)

Lemma firstPointState_central (m : Z) (mapDimensions : dimension2du)
  (rs : RandomSource) (g : PointGrid2D) (st : LoopState) :
  0 < Width mapDimensions < 4294967296 -> 0 < Height mapDimensions < 4294967296 ->
  valid_first rs ->
  firstPointState m mapDimensions rs g = Returned st ->
  exists p, outputList st = [p] /\
            (1999999 * Width mapDimensions < 5000000 * (X p + 1) /\
             5000000 * X p <= 3000001 * Width mapDimensions) /\
            (1999999 * Height mapDimensions < 5000000 * (Y p + 1) /\
             5000000 * Y p <= 3000001 * Height mapDimensions).
Proof.
  intros Hw Hh [Hu Hv] H. unfold firstPointState in H.
  inv_bind H. inv_bind H. inv_bind H. inv_bind H. inversion H; subst; clear H.
  exists (mkVector v v0). cbn [outputList X Y]. split; [reflexivity|].
  split.
  - exact (proj2 (firstPointRange_bounds _ _ _ Hw Hu E)).
  - exact (proj2 (firstPointRange_bounds _ _ _ Hh Hv E0)).
Qed.

(** X19.  Without existing points the output list starts with the first
    point, drawn in the middle of the map: its coordinates are the
    conversions to [int] of values between [Width * 0.4f] and
    [Width * 0.6f], and between [Height * 0.4f] and [Height * 0.6f],
    computed in [float]; they lie between 0.3999998 and 0.6000002 of the
    map dimensions, the lower bound up to the truncation.  The random
    source is assumed to keep the contract of [Range]. *)
Theorem first_point_is_near_the_centre (m : Z) (mapDimensions : dimension2du)
  (max : Z) (rs : RandomSource) (fuel : nat) (out : ListOfPoints) :
  wf_dimension mapDimensions -> valid_first rs ->
  GeneratePoints m mapDimensions max rs [] [] fuel = Returned out ->
  exists p rest,
    out = p :: rest /\
    (1999999 * Width mapDimensions < 5000000 * (X p + 1) /\
     5000000 * X p <= 3000001 * Width mapDimensions) /\
    (1999999 * Height mapDimensions < 5000000 * (Y p + 1) /\
     5000000 * Y p <= 3000001 * Height mapDimensions).
Proof.
  intros [Hw Hh] Hv H.
  assert (Hpos : 0 < Width mapDimensions /\ 0 < Height mapDimensions).
  { destruct (Z.eq_dec (Width mapDimensions) 0) as [E|E];
      [|destruct (Z.eq_dec (Height mapDimensions) 0) as [E'|E']; [|lia]];
      exfalso;
      rewrite GeneratePoints_Undefined in H; try discriminate;
      apply initialState_no_storage; intros gw gh Hgw Hgh.
    - left. rewrite E in Hgw. apply int_ceil_div_cell_zero in Hgw. lia.
    - right. rewrite E' in Hgh. apply int_ceil_div_cell_zero in Hgh. lia. }
  apply GeneratePoints_Returned in H. destruct H as (st & Hst & ->).
  unfold generationLoop in Hst. inv_bind Hst. rename v into st0.
  unfold initialState in E. inv_bind E. inv_bind E.
  assert (Hw' : 0 < Width mapDimensions < 4294967296) by lia.
  assert (Hh' : 0 < Height mapDimensions < 4294967296) by lia.
  destruct (firstPointState_central _ _ _ _ _ Hw' Hh' Hv E) as (p & Ho & Hx & Hy).
  destruct (whileLoop_account _ _ _ _ _ _ _ Hst) as (k & _ & Hk & _).
  exists p, k. rewrite Hk, Ho. cbn. auto.
Qed.

Lemma first_point_is_near_the_centre_witness :
  wf_dimension map100 /\ valid_first sourceEast /\
  GeneratePoints 10 map100 MAX_INT sourceEast [] [] 300
  = Returned [mkVector 50 50; mkVector 62 50; mkVector 74 50;
              mkVector 86 50; mkVector 98 50] /\
  exists p rest,
    [mkVector 50 50; mkVector 62 50; mkVector 74 50; mkVector 86 50; mkVector 98 50]
    = p :: rest /\
    (1999999 * Width map100 < 5000000 * (X p + 1) /\
     5000000 * X p <= 3000001 * Width map100) /\
    (1999999 * Height map100 < 5000000 * (Y p + 1) /\
     5000000 * Y p <= 3000001 * Height map100).
Proof.
  split; [exact map100_wf|]. split; [exact sourceEast_valid|].
  split; [exact sourceEast_run|].
  exact (first_point_is_near_the_centre 10 map100 MAX_INT sourceEast 300 _
           map100_wf sourceEast_valid sourceEast_run).
Defined.

(** ** The computed distance *)

Lemma pow2_double (e : Z) : (pow2 (2 * e) == pow2 e * pow2 e)%Q.
Proof. replace (2 * e) with (e + e) by lia. apply pow2_add. Qed.

(** The correctly rounded square root, in units of the last place: the
    root lies between the integers next to it. *)
Lemma round_sqrt_bracket (f : Format) (q : Q) :
  (0 < q)%Q ->
  let e := Z.max (ilog2 q / 2 - (precision f - 1)) (emin f) in
  exists n, 0 <= n /\
    (round_sqrt f q == inject_Z n * pow2 e)%Q /\
    (1 <= n -> ((inject_Z n - 1) * pow2 e * ((inject_Z n - 1) * pow2 e) <= q)%Q) /\
    (q < (inject_Z n + 1) * pow2 e * ((inject_Z n + 1) * pow2 e))%Q.
Proof.
  intros Hq e. unfold round_sqrt.
  destruct (Qle_bool q 0) eqn:E0.
  { apply Qle_bool_iff in E0. exfalso. Lqa.lra. }
  fold e. pose proof (pow2_pos e) as He. pose proof (pow2_pos (2 * e)) as He2.
  set (y := (q / pow2 (2 * e))%Q).
  assert (Hy : (0 < y)%Q) by (unfold y; apply Qlt_shift_div_l; Lqa.lra).
  assert (Eq : (q == y * (pow2 e * pow2 e))%Q).
  { unfold y. rewrite <- pow2_double. field. Lqa.lra. }
  pose proof (Qfloor_le y) as Fl. pose proof (Qlt_floor y) as Fh.
  assert (F0 : 0 <= Qfloor y).
  { assert (H : (inject_Z (-1) < inject_Z (Qfloor y))%Q).
    { rewrite inject_Z_plus in Fh. change (inject_Z 1) with 1%Q in Fh.
      change (inject_Z (-1)) with (-1)%Q. Lqa.lra. }
    rewrite <- Zlt_Qlt in H. lia. }
  destruct (Z.sqrt_spec (Qfloor y) F0) as [S1 S2].
  pose proof (Z.sqrt_nonneg (Qfloor y)) as S0.
  set (s := Z.sqrt (Qfloor y)) in *.
  assert (Y1 : (inject_Z s * inject_Z s <= y)%Q).
  { rewrite <- inject_Z_mult. apply Qle_trans with (inject_Z (Qfloor y)); [|exact Fl].
    rewrite <- Zle_Qle. exact S1. }
  assert (Y2 : (y < (inject_Z s + 1) * (inject_Z s + 1))%Q).
  { apply Qlt_le_trans with (inject_Z (Qfloor y + 1)); [exact Fh|].
    change 1%Q with (inject_Z 1). rewrite <- inject_Z_plus, <- inject_Z_mult.
    rewrite <- Zle_Qle. unfold Z.succ in S2. lia. }
  assert (Scale : forall a b : Q, (a <= b)%Q ->
            (a * (pow2 e * pow2 e) <= b * (pow2 e * pow2 e))%Q).
  { intros a b Hab. apply Qmult_le_compat_r; [exact Hab|].
    apply Qlt_le_weak, Qmult_lt_0_compat; exact He. }
  assert (ScaleLt : forall a b : Q, (a < b)%Q ->
            (a * (pow2 e * pow2 e) < b * (pow2 e * pow2 e))%Q).
  { intros a b Hab. apply Qmult_lt_compat_r; [|exact Hab].
    apply Qmult_lt_0_compat; exact He. }
  assert (Low : forall n, s <= n <= s + 1 -> 1 <= n ->
            ((inject_Z n - 1) * pow2 e * ((inject_Z n - 1) * pow2 e) <= q)%Q).
  { intros n Hn H1. rewrite Eq.
    setoid_replace ((inject_Z n - 1) * pow2 e * ((inject_Z n - 1) * pow2 e))%Q
      with ((inject_Z n - 1) * (inject_Z n - 1) * (pow2 e * pow2 e))%Q by ring.
    apply Scale. apply Qle_trans with (inject_Z s * inject_Z s)%Q; [|exact Y1].
    change 1%Q with (inject_Z 1). unfold Qminus.
    rewrite <- inject_Z_opp, <- inject_Z_plus, <- !inject_Z_mult, <- Zle_Qle. nia. }
  assert (High : forall n, s <= n <= s + 1 ->
            (q < (inject_Z n + 1) * pow2 e * ((inject_Z n + 1) * pow2 e))%Q).
  { intros n Hn. rewrite Eq.
    setoid_replace ((inject_Z n + 1) * pow2 e * ((inject_Z n + 1) * pow2 e))%Q
      with ((inject_Z n + 1) * (inject_Z n + 1) * (pow2 e * pow2 e))%Q by ring.
    apply ScaleLt. apply Qlt_le_trans with ((inject_Z s + 1) * (inject_Z s + 1))%Q;
      [exact Y2|].
    change 1%Q with (inject_Z 1).
    rewrite <- !inject_Z_plus, <- !inject_Z_mult, <- Zle_Qle. nia. }
  assert (Pick : forall n, s <= n <= s + 1 ->
            exists n0, 0 <= n0 /\
              (Qred (inject_Z n * pow2 e) == inject_Z n0 * pow2 e)%Q /\
              (1 <= n0 -> ((inject_Z n0 - 1) * pow2 e * ((inject_Z n0 - 1) * pow2 e) <= q)%Q) /\
              (q < (inject_Z n0 + 1) * pow2 e * ((inject_Z n0 + 1) * pow2 e))%Q).
  { intros n Hn. exists n. split; [lia|]. split; [apply Qred_correct|].
    split; [apply Low; exact Hn | apply High; exact Hn]. }
  destruct (Qcompare y ((inject_Z s + (1 # 2)) * (inject_Z s + (1 # 2)))).
  - destruct (Z.even s); apply Pick; lia.
  - apply Pick; lia.
  - apply Pick; lia.
Qed.

Lemma Qsquare_le (a b : Q) : (0 <= a)%Q -> (a <= b)%Q -> (a * a <= b * b)%Q.
Proof.
  intros Ha Hab. apply Qle_trans with (b * a)%Q.
  - apply Qmult_le_compat_r; assumption.
  - rewrite !(Qmult_comm b). apply Qmult_le_compat_r; [exact Hab | Lqa.lra].
Qed.

Lemma getDistanceFrom_Returned (a b : vector2di) (d : Z) :
  getDistanceFrom a b = Returned d ->
  0 <= dist2 a b <= MAX_INT /\ squareroot (dist2 a b) = Returned d.
Proof.
  unfold getDistanceFrom. intros H.
  inv_bind H. apply int_of_Z_Returned in E. destruct E as [-> _].
  inv_bind H. apply int_of_Z_Returned in E. destruct E as [-> _].
  inv_bind H. apply int_of_Z_Returned in E. destruct E as [-> _].
  inv_bind H. apply int_of_Z_Returned in E. destruct E as [-> _].
  inv_bind H. apply int_of_Z_Returned in E. destruct E as [-> Hr].
  fold (dist2 a b) in *. split; [|exact H].
  pose proof (dist2_nonneg a b). lia.
Qed.

(** [core::squareroot] of an [s32] is the truncated square root up to
    one. *)
Lemma squareroot_near (s d : Z) :
  0 <= s <= MAX_INT -> squareroot s = Returned d ->
  Z.sqrt s - 1 <= d <= Z.sqrt s + 1.
Proof.
  intros Hs H. unfold squareroot, float_of_int in H.
  inv_bind H. apply rounded_Returned in E. subst v.
  destruct (Z.eq_dec s 0) as [->|Hne].
  { rewrite (round_zero binary32 (inject_Z 0)) in H by reflexivity.
    cbn in H. inversion H; subst d. cbn. lia. }
  assert (HS : (1 <= inject_Z s)%Q)
    by (change 1%Q with (inject_Z 1); rewrite <- Zle_Qle; lia).
  destruct (round32_relative (inject_Z s)) as [X1 X2]; [Lqa.lra|].
  assert (X0 : (1 <= round binary32 (inject_Z s))%Q).
  { change 1%Q with (inject_Z 1).
    apply round_ge_format; [exact precision32 | apply in_format_int; lia | exact HS]. }
  assert (X3 : (round binary32 (inject_Z s) <= 2147483648)%Q).
  { apply round_le_format; [exact precision32 | |].
    - exists 16777216, 7. split; [cbn; lia|]. split; [cbn; lia|]. reflexivity.
    - change 2147483648%Q with (inject_Z 2147483648). rewrite <- Zle_Qle.
      unfold MAX_INT in Hs. lia. }
  set (x := round binary32 (inject_Z s)) in *.
  unfold sqrtf in H.
  destruct (Qle_bool 0 x) eqn:E0.
  2:{ assert (Hx : (0 <= x)%Q) by Lqa.lra. apply Qle_bool_iff in Hx. congruence. }
  cbn [bind] in H.
  assert (L0 : 0 <= ilog2 x) by (apply ilog2_ge; change (pow2 0) with 1%Q; exact X0).
  assert (L1 : ilog2 x < 32).
  { apply ilog2_lt; [Lqa.lra|]. change (pow2 32) with 4294967296%Q. Lqa.lra. }
  assert (Hd2 : 0 <= ilog2 x / 2 <= 15).
  { pose proof (Z.div_mod (ilog2 x) 2 ltac:(lia)) as Hdm.
    pose proof (Z.mod_pos_bound (ilog2 x) 2 ltac:(lia)) as Hmb. lia. }
  destruct (round_sqrt_bracket binary32 x) as (n & Hn & Er & Low & High); [Lqa.lra|].
  cbn [precision emin binary32] in Er, Low, High.
  replace (Z.max (ilog2 x / 2 - (24 - 1)) (-149)) with (ilog2 x / 2 - 23)
    in Er, Low, High by lia.
  set (e := ilog2 x / 2 - 23) in *.
  pose proof (pow2_pos e) as P0.
  assert (P1 : (pow2 e <= 1 # 256)%Q).
  { change (1 # 256)%Q with (pow2 (-8)). apply pow2_le. unfold e. lia. }
  set (P := pow2 e) in *.
  assert (R0 : (0 <= round_sqrt binary32 x)%Q).
  { rewrite Er. apply Qmult_le_0_compat; [|Lqa.lra].
    change 0%Q with (inject_Z 0). rewrite <- Zle_Qle. exact Hn. }
  apply int_of_Q_nonneg in H; [|exact R0]. destruct H as (D0 & D1 & D2).
  rewrite Er in D1, D2.
  destruct (Z.sqrt_spec s (proj1 Hs)) as [K1 K2].
  pose proof (Z.sqrt_nonneg s) as K0. set (k := Z.sqrt s) in *.
  unfold Z.succ in K2.
  assert (K3 : k <= 46340) by (unfold MAX_INT in Hs; nia).
  split.
  - destruct (Z_le_gt_dec k 1) as [Hk|Hk]; [lia|].
    destruct (Z_le_gt_dec (k - 1) d) as [Hle|Hgt]; [exact Hle|exfalso].
    assert (Dk : (inject_Z d + 1 <= inject_Z k - 1)%Q).
    { change 1%Q with (inject_Z 1). unfold Qminus.
      rewrite <- inject_Z_opp, <- !inject_Z_plus, <- Zle_Qle. lia. }
    set (B := (inject_Z (256 * k - 255) * (1 # 256))%Q).
    assert (EB : (B == inject_Z k - 1 + (1 # 256))%Q).
    { unfold B, Z.sub. rewrite inject_Z_plus, inject_Z_mult, inject_Z_opp.
      change (inject_Z 256) with 256%Q. change (inject_Z 255) with 255%Q. field. }
    assert (U0 : (0 <= (inject_Z n + 1) * P)%Q).
    { apply Qmult_le_0_compat; [|Lqa.lra].
      assert (0 <= inject_Z n)%Q
        by (change 0%Q with (inject_Z 0); rewrite <- Zle_Qle; exact Hn).
      Lqa.lra. }
    assert (U1 : ((inject_Z n + 1) * P <= B)%Q).
    { rewrite EB.
      setoid_replace ((inject_Z n + 1) * P)%Q with (inject_Z n * P + P)%Q by ring.
      Lqa.lra. }
    pose proof (Qsquare_le _ _ U0 U1) as U2.
    assert (U3 : (inject_Z (k * k) * (16777215 # 16777216) < B * B)%Q).
    { apply Qle_lt_trans with x; [|Lqa.lra].
      apply Qle_trans with (inject_Z s * (16777215 # 16777216))%Q; [|exact X1].
      apply Qmult_le_compat_r; [rewrite <- Zle_Qle; exact K1 | unfold Qle; cbn; lia]. }
    unfold B, Qlt, Qmult, inject_Z in U3. cbn [Qnum Qden] in U3.
    rewrite ?Pos2Z.inj_mul in U3. nia.
  - destruct (Z_le_gt_dec d (k + 1)) as [Hle|Hgt]; [exact Hle|exfalso].
    assert (Dk : (inject_Z k + 2 <= inject_Z d)%Q).
    { change 2%Q with (inject_Z 2). rewrite <- inject_Z_plus, <- Zle_Qle. lia. }
    assert (Hn1 : 1 <= n).
    { destruct (Z_le_gt_dec 1 n) as [H1|H1]; [exact H1|exfalso].
      assert (n = 0) by lia. subst n.
      assert (0 <= inject_Z k)%Q
        by (change 0%Q with (inject_Z 0); rewrite <- Zle_Qle; exact K0).
      change (inject_Z 0) with 0%Q in D1. Lqa.lra. }
    specialize (Low Hn1).
    set (A := (inject_Z (256 * k + 511) * (1 # 256))%Q).
    assert (EA : (A == inject_Z k + 2 - (1 # 256))%Q).
    { unfold A. rewrite inject_Z_plus, inject_Z_mult.
      change (inject_Z 256) with 256%Q. change (inject_Z 511) with 511%Q. field. }
    assert (A0 : (0 <= A)%Q).
    { rewrite EA.
      assert (0 <= inject_Z k)%Q
        by (change 0%Q with (inject_Z 0); rewrite <- Zle_Qle; exact K0).
      Lqa.lra. }
    assert (A1 : (A <= (inject_Z n - 1) * P)%Q).
    { rewrite EA.
      setoid_replace ((inject_Z n - 1) * P)%Q with (inject_Z n * P - P)%Q by ring.
      Lqa.lra. }
    pose proof (Qsquare_le _ _ A0 A1) as A2.
    assert (A3 : (A * A <= inject_Z ((k + 1) * (k + 1) - 1) * (16777217 # 16777216))%Q).
    { apply Qle_trans with x; [Lqa.lra|].
      apply Qle_trans with (inject_Z s * (16777217 # 16777216))%Q; [exact X2|].
      apply Qmult_le_compat_r; [rewrite <- Zle_Qle; lia | unfold Qle; cbn; lia]. }
    unfold A, Qle, Qmult, inject_Z in A3. cbn [Qnum Qden] in A3.
    rewrite ?Pos2Z.inj_mul in A3. nia.
Qed.

(** X21.  The distance that [getDistanceFrom] returns is the truncated
    Euclidean distance up to one: the squared distance is converted to
    [float], the root is taken by [sqrtf] and converted back to [int].  So
    a point for which [InNeighborhood] finds the distance at least the
    minimum distance [m] is at least [m - 1] away, and one for which it
    finds the distance below [m] is less than [m + 1] away.  The value can
    exceed the truncated distance: between (0,0) and (4107,157) it is
    4110, and the distance is below 4110. *)
Theorem getDistanceFrom_is_the_distance_up_to_one (a b : vector2di) (d : Z) :
  getDistanceFrom a b = Returned d ->
  Z.sqrt (dist2 a b) - 1 <= d <= Z.sqrt (dist2 a b) + 1 /\
  (forall m, 1 <= m -> m <= d -> (m - 1) * (m - 1) <= dist2 a b) /\
  (forall m, d < m -> dist2 a b < (m + 1) * (m + 1)) /\
  (getDistanceFrom (mkVector 0 0) (mkVector 4107 157) = Returned 4110 /\
   dist2 (mkVector 0 0) (mkVector 4107 157) < 4110 * 4110).
Proof.
  intros H. apply getDistanceFrom_Returned in H. destruct H as [Hs H].
  pose proof (squareroot_near _ _ Hs H) as Hd.
  destruct (Z.sqrt_spec (dist2 a b) (proj1 Hs)) as [K1 K2].
  pose proof (Z.sqrt_nonneg (dist2 a b)) as K0.
  unfold Z.succ in K2. set (k := Z.sqrt (dist2 a b)) in *.
  split; [exact Hd|]. split; [|split].
  - intros m Hm Hmd. nia.
  - intros m Hdm. nia.
  - split; [vm_compute; reflexivity | vm_compute; reflexivity].
Qed.

Lemma getDistanceFrom_is_the_distance_up_to_one_witness :
  getDistanceFrom (mkVector 20 10) (mkVector 12 12) = Returned 8 /\
  (Z.sqrt (dist2 (mkVector 20 10) (mkVector 12 12)) - 1 <= 8
   <= Z.sqrt (dist2 (mkVector 20 10) (mkVector 12 12)) + 1 /\
   (forall m, 1 <= m -> m <= 8 ->
      (m - 1) * (m - 1) <= dist2 (mkVector 20 10) (mkVector 12 12)) /\
   (forall m, 8 < m -> dist2 (mkVector 20 10) (mkVector 12 12) < (m + 1) * (m + 1)) /\
   (getDistanceFrom (mkVector 0 0) (mkVector 4107 157) = Returned 4110 /\
    dist2 (mkVector 0 0) (mkVector 4107 157) < 4110 * 4110)).
Proof.
  assert (H : getDistanceFrom (mkVector 20 10) (mkVector 12 12) = Returned 8)
    by (vm_compute; reflexivity).
  split; [exact H|].
  exact (getDistanceFrom_is_the_distance_up_to_one (mkVector 20 10) (mkVector 12 12)
           8 H).
Defined.

(** ** Candidates *)

Lemma truncation_within (lo hi : Z) (q : Q) :
  (inject_Z lo <= q)%Q -> (q <= inject_Z hi)%Q ->
  lo <= Z.quot (Qnum q) (Zpos (Qden q)) <= hi.
Proof.
  destruct q as [n d]. unfold Qle. cbn [Qnum Qden inject_Z].
  rewrite !Z.mul_1_r. intros Hlo Hhi.
  destruct (Z_le_gt_dec 0 n) as [Hn|Hn].
  - rewrite Z.quot_div_nonneg by lia. split.
    + apply Z.div_le_lower_bound; lia.
    + apply Z.div_le_upper_bound; lia.
  - replace n with (- (- n)) by lia.
    rewrite Z.quot_opp_l by lia. rewrite Z.quot_div_nonneg by lia.
    assert (- n / Z.pos d <= - lo) by (apply Z.div_le_upper_bound; lia).
    assert (- hi <= - n / Z.pos d) by (apply Z.div_le_lower_bound; lia).
    lia.
Qed.

(** A value between two integers of up to 24 bits rounds to a value
    between them. *)
Lemma round32_between (lo hi : Z) (q : Q) :
  Z.abs lo <= 16777216 -> Z.abs hi <= 16777216 ->
  (inject_Z lo <= q)%Q -> (q <= inject_Z hi)%Q ->
  (inject_Z lo <= round binary32 q)%Q /\ (round binary32 q <= inject_Z hi)%Q.
Proof.
  intros Hlo Hhi Ql Qh. split.
  - apply round_ge_format; [exact precision32 | apply in_format_int; exact Hlo | exact Ql].
  - apply round_le_format; [exact precision32 | apply in_format_int; exact Hhi | exact Qh].
Qed.

(** The distance of a candidate from its point, before the conversion to
    [int]: between the minimum distance and twice the minimum distance. *)
Lemma distanceFromCenter_bounds (m : Z) (u : Q) :
  0 < m -> 2 * m <= 16777216 -> unit_fraction u ->
  let distanceFromCenter :=
    round binary32
      (round binary32 (inject_Z m)
       * round binary32 (1 + round binary32 (0 + u * (1 - 0)))) in
  (inject_Z m <= distanceFromCenter)%Q /\ (distanceFromCenter <= inject_Z (2 * m))%Q.
Proof.
  intros Hm Hm2 [Hu0 Hu1]. cbv zeta.
  destruct (round32_between 0 1 (0 + u * (1 - 0))) as [F0 F1];
    try (cbn; lia); try (change (inject_Z 0) with 0%Q; change (inject_Z 1) with 1%Q; Lqa.lra).
  change (inject_Z 0) with 0%Q in F0. change (inject_Z 1) with 1%Q in F1.
  set (fraction := round binary32 (0 + u * (1 - 0))) in *.
  destruct (round32_between 1 2 (1 + fraction)) as [S1 S2];
    try (cbn; lia); try (change (inject_Z 2) with 2%Q; change (inject_Z 1) with 1%Q; Lqa.lra).
  change (inject_Z 1) with 1%Q in S1. change (inject_Z 2) with 2%Q in S2.
  set (scale := round binary32 (1 + fraction)) in *.
  assert (Em : (round binary32 (inject_Z m) == inject_Z m)%Q).
  { apply round_format; [exact precision32 | apply in_format_int; lia]. }
  assert (HM : (0 < inject_Z m)%Q) by (change 0%Q with (inject_Z 0); rewrite <- Zlt_Qlt; lia).
  assert (P1 : (inject_Z m <= round binary32 (inject_Z m) * scale)%Q).
  { rewrite Em. setoid_replace (inject_Z m) with (inject_Z m * 1)%Q at 1 by ring.
    rewrite !(Qmult_comm (inject_Z m)). apply Qmult_le_compat_r; Lqa.lra. }
  assert (P2 : (round binary32 (inject_Z m) * scale <= inject_Z (2 * m))%Q).
  { rewrite Em, inject_Z_mult. change (inject_Z 2) with 2%Q.
    rewrite (Qmult_comm (inject_Z m)). apply Qmult_le_compat_r; Lqa.lra. }
  apply round32_between; try lia; assumption.
Qed.

(** The offset of a candidate in one coordinate. *)
Lemma offset_bounds (m : Z) (distanceFromCenter c : Q) :
  0 < m -> 2 * m <= 16777216 ->
  (0 <= distanceFromCenter)%Q -> (distanceFromCenter <= inject_Z (2 * m))%Q ->
  (-1 <= c)%Q /\ (c <= 1)%Q ->
  (inject_Z (- (2 * m)) <= round binary32 (distanceFromCenter * round binary32 c))%Q /\
  (round binary32 (distanceFromCenter * round binary32 c) <= inject_Z (2 * m))%Q.
Proof.
  intros Hm Hm2 D0 D2 [C0 C1].
  destruct (round32_between (-1) 1 c) as [R0 R1];
    try (cbn; lia);
    try (change (inject_Z (-1)) with (-1)%Q; change (inject_Z 1) with 1%Q; Lqa.lra).
  change (inject_Z (-1)) with (-1)%Q in R0. change (inject_Z 1) with 1%Q in R1.
  set (cosine := round binary32 c) in *.
  assert (P1 : (distanceFromCenter * cosine <= distanceFromCenter)%Q).
  { setoid_replace distanceFromCenter with (1 * distanceFromCenter)%Q at 2 by ring.
    rewrite (Qmult_comm distanceFromCenter). apply Qmult_le_compat_r; Lqa.lra. }
  assert (P2 : (- distanceFromCenter <= distanceFromCenter * cosine)%Q).
  { setoid_replace (- distanceFromCenter)%Q with (-1 * distanceFromCenter)%Q by ring.
    rewrite (Qmult_comm distanceFromCenter). apply Qmult_le_compat_r; Lqa.lra. }
  apply round32_between; try lia.
  - rewrite inject_Z_opp. Lqa.lra.
  - Lqa.lra.
Qed.

(** One coordinate of a candidate. *)
Lemma candidate_coordinate (m x v : Z) (offset : Q) :
  0 < m -> Z.abs x + 2 * m <= 16777216 ->
  (inject_Z (- (2 * m)) <= offset)%Q -> (offset <= inject_Z (2 * m))%Q ->
  int_of_Q (round binary32 (round binary32 (inject_Z x) + offset)) = Returned v ->
  x - 2 * m <= v <= x + 2 * m.
Proof.
  intros Hm Hx O1 O2 H. unfold int_of_Q in H.
  apply int_of_Z_Returned in H. destruct H as [-> _].
  assert (Ex : (round binary32 (inject_Z x) == inject_Z x)%Q).
  { apply round_format; [exact precision32 | apply in_format_int; lia]. }
  rewrite inject_Z_opp in O1.
  destruct (round32_between (x - 2 * m) (x + 2 * m)
              (round binary32 (inject_Z x) + offset)) as [R1 R2]; try lia.
  - rewrite Ex. unfold Z.sub. rewrite inject_Z_plus, inject_Z_opp. Lqa.lra.
  - rewrite Ex, inject_Z_plus. Lqa.lra.
  - apply truncation_within; assumption.
Qed.

(** X17.  A candidate differs from the point it is generated around by at
    most twice the minimum distance in each coordinate, when the
    coordinates of the point with twice the minimum distance added stay
    within the 24 bits that a [float] holds exactly; the random source is
    assumed to keep its contract.  Beyond 24 bits the sum is rounded:
    around the point (16777219, 0), for a minimum distance of 1, the
    candidate (16777222, 0) is generated. *)
Theorem candidate_stays_within_twice_the_distance (point : vector2di) (m : Z)
  (d : CandidateDraw) (c : vector2di) :
  0 < m -> valid_draw d ->
  Z.abs (X point) + 2 * m <= 16777216 -> Z.abs (Y point) + 2 * m <= 16777216 ->
  GenerateRandomPointAroundPoint point m d = Returned c ->
  (X point - 2 * m <= X c <= X point + 2 * m /\
   Y point - 2 * m <= Y c <= Y point + 2 * m) /\
  GenerateRandomPointAroundPoint (mkVector 16777219 0) 1 (mkDraw 1 1 0)
  = Returned (mkVector 16777222 0).
Proof.
  intros Hm (Hu & Hc & Hs) Hx Hy H. split; [|vm_compute; reflexivity].
  unfold GenerateRandomPointAroundPoint, Range, float_add, float_mul, float_of_int in H.
  inv_bind H. apply rounded_Returned in E. subst v.
  inv_bind H. apply rounded_Returned in E. subst v.
  inv_bind H. apply rounded_Returned in E. subst v.
  inv_bind H. apply rounded_Returned in E. subst v.
  inv_bind H. apply rounded_Returned in E. subst v.
  inv_bind H. apply rounded_Returned in E. subst v.
  inv_bind H. apply rounded_Returned in E. subst v.
  inv_bind H. apply rounded_Returned in E. subst v.
  inv_bind H. apply rounded_Returned in E. subst v.
  inv_bind H. rename v into newPointX, E into Ex.
  inv_bind H. apply rounded_Returned in E. subst v.
  inv_bind H. apply rounded_Returned in E. subst v.
  inv_bind H. apply rounded_Returned in E. subst v.
  inv_bind H. rename v into newPointY, E into Ey.
  inversion H; subst c; clear H. cbn [X Y].
  assert (Hm2 : 2 * m <= 16777216) by lia.
  destruct (distanceFromCenter_bounds m (radial d) Hm Hm2 Hu) as [D1 D2].
  cbv zeta in D1, D2.
  assert (D0 : (0 <= round binary32
                  (round binary32 (inject_Z m)
                   * round binary32 (1 + round binary32 (0 + radial d * (1 - 0)))))%Q).
  { assert (HM : (0 < inject_Z m)%Q)
      by (change 0%Q with (inject_Z 0); rewrite <- Zlt_Qlt; lia).
    Lqa.lra. }
  split.
  - destruct (offset_bounds m _ (cosAngle d) Hm Hm2 D0 D2 Hc) as [O1 O2].
    exact (candidate_coordinate m (X point) newPointX _ Hm Hx O1 O2 Ex).
  - destruct (offset_bounds m _ (sinAngle d) Hm Hm2 D0 D2 Hs) as [O1 O2].
    exact (candidate_coordinate m (Y point) newPointY _ Hm Hy O1 O2 Ey).
Qed.

Lemma drawEast_valid : valid_draw drawEast.
Proof.
  unfold valid_draw, unit_fraction, drawEast. cbn [radial cosAngle sinAngle].
  repeat split; unfold Qle; cbn; lia.
Qed.

Lemma candidate_stays_within_twice_the_distance_witness :
  0 < 10 /\ valid_draw drawEast /\
  Z.abs (X (mkVector 50 50)) + 2 * 10 <= 16777216 /\
  Z.abs (Y (mkVector 50 50)) + 2 * 10 <= 16777216 /\
  GenerateRandomPointAroundPoint (mkVector 50 50) 10 drawEast
  = Returned (mkVector 62 50) /\
  (X (mkVector 50 50) - 2 * 10 <= X (mkVector 62 50) <= X (mkVector 50 50) + 2 * 10 /\
   Y (mkVector 50 50) - 2 * 10 <= Y (mkVector 62 50) <= Y (mkVector 50 50) + 2 * 10) /\
  GenerateRandomPointAroundPoint (mkVector 16777219 0) 1 (mkDraw 1 1 0)
  = Returned (mkVector 16777222 0).
Proof.
  assert (Hm : 0 < 10) by lia.
  assert (Hx : Z.abs (X (mkVector 50 50)) + 2 * 10 <= 16777216) by (cbn; lia).
  assert (Hy : Z.abs (Y (mkVector 50 50)) + 2 * 10 <= 16777216) by (cbn; lia).
  assert (H : GenerateRandomPointAroundPoint (mkVector 50 50) 10 drawEast
              = Returned (mkVector 62 50)) by (vm_compute; reflexivity).
  split; [exact Hm|]. split; [exact drawEast_valid|]. split; [exact Hx|].
  split; [exact Hy|]. split; [exact H|].
  exact (candidate_stays_within_twice_the_distance (mkVector 50 50) 10 drawEast
           (mkVector 62 50) Hm drawEast_valid Hx Hy H).
Defined.

(** ** Quotients by the cell size *)

Lemma round32_relative_normal (q : Q) :
  (1 # 85070591730234615865843651857942052864 <= q)%Q ->
  (q * (16777215 # 16777216) <= round binary32 q)%Q /\
  (round binary32 q <= q * (16777217 # 16777216))%Q.
Proof.
  intros Hq.
  assert (H0 : (0 < q)%Q) by (eapply Qlt_le_trans; [|exact Hq]; reflexivity).
  assert (Ea : (Qabs q == q)%Q) by (apply Qabs_pos; Lqa.lra).
  destruct (round_close binary32 q) as [Hlo Hhi].
  { intros E. Lqa.lra. }
  { assert (Hl : -126 <= ilog2 (Qabs q)) by (apply ilog2_ge; rewrite Ea; exact Hq).
    cbn [emin precision binary32]. lia. }
  assert (E : (pow2 (- precision binary32) == 1 # 16777216)%Q) by reflexivity.
  rewrite E, Ea in Hlo, Hhi. split; Lqa.lra.
Qed.

(** The cell size is between half the minimum distance and the minimum
    distance. *)
Lemma pointGridCellSize_bounds (m : Z) :
  0 < m ->
  (inject_Z m * (1 # 2) <= pointGridCellSize m)%Q /\
  (pointGridCellSize m <= inject_Z m)%Q.
Proof.
  intros Hm. unfold pointGridCellSize. rewrite sqrt_2_value.
  set (s := (6369051672525773 # 4503599627370496)%Q).
  assert (HM : (1 <= inject_Z m)%Q)
    by (change 1%Q with (inject_Z 1); rewrite <- Zle_Qle; lia).
  assert (Hlo : (inject_Z m * (7 # 10) <= inject_Z m / s)%Q).
  { apply Qle_shift_div_l; [reflexivity|].
    setoid_replace (inject_Z m * (7 # 10) * s)%Q with (inject_Z m * ((7 # 10) * s))%Q by ring.
    assert (Hs : ((7 # 10) * s <= 1)%Q) by (unfold s, Qle; cbn; lia).
    set (k := ((7 # 10) * s)%Q) in *.
    setoid_replace (inject_Z m) with (inject_Z m * 1)%Q at 2 by ring.
    rewrite !(Qmult_comm (inject_Z m)). apply Qmult_le_compat_r; Lqa.lra. }
  assert (Hhi : (inject_Z m / s <= inject_Z m * (71 # 100))%Q).
  { apply Qle_shift_div_r; [reflexivity|].
    setoid_replace (inject_Z m * (71 # 100) * s)%Q with (inject_Z m * ((71 # 100) * s))%Q by ring.
    assert (Hs : (1 <= (71 # 100) * s)%Q) by (unfold s, Qle; cbn; lia).
    set (k := ((71 # 100) * s)%Q) in *.
    setoid_replace (inject_Z m) with (inject_Z m * 1)%Q at 1 by ring.
    rewrite !(Qmult_comm (inject_Z m)). apply Qmult_le_compat_r; Lqa.lra. }
  destruct (round64_relative (inject_Z m / s)) as [H1 H2]; [Lqa.lra|].
  destruct (round32_relative (round binary64 (inject_Z m / s))) as [H3 H4]; [Lqa.lra|].
  split; Lqa.lra.
Qed.

(** The quotient of a coordinate that is not negative by the cell size,
    as [int_div_cell] computes it: the exact quotient with a relative
    error of two roundings. *)
Lemma int_div_cell_near (x t : Z) (cellSize : float) :
  0 <= x -> (0 < cellSize)%Q -> (cellSize <= 4294967296)%Q ->
  int_div_cell x cellSize = Returned t ->
  0 <= t /\
  (inject_Z t <= inject_Z x / cellSize * (4194305 # 4194304))%Q /\
  (inject_Z x / cellSize * (4194303 # 4194304) < inject_Z t + 1)%Q.
Proof.
  intros Hx Hc Hc' H. unfold int_div_cell, float_of_int in H.
  inv_bind H. apply rounded_Returned in E. subst v.
  inv_bind H. apply float_div_Returned in E. destruct E as [_ ->].
  assert (Hi : (0 < / cellSize)%Q) by (apply Qinv_lt_0_compat; exact Hc).
  destruct (Z.eq_dec x 0) as [->|Hne].
  - change (inject_Z 0) with 0%Q in *.
    rewrite (round_zero binary32 0) in H by reflexivity.
    rewrite (round_zero binary32 (0 / cellSize)) in H by (unfold Qdiv; ring).
    cbn in H. inversion H; subst t. split; [lia|].
    assert (E : (0 / cellSize == 0)%Q) by (unfold Qdiv; ring).
    rewrite E. change (inject_Z 0) with 0%Q. split; Lqa.lra.
  - assert (HX : (1 <= inject_Z x)%Q)
      by (change 1%Q with (inject_Z 1); rewrite <- Zle_Qle; lia).
    destruct (round32_relative (inject_Z x)) as [X1 X2]; [Lqa.lra|].
    set (fx := round binary32 (inject_Z x)) in *.
    unfold Qdiv in *. set (i := (/ cellSize)%Q) in *.
    assert (Q1 : (inject_Z x * i * (16777215 # 16777216) <= fx * i)%Q).
    { setoid_replace (inject_Z x * i * (16777215 # 16777216))%Q
        with (inject_Z x * (16777215 # 16777216) * i)%Q by ring.
      apply Qmult_le_compat_r; Lqa.lra. }
    assert (Q2 : (fx * i <= inject_Z x * i * (16777217 # 16777216))%Q).
    { setoid_replace (inject_Z x * i * (16777217 # 16777216))%Q
        with (inject_Z x * (16777217 # 16777216) * i)%Q by ring.
      apply Qmult_le_compat_r; Lqa.lra. }
    assert (Hbig : (1 # 4294967296 <= i)%Q).
    { unfold i. apply Qle_shift_inv_l; [exact Hc|]. Lqa.lra. }
    assert (Q0 : (1 # 4294967296 <= inject_Z x * i)%Q).
    { apply Qle_trans with (1 * i)%Q; [Lqa.lra|].
      apply Qmult_le_compat_r; Lqa.lra. }
    set (q := (inject_Z x * i)%Q) in *.
    destruct (round32_relative_normal (fx * i)) as [R1 R2].
    { apply Qle_trans with ((1 # 4294967296) * (16777215 # 16777216))%Q;
        [unfold Qle; cbn; lia | Lqa.lra]. }
    apply int_of_Q_nonneg in H; [|Lqa.lra].
    destruct H as (T0 & T1 & T2). split; [exact T0|]. split; Lqa.lra.
Qed.

(** X15.  [PointToGridTile] returns, for each coordinate of the point
    that is not negative, the quotient of the coordinate by the cell size
    converted to [int], where the coordinate is converted to [float] and
    the quotient is rounded to [float]: the exact quotient truncated, up
    to a relative error of 2^-22.  The rounding can reach the next
    integer: with the minimum distance 370810 the cell size is 262202.25,
    and the coordinate 8914876, below 34 cells, is on tile 34. *)
Theorem PointToGridTile_rounds_the_quotient (m : Z) (p t : vector2di) :
  0 < m <= MAX_INT -> 0 <= X p -> 0 <= Y p ->
  PointToGridTile p (pointGridCellSize m) = Returned t ->
  (0 <= X t /\
   (inject_Z (X t) <= inject_Z (X p) / pointGridCellSize m * (4194305 # 4194304))%Q /\
   (inject_Z (X p) / pointGridCellSize m * (4194303 # 4194304) < inject_Z (X t) + 1)%Q) /\
  (0 <= Y t /\
   (inject_Z (Y t) <= inject_Z (Y p) / pointGridCellSize m * (4194305 # 4194304))%Q /\
   (inject_Z (Y p) / pointGridCellSize m * (4194303 # 4194304) < inject_Z (Y t) + 1)%Q) /\
  (PointToGridTile (mkVector 8914876 0) (pointGridCellSize 370810)
   = Returned (mkVector 34 0) /\
   (inject_Z 8914876 < 34 * pointGridCellSize 370810)%Q).
Proof.
  intros Hm Hx Hy H. unfold PointToGridTile in H. inv_bind H. inv_bind H.
  inversion H; subst t; clear H. cbn [X Y].
  destruct (pointGridCellSize_sign m) as (Hc & _). specialize (Hc (proj1 Hm)).
  destruct (pointGridCellSize_bounds m (proj1 Hm)) as [_ Hb].
  assert (Hc' : (pointGridCellSize m <= 4294967296)%Q).
  { apply Qle_trans with (inject_Z m); [exact Hb|].
    change 4294967296%Q with (inject_Z 4294967296). rewrite <- Zle_Qle.
    unfold MAX_INT in Hm. lia. }
  split; [exact (int_div_cell_near _ _ _ Hx Hc Hc' E)|].
  split; [exact (int_div_cell_near _ _ _ Hy Hc Hc' E0)|].
  split; vm_compute; reflexivity.
Qed.

Lemma PointToGridTile_rounds_the_quotient_witness :
  0 < 10 <= MAX_INT /\ 0 <= X (mkVector 50 5) /\ 0 <= Y (mkVector 50 5) /\
  PointToGridTile (mkVector 50 5) (pointGridCellSize 10) = Returned (mkVector 7 0) /\
  (0 <= X (mkVector 7 0) /\
   (inject_Z (X (mkVector 7 0))
    <= inject_Z (X (mkVector 50 5)) / pointGridCellSize 10 * (4194305 # 4194304))%Q /\
   (inject_Z (X (mkVector 50 5)) / pointGridCellSize 10 * (4194303 # 4194304)
    < inject_Z (X (mkVector 7 0)) + 1)%Q) /\
  (0 <= Y (mkVector 7 0) /\
   (inject_Z (Y (mkVector 7 0))
    <= inject_Z (Y (mkVector 50 5)) / pointGridCellSize 10 * (4194305 # 4194304))%Q /\
   (inject_Z (Y (mkVector 50 5)) / pointGridCellSize 10 * (4194303 # 4194304)
    < inject_Z (Y (mkVector 7 0)) + 1)%Q) /\
  (PointToGridTile (mkVector 8914876 0) (pointGridCellSize 370810)
   = Returned (mkVector 34 0) /\
   (inject_Z 8914876 < 34 * pointGridCellSize 370810)%Q).
Proof.
  assert (Hm : 0 < 10 <= MAX_INT) by (unfold MAX_INT; lia).
  assert (Hx : 0 <= X (mkVector 50 5)) by (cbn; lia).
  assert (Hy : 0 <= Y (mkVector 50 5)) by (cbn; lia).
  assert (H : PointToGridTile (mkVector 50 5) (pointGridCellSize 10)
              = Returned (mkVector 7 0)) by (vm_compute; reflexivity).
  split; [exact Hm|]. split; [exact Hx|]. split; [exact Hy|]. split; [exact H|].
  exact (PointToGridTile_rounds_the_quotient 10 (mkVector 50 5) (mkVector 7 0)
           Hm Hx Hy H).
Defined.

(** ** The dimensions of the grid *)

Lemma rounded_below (f : Format) (q r b : Q) :
  (0 <= round f q)%Q -> (round f q <= b)%Q -> rounded f r = Returned b ->
  rounded f q = Returned (round f q).
Proof.
  unfold rounded. intros H0 Hb H.
  destruct (Qle_bool (pow2 (emax f)) (Qabs (round f r))) eqn:E; [discriminate|].
  inversion H; subst b; clear H.
  destruct (Qle_bool (pow2 (emax f)) (Qabs (round f q))) eqn:E'; [|reflexivity].
  exfalso. apply Qle_bool_iff in E'.
  assert (En : ~ (pow2 (emax f) <= Qabs (round f r))%Q).
  { intros Hle. apply Qle_bool_iff in Hle. congruence. }
  apply En. rewrite Qabs_pos in E' by exact H0.
  rewrite Qabs_pos by Lqa.lra. Lqa.lra.
Qed.

Lemma Qceiling_ge (q : Q) : (q <= inject_Z (Qceiling q))%Q.
Proof. apply Qle_ceiling. Qed.

(** The tile coordinate of a coordinate of the map is at most the
    dimension of the grid. *)
Lemma int_div_cell_le_grid (x w g : Z) (cellSize : float) :
  (0 < cellSize)%Q -> 0 <= x <= w -> w < 4294967296 ->
  int_ceil_div_cell w cellSize = Returned g ->
  exists t, int_div_cell x cellSize = Returned t /\ 0 <= t <= g.
Proof.
  intros Hc Hx Hw H. unfold int_ceil_div_cell, float_of_u32 in H.
  rewrite u32_small in H by lia.
  inv_bind H. rename v into fw, E into Efw.
  inv_bind H. rename v into qw, E into Eqw.
  pose proof Efw as Efw'. apply rounded_Returned in Efw'.
  unfold float_div in Eqw.
  destruct (Qeq_bool cellSize 0) eqn:Ec; [discriminate|].
  pose proof Eqw as Eqw'. apply rounded_Returned in Eqw'.
  apply int_of_Z_Returned in H. destruct H as [-> Hg].
  assert (X0 : (0 <= inject_Z x)%Q)
    by (change 0%Q with (inject_Z 0); rewrite <- Zle_Qle; lia).
  assert (XW : (inject_Z x <= inject_Z w)%Q) by (rewrite <- Zle_Qle; lia).
  pose proof (round_nonneg binary32 _ X0) as F0.
  pose proof (round_mono binary32 _ _ precision32 XW) as F1.
  rewrite <- Efw' in F1.
  assert (Hi : (0 < / cellSize)%Q) by (apply Qinv_lt_0_compat; exact Hc).
  assert (D0 : (0 <= round binary32 (inject_Z x) / cellSize)%Q).
  { unfold Qdiv. apply Qmult_le_0_compat; Lqa.lra. }
  assert (D1 : (round binary32 (inject_Z x) / cellSize <= fw / cellSize)%Q).
  { unfold Qdiv. apply Qmult_le_compat_r; Lqa.lra. }
  pose proof (round_nonneg binary32 _ D0) as G0.
  pose proof (round_mono binary32 _ _ precision32 D1) as G1.
  rewrite <- Eqw' in G1.
  unfold int_div_cell, float_of_int, float_div.
  rewrite (rounded_below binary32 _ _ _ F0 F1 Efw). cbn [bind].
  rewrite Ec.
  rewrite (rounded_below binary32 _ _ _ G0 G1 Eqw). cbn [bind].
  set (qx := round binary32 (round binary32 (inject_Z x) / cellSize)) in *.
  pose proof (Qceiling_ge qw) as Hq.
  assert (Ht : 0 <= Z.quot (Qnum qx) (Zpos (Qden qx)) <= Qceiling qw).
  { apply truncation_within; [exact G0 | Lqa.lra]. }
  exists (Z.quot (Qnum qx) (Zpos (Qden qx))). split; [|exact Ht].
  unfold int_of_Q, int_of_Z.
  replace ((MIN_INT <=? _) && (_ <=? MAX_INT)) with true; [reflexivity|].
  symmetry. apply andb_true_intro.
  unfold MIN_INT, MAX_INT in *. split; [apply Z.leb_le | apply Z.leb_le]; lia.
Qed.

(** X16.  The dimensions of the grid are the quotients of the map
    dimensions by the cell size, computed in [float] and rounded up.  The
    tile of every point of the map is a value of [int] and at most the
    dimensions of the grid, but it need not be below them: on a map of
    8914877 by 8914877 with the minimum distance 370810 the grid has 34 by
    34 tiles and the point (8914876, 0) of the map is on tile (34, 0), and
    on a map of 16815 by 16815 with the minimum distance 10 the grid has
    2378 by 2378 tiles, which are narrower than the map. *)
Theorem grid_covers_the_map_but_for_one_tile (m : Z) (mapDimensions : dimension2du)
  (gw gh : Z) (p : vector2di) :
  0 < m -> wf_dimension mapDimensions ->
  int_ceil_div_cell (Width mapDimensions) (pointGridCellSize m) = Returned gw ->
  int_ceil_div_cell (Height mapDimensions) (pointGridCellSize m) = Returned gh ->
  InMap mapDimensions p ->
  (exists t, PointToGridTile p (pointGridCellSize m) = Returned t /\
             0 <= X t <= gw /\ 0 <= Y t <= gh) /\
  (int_ceil_div_cell 8914877 (pointGridCellSize 370810) = Returned 34 /\
   PointToGridTile (mkVector 8914876 0) (pointGridCellSize 370810)
   = Returned (mkVector 34 0)) /\
  (int_ceil_div_cell 16815 (pointGridCellSize 10) = Returned 2378 /\
   (2378 * pointGridCellSize 10 < 16815)%Q).
Proof.
  intros Hm [Hw Hh] Hgw Hgh [Hx Hy].
  destruct (pointGridCellSize_sign m) as (Hc & _). specialize (Hc Hm).
  split; [|split; split; vm_compute; reflexivity].
  assert (Hx' : 0 <= X p <= Width mapDimensions) by lia.
  assert (Hy' : 0 <= Y p <= Height mapDimensions) by lia.
  destruct (int_div_cell_le_grid _ _ _ _ Hc Hx' (proj2 Hw) Hgw) as (tx & Ex & Tx).
  destruct (int_div_cell_le_grid _ _ _ _ Hc Hy' (proj2 Hh) Hgh) as (ty & Ey & Ty).
  exists (mkVector tx ty). unfold PointToGridTile. rewrite Ex. cbn [bind].
  rewrite Ey. cbn [bind X Y]. auto.
Qed.

Lemma grid_covers_the_map_but_for_one_tile_witness :
  0 < 10 /\ wf_dimension map100 /\
  int_ceil_div_cell (Width map100) (pointGridCellSize 10) = Returned 15 /\
  int_ceil_div_cell (Height map100) (pointGridCellSize 10) = Returned 15 /\
  InMap map100 (mkVector 99 99) /\
  (exists t, PointToGridTile (mkVector 99 99) (pointGridCellSize 10) = Returned t /\
             0 <= X t <= 15 /\ 0 <= Y t <= 15) /\
  (int_ceil_div_cell 8914877 (pointGridCellSize 370810) = Returned 34 /\
   PointToGridTile (mkVector 8914876 0) (pointGridCellSize 370810)
   = Returned (mkVector 34 0)) /\
  (int_ceil_div_cell 16815 (pointGridCellSize 10) = Returned 2378 /\
   (2378 * pointGridCellSize 10 < 16815)%Q).
Proof.
  assert (Hm : 0 < 10) by lia.
  assert (Hw : int_ceil_div_cell (Width map100) (pointGridCellSize 10) = Returned 15)
    by (vm_compute; reflexivity).
  assert (Hh : int_ceil_div_cell (Height map100) (pointGridCellSize 10) = Returned 15)
    by (vm_compute; reflexivity).
  assert (Hp : InMap map100 (mkVector 99 99)) by (unfold InMap; cbn; lia).
  split; [exact Hm|]. split; [exact map100_wf|]. split; [exact Hw|]. split; [exact Hh|].
  split; [exact Hp|].
  exact (grid_covers_the_map_but_for_one_tile 10 map100 15 15 (mkVector 99 99)
           Hm map100_wf Hw Hh Hp).
Defined.

(** ** The points that candidates are generated around *)

Lemma InMap_exact_in_float (m : Z) (mapDimensions : dimension2du) (p : vector2di) :
  Width mapDimensions + 2 * m <= 16777216 ->
  Height mapDimensions + 2 * m <= 16777216 ->
  InMap mapDimensions p -> exact_in_float m p.
Proof. unfold InMap, exact_in_float. lia. Qed.

Lemma InsideRectangle_InMap (c : vector2di) (mapDimensions : dimension2du) :
  wf_dimension mapDimensions ->
  MIN_INT <= X c <= MAX_INT -> MIN_INT <= Y c <= MAX_INT ->
  InsideRectangle c (mkVector 0 0) mapDimensions = true -> InMap mapDimensions c.
Proof.
  intros [Hw Hh] Hx Hy H.
  exact (InsideRectangle_origin c mapDimensions Hx Hy (proj1 Hw) (proj1 Hh) H).
Qed.

Section Parents.

Variable m : Z.
Variable mapDimensions : dimension2du.
Variable max : Z.
Variable rs : RandomSource.

Hypothesis m_pos : 0 < m.
Hypothesis draws_valid : forall n, valid_draw (draw rs n).
Hypothesis map_wf : wf_dimension mapDimensions.
Hypothesis map_width : Width mapDimensions + 2 * m <= 16777216.
Hypothesis map_height : Height mapDimensions + 2 * m <= 16777216.

Lemma GenerateRandomPointAroundPoint_around (p c : vector2di) (d : CandidateDraw) :
  valid_draw d -> exact_in_float m p ->
  GenerateRandomPointAroundPoint p m d = Returned c -> around m p c.
Proof.
  intros Hd [Hx Hy] H. unfold around.
  unfold GenerateRandomPointAroundPoint, Range, float_add, float_mul, float_of_int in H.
  destruct Hd as (Hu & Hc & Hs).
  inv_bind H. apply rounded_Returned in E. subst v.
  inv_bind H. apply rounded_Returned in E. subst v.
  inv_bind H. apply rounded_Returned in E. subst v.
  inv_bind H. apply rounded_Returned in E. subst v.
  inv_bind H. apply rounded_Returned in E. subst v.
  inv_bind H. apply rounded_Returned in E. subst v.
  inv_bind H. apply rounded_Returned in E. subst v.
  inv_bind H. apply rounded_Returned in E. subst v.
  inv_bind H. apply rounded_Returned in E. subst v.
  inv_bind H. rename v into newPointX, E into Ex.
  inv_bind H. apply rounded_Returned in E. subst v.
  inv_bind H. apply rounded_Returned in E. subst v.
  inv_bind H. apply rounded_Returned in E. subst v.
  inv_bind H. rename v into newPointY, E into Ey.
  inversion H; subst c; clear H. cbn [X Y].
  assert (Hm2 : 2 * m <= 16777216) by lia.
  destruct (distanceFromCenter_bounds m (radial d) m_pos Hm2 Hu) as [D1 D2].
  cbv zeta in D1, D2.
  assert (D0 : (0 <= round binary32
                  (round binary32 (inject_Z m)
                   * round binary32 (1 + round binary32 (0 + radial d * (1 - 0)))))%Q).
  { assert (HM : (0 < inject_Z m)%Q)
      by (change 0%Q with (inject_Z 0); rewrite <- Zlt_Qlt; lia).
    Lqa.lra. }
  split.
  - destruct (offset_bounds m _ (cosAngle d) m_pos Hm2 D0 D2 Hc) as [O1 O2].
    exact (candidate_coordinate m (X p) newPointX _ m_pos Hx O1 O2 Ex).
  - destruct (offset_bounds m _ (sinAngle d) m_pos Hm2 D0 D2 Hs) as [O1 O2].
    exact (candidate_coordinate m (Y p) newPointY _ m_pos Hy O1 O2 Ey).
Qed.

(** The points that a pass of the [for] loop accepts are points of the
    map around the current point. *)
Lemma forLoop_around (n : nat) (cur : vector2di) (st st' : LoopState) :
  exact_in_float m cur ->
  forLoop m mapDimensions max rs n cur st = Returned st' ->
  exists k, processQueue st' = processQueue st ++ k /\
            outputList st' = outputList st ++ k /\
            processed st' = processed st /\
            Forall (around m cur) k /\ Forall (exact_in_float m) k.
Proof.
  intros Hcur. revert st. induction n as [|n IH]; intros st H; cbn [forLoop] in H.
  - inversion H; subst. exists []. rewrite !app_nil_r. auto.
  - inv_bind H. destruct v as [st1 b]. cbn [fst snd] in H.
    destruct (tryPoint_cases _ _ _ _ _ _ _ _ E)
      as [[-> ->]|(c & t & g' & Ec & Ein & _ & _ & _ & -> & ->)].
    + destruct (IH _ H) as (k & Hq & Ho & Hp & Hk).
      cbn [processQueue outputList processed] in Hq, Ho, Hp. eauto.
    + pose proof (GenerateRandomPointAroundPoint_around _ _ _ (draws_valid _) Hcur Ec)
        as Hc.
      destruct (GenerateRandomPointAroundPoint_range _ _ _ _ Ec) as [Rx Ry].
      pose proof (InMap_exact_in_float m _ _ map_width map_height
                    (InsideRectangle_InMap _ _ map_wf Rx Ry Ein)) as He.
      destruct (max <? MAX_INT).
      * inversion H; subst; clear H.
        cbn [processQueue outputList processed]. exists [c].
        repeat split; auto.
      * destruct (IH _ H) as (k & Hq & Ho & Hp & Hk & Hk').
        cbn [processQueue outputList processed] in Hq, Ho, Hp.
        exists (c :: k). rewrite Hq, Ho, <- !app_assoc. repeat split; auto.
Qed.

(** Every point that the [while] loop accepts comes after the point it
    was generated around, in the sequence of the points processed and
    queued. *)
Lemma whileLoop_parents (fuel : nat) (st st' : LoopState) :
  Forall (exact_in_float m) (processQueue st) ->
  whileLoop m mapDimensions max rs fuel st = Returned st' ->
  exists k,
    outputList st' = outputList st ++ k /\
    forall pre c post, k = pre ++ c :: post ->
      exists before parent between,
        processed st ++ processQueue st ++ pre = before ++ parent :: between /\
        In parent (processed st') /\ around m parent c.
Proof.
  revert st. induction fuel as [|fuel IH]; intros st Hq H; cbn [whileLoop] in H.
  - destruct (whileCondition max st); [discriminate|]. inversion H; subst.
    exists []. rewrite app_nil_r. split; [reflexivity|].
    intros pre c post E. destruct pre; discriminate.
  - destruct (whileCondition max st).
    2:{ inversion H; subst. exists []. rewrite app_nil_r. split; [reflexivity|].
        intros pre c post E. destruct pre; discriminate. }
    inv_bind H. rename v into st1.
    unfold whileBody in E.
    destruct (processQueue st) as [|cur rest] eqn:Eq; [discriminate|].
    inv_bind E. rename v into st2.
    inversion Hq as [|? ? Hcur Hrest]; subst.
    destruct (forLoop_around _ _ _ _ Hcur E0) as (k1 & Hq1 & Ho1 & Hp1 & Hk1 & He1).
    cbn [processQueue outputList processed] in Hq1, Ho1, Hp1.
    rewrite popCondition_true in E. inversion E; subst st1; clear E.
    assert (Hq2 : Forall (exact_in_float m) (tl (processQueue st2))).
    { rewrite Hq1. cbn [tl app]. apply Forall_app. split; assumption. }
    destruct (IH (mkState (tl (processQueue st2)) (outputList st2) (pointGrid st2)
                          (numberOfPoints st2) (draws st2) (processed st2)) Hq2 H)
      as (k2 & Ho2 & Hk2).
    destruct (whileLoop_account _ _ _ _ _ _ _ H) as (_ & done & _ & Hp2 & _).
    cbn [processQueue outputList processed] in Ho2, Hk2, Hp2.
    rewrite Hq1 in Hk2. cbn [tl app] in Hk2. rewrite Hp1 in Hk2, Hp2.
    exists (k1 ++ k2). split; [rewrite Ho2, Ho1, app_assoc; reflexivity|].
    intros pre c post Ek.
    apply app_eq_app in Ek. destruct Ek as (l & [[E1 E2]|[E1 E2]]).
    + destruct l as [|c' l].
      * cbn [app] in E2. rewrite app_nil_r in E1. subst k1.
        destruct (Hk2 [] c post (eq_sym E2)) as (before & parent & between & Hs & Hin & Ha).
        exists before, parent, between. split; [|auto].
        rewrite <- Hs, app_nil_r, <- !app_assoc. reflexivity.
      * cbn [app] in E2. inversion E2; subst c' post. subst k1.
        exists (processed st), cur, (rest ++ pre). split; [|split].
        -- reflexivity.
        -- rewrite Hp2. apply in_or_app. left. apply in_or_app. right. left. reflexivity.
        -- rewrite Forall_forall in Hk1. apply Hk1. apply in_or_app. right. left.
           reflexivity.
    + subst pre.
      destruct (Hk2 l c post E2) as (before & parent & between & Hs & Hin & Ha).
      exists before, parent, between. split; [|auto].
      rewrite <- Hs, <- !app_assoc. reflexivity.
Qed.

End Parents.

(** X23.  The sample grows from point to point: every point of the output
    list, other than the first point of a call without existing points,
    was generated around a point that the loop processed and that comes
    before it in the sequence of the existing points followed by the
    output list, and lies within twice the minimum distance of that point
    in each coordinate.  The map and the existing points are assumed to
    stay, with twice the minimum distance added, within the 24 bits that a
    [float] holds exactly, and the random source to keep its contract.  The returned list is the output list without the
    points of the excluded sections. *)
Theorem every_point_is_around_an_earlier_point (m : Z)
  (mapDimensions : dimension2du) (max : Z) (rs : RandomSource)
  (sections : list MapSection) (seeds : list vector2di) (fuel : nat)
  (st : LoopState) (out : ListOfPoints) :
  0 < m -> (forall n, valid_draw (draw rs n)) -> (seeds = [] -> valid_first rs) ->
  0 < Width mapDimensions -> Width mapDimensions + 2 * m <= 16777216 ->
  0 < Height mapDimensions -> Height mapDimensions + 2 * m <= 16777216 ->
  Forall (exact_in_float m) seeds ->
  generationLoop m mapDimensions max rs seeds fuel = Returned st ->
  GeneratePoints m mapDimensions max rs sections seeds fuel = Returned out ->
  (forall c, In c out -> In c (outputList st)) /\
  forall pre c post, outputList st = pre ++ c :: post ->
    (seeds = [] /\ pre = []) \/
    exists before parent between,
      seeds ++ pre = before ++ parent :: between /\
      In parent (processed st) /\
      X parent - 2 * m <= X c <= X parent + 2 * m /\
      Y parent - 2 * m <= Y c <= Y parent + 2 * m.
Proof.
  intros Hm Hd Hv Hw0 Hw Hh0 Hh Hseeds Hst H.
  assert (Hwf : wf_dimension mapDimensions) by (split; lia).
  split.
  { intros c Hc. apply GeneratePoints_Returned in H. destruct H as (st' & Hst' & ->).
    rewrite Hst in Hst'. inversion Hst'; subst st'.
    apply excludeAll_In in Hc. exact (proj1 Hc). }
  clear H out. intros pre c post Ho.
  unfold generationLoop in Hst. inv_bind Hst. rename v into st0.
  destruct (initialState_account _ _ _ _ _ E) as (_ & _ & Hp0 & Hq0 & Hl0).
  assert (Hq : Forall (exact_in_float m) (processQueue st0)).
  { rewrite Hq0. apply Forall_app. split; [exact Hseeds|].
    destruct seeds as [|s rest].
    - assert (Hin : Forall (InMap mapDimensions) (outputList st0)).
      { apply (initialState_bounds m mapDimensions rs [] st0); auto; lia. }
      rewrite Forall_forall in *. intros p Hp.
      exact (InMap_exact_in_float m _ _ Hw Hh (Hin p Hp)).
    - destruct (outputList st0); [constructor | discriminate]. }
  destruct (whileLoop_parents m mapDimensions max rs Hm Hd Hwf Hw Hh _ _ _ Hq Hst)
    as (k & Hk & Hpar).
  rewrite Hp0, Hq0 in Hpar. cbn [app] in Hpar.
  rewrite Hk in Ho.
  destruct seeds as [|s rest].
  - destruct (outputList st0) as [|p0 [|p1 l]]; cbn in Hl0; try discriminate.
    destruct pre as [|p pre'].
    + left. auto.
    + right. cbn [app] in Ho. inversion Ho; subst p.
      destruct (Hpar pre' c post H1) as (before & parent & between & Hs & Hin & Ha).
      exists before, parent, between. cbn [app] in *. split; [exact Hs|].
      split; [exact Hin | exact Ha].
  - right. destruct (outputList st0); [|discriminate]. cbn [app] in Ho.
    destruct (Hpar pre c post Ho) as (before & parent & between & Hs & Hin & Ha).
    exists before, parent, between. rewrite app_nil_r in Hs. split; [exact Hs|].
    split; [exact Hin | exact Ha].
Qed.

Lemma sourceEast_draws : forall n, valid_draw (draw sourceEast n).
Proof. intros n. exact drawEast_valid. Qed.

Lemma every_point_is_around_an_earlier_point_witness :
  0 < 10 /\ (forall n, valid_draw (draw sourceEast n)) /\
  (@nil vector2di = [] -> valid_first sourceEast) /\
  0 < Width map100 /\ Width map100 + 2 * 10 <= 16777216 /\
  0 < Height map100 /\ Height map100 + 2 * 10 <= 16777216 /\
  Forall (exact_in_float 10) [] /\
  generationLoop 10 map100 MAX_INT sourceEast [] 300 = Returned stateEast /\
  GeneratePoints 10 map100 MAX_INT sourceEast [] [] 300
  = Returned [mkVector 50 50; mkVector 62 50; mkVector 74 50;
              mkVector 86 50; mkVector 98 50] /\
  (forall c,
     In c [mkVector 50 50; mkVector 62 50; mkVector 74 50;
           mkVector 86 50; mkVector 98 50] ->
     In c (outputList stateEast)) /\
  forall pre c post, outputList stateEast = pre ++ c :: post ->
    (@nil vector2di = [] /\ pre = []) \/
    exists before parent between,
      [] ++ pre = before ++ parent :: between /\
      In parent (processed stateEast) /\
      X parent - 2 * 10 <= X c <= X parent + 2 * 10 /\
      Y parent - 2 * 10 <= Y c <= Y parent + 2 * 10.
Proof.
  assert (Hm : 0 < 10) by lia.
  assert (Hv : @nil vector2di = [] -> valid_first sourceEast)
    by (intros _; exact sourceEast_valid).
  assert (Hw0 : 0 < Width map100) by (cbn; lia).
  assert (Hw : Width map100 + 2 * 10 <= 16777216) by (cbn; lia).
  assert (Hh0 : 0 < Height map100) by (cbn; lia).
  assert (Hh : Height map100 + 2 * 10 <= 16777216) by (cbn; lia).
  assert (Hs : Forall (exact_in_float 10) []) by constructor.
  split; [exact Hm|]. split; [exact sourceEast_draws|]. split; [exact Hv|].
  split; [exact Hw0|]. split; [exact Hw|]. split; [exact Hh0|]. split; [exact Hh|].
  split; [exact Hs|]. split; [exact stateEast_run|]. split; [exact sourceEast_run|].
  exact (every_point_is_around_an_earlier_point 10 map100 MAX_INT sourceEast []
           [] 300 stateEast _ Hm sourceEast_draws Hv Hw0 Hw Hh0 Hh Hs
           stateEast_run sourceEast_run).
Defined.

(** ** One candidate *)

(** X20.  One pass of the body of the [for] loop draws a candidate around
    the current point.  The candidate is dropped when it is outside the
    map or [InNeighborhood] answers [true]: queue, output list, grid and
    counter stay as they are.  Otherwise it is pushed on the queue,
    appended to the output list and counted, and it is stored in the grid
    at its tile, where it replaces what the tile held; the other tiles
    are left as they are.  The pass ends in [break] when the candidate was
    accepted and a cap was passed in. *)
Theorem tryPoint_accepts_and_stores (m : Z) (mapDimensions : dimension2du)
  (max : Z) (rs : RandomSource) (cur : vector2di) (st st' : LoopState) (b : bool) :
  wf_dimension mapDimensions ->
  tryPoint m mapDimensions max rs cur st = Returned (st', b) ->
  exists c,
    GenerateRandomPointAroundPoint cur m (draw rs (draws st)) = Returned c /\
    draws st' = S (draws st) /\ processed st' = processed st /\
    (((~ InMap mapDimensions c \/
       InNeighborhood c m (pointGrid st) (pointGridCellSize m) = Returned true) /\
      b = false /\
      processQueue st' = processQueue st /\ outputList st' = outputList st /\
      pointGrid st' = pointGrid st /\ numberOfPoints st' = numberOfPoints st) \/
     (InMap mapDimensions c /\
      InNeighborhood c m (pointGrid st) (pointGridCellSize m) = Returned false /\
      b = (max <? MAX_INT) /\
      processQueue st' = processQueue st ++ [c] /\
      outputList st' = outputList st ++ [c] /\
      numberOfPoints st' = numberOfPoints st + 1 /\
      exists t, PointToGridTile c (pointGridCellSize m) = Returned t /\
                gridAt (pointGrid st') t = Returned c /\
                forall t', t' <> t ->
                  gridAt (pointGrid st') t' = gridAt (pointGrid st) t')).
Proof.
  intros Hwf H. unfold tryPoint in H. inv_bind H. rename v into c.
  exists c. split; [exact E|].
  destruct (GenerateRandomPointAroundPoint_range _ _ _ _ E) as [Rx Ry].
  cbn [pointGrid outputList processQueue numberOfPoints draws processed] in H.
  destruct (InsideRectangle c (mkVector 0 0) mapDimensions) eqn:Ein.
  2:{ inversion H; subst; clear H. cbn [draws processed processQueue outputList
                                         pointGrid numberOfPoints].
      split; [reflexivity|]. split; [reflexivity|]. left.
      split; [|repeat split; reflexivity].
      left. intros Hin. destruct Hwf as [Hw Hh]. destruct Hin as [Hx Hy].
      rewrite (InsideRectangle_origin_intro c mapDimensions Hx Hy (proj2 Hw) (proj2 Hh))
        in Ein. discriminate. }
  pose proof (InsideRectangle_InMap _ _ Hwf Rx Ry Ein) as Hin.
  inv_bind H. rename v into near. destruct near; cbn [negb] in H.
  { inversion H; subst; clear H. cbn [draws processed processQueue outputList
                                       pointGrid numberOfPoints].
    split; [reflexivity|]. split; [reflexivity|]. left.
    split; [right; exact E0 | repeat split; reflexivity]. }
  inv_bind H. rename v into t. inv_bind H. rename v into g'.
  inv_bind H. rename v into counted. inversion H; subst; clear H.
  apply int_of_Z_Returned in E3. destruct E3 as [-> _].
  cbn [draws processed processQueue outputList pointGrid numberOfPoints].
  split; [reflexivity|]. split; [reflexivity|]. right.
  split; [exact Hin|]. split; [exact E0|]. split; [reflexivity|].
  split; [reflexivity|]. split; [reflexivity|]. split; [reflexivity|].
  exists t. split; [exact E1|]. split.
  - exact (gridAt_store_same _ _ _ _ E2).
  - intros t' Hne. exact (gridAt_store_other _ _ _ _ _ E2 Hne).
Qed.

Lemma tryPoint_accepts_and_stores_witness :
  wf_dimension map100 /\
  tryPoint 10 map100 MAX_INT sourceEast (mkVector 50 50) stateFirst
  = Returned (stateSecond, false) /\
  exists c,
    GenerateRandomPointAroundPoint (mkVector 50 50) 10 (draw sourceEast (draws stateFirst))
    = Returned c /\
    draws stateSecond = S (draws stateFirst) /\
    processed stateSecond = processed stateFirst /\
    (((~ InMap map100 c \/
       InNeighborhood c 10 (pointGrid stateFirst) (pointGridCellSize 10) = Returned true) /\
      false = false /\
      processQueue stateSecond = processQueue stateFirst /\
      outputList stateSecond = outputList stateFirst /\
      pointGrid stateSecond = pointGrid stateFirst /\
      numberOfPoints stateSecond = numberOfPoints stateFirst) \/
     (InMap map100 c /\
      InNeighborhood c 10 (pointGrid stateFirst) (pointGridCellSize 10) = Returned false /\
      false = (MAX_INT <? MAX_INT) /\
      processQueue stateSecond = processQueue stateFirst ++ [c] /\
      outputList stateSecond = outputList stateFirst ++ [c] /\
      numberOfPoints stateSecond = numberOfPoints stateFirst + 1 /\
      exists t, PointToGridTile c (pointGridCellSize 10) = Returned t /\
                gridAt (pointGrid stateSecond) t = Returned c /\
                forall t', t' <> t ->
                  gridAt (pointGrid stateSecond) t' = gridAt (pointGrid stateFirst) t')).
Proof.
  assert (H : tryPoint 10 map100 MAX_INT sourceEast (mkVector 50 50) stateFirst
              = Returned (stateSecond, false)) by (vm_compute; reflexivity).
  split; [exact map100_wf|]. split; [exact H|].
  exact (tryPoint_accepts_and_stores 10 map100 MAX_INT sourceEast (mkVector 50 50)
           stateFirst stateSecond false map100_wf H).
Defined.
